(** * BlockchainService: fork manager, block assembly and PoW coordination

    A shallow embedding of [app/service/BlockchainService.js].

    JavaScript values are modelled as follows.
    - Heights, counts and UNIX times are integers ([Z]); hashes and public
      keys are [string]s compared the way JavaScript compares strings
      (code unit by code unit, which is [String.compare] on ASCII).
    - [null]/[undefined] is [None]; an array is a [list]; an object used
      as a dictionary is an association list in insertion order with
      distinct keys (the order [_.keys] enumerates).
    - The monetary quantities entering the dividend are IEEE-754 binary64
      numbers ([PrimFloat.float]), as every JavaScript number is.
    - A rejected promise or a thrown exception is an [Err] result.
    - Collaborators whose sources are elsewhere (validators, contexts,
      entity renderers, the DAL) are interfaces: classes of oracles over
      which every definition and theorem is generic. *)

From Stdlib Require Import ZArith List String Ascii Bool Lia.
From Stdlib Require Import Floats.PrimFloat Floats.FloatOps Floats.SpecFloat.
From Stdlib Require Import Uint63.
From Equations Require Import Equations.
Import ListNotations.

Set Implicit Arguments.
Open Scope string_scope.
Open Scope list_scope.
Open Scope Z_scope.

(* ===================================================================== *)
(** * Results of fallible computations *)
(* ===================================================================== *)

(** The exceptions and rejections the service can produce. *)
Inductive Error : Type :=
| ErrPreviousNotFound      (* throw 'Previous block not found' *)
| ErrWrongRootBlock        (* throw 'Wrong new block: cannot make a root block without members' *)
| ErrTypeError             (* property access on undefined *)
| ErrCheckBlock            (* basedCore.checkBlock rejected *)
| ErrAddBlock              (* a context's addBlock rejected *)
| ErrValidator             (* getPoWMin / getMedianTime rejected *)
| ErrDal                   (* a DAL operation rejected *)
| ErrNoListener.           (* 'Proof-of-work found, but no listener is attached.' *)

Inductive result (A : Type) : Type :=
| Ok (a : A)
| Err (e : Error).
Arguments Ok {A} a.
Arguments Err {A} e.

Definition bind {A B} (r : result A) (k : A -> result B) : result B :=
  match r with
  | Ok a => k a
  | Err e => Err e
  end.

Notation "x <- c1 ;; c2" := (bind c1 (fun x => c2))
  (at level 61, c1 at next level, right associativity).

(* ===================================================================== *)
(** * String order *)
(* ===================================================================== *)

(** JavaScript's [a > b] on strings. *)
Definition str_gtb (a b : string) : bool := String.ltb b a.

(* ===================================================================== *)
(** * The underscore helpers the service uses *)
(* ===================================================================== *)

Section Underscore.
Variable A : Type.

(** [arr[i]]: [undefined] outside the array. *)
Definition array_at (arr : list A) (i : Z) : option A :=
  if i <? 0 then None else nth_error arr (Z.to_nat i).

(** [_.max(list, iteratee)] with a numeric iteratee: the first element
    whose computed value is strictly greater than all before it; on an
    empty list underscore returns [-Infinity], which has no fields. *)
Definition us_max (iteratee : A -> Z) (l : list A) : option A :=
  fold_left
    (fun result value =>
       match result with
       | None => Some value
       | Some r => if iteratee value >? iteratee r then Some value else Some r
       end)
    l None.

(** [_.filter] / [_.where]: the elements that satisfy the predicate,
    in order. *)
Definition us_filter (p : A -> bool) (l : list A) : list A := filter p l.

(** [_.findWhere]: the first element that matches. *)
Definition us_findWhere (p : A -> bool) (l : list A) : option A := find p l.

(** [arr.splice(start, 1)]: a negative [start] counts from the end. *)
Definition splice1 (arr : list A) (start : Z) : list A :=
  let len := Z.of_nat (List.length arr) in
  let from := if start <? 0 then Z.max (len + start) 0 else Z.min start len in
  firstn (Z.to_nat from) arr ++ skipn (S (Z.to_nat from)) arr.

(** [_.sortBy(list, iteratee)]: underscore sorts the pairs
    (criteria, index) with the comparator "greater criteria last, equal
    criteria by index".  That comparator is a strict total order on the
    entries, so the sorted array does not depend on the engine's
    algorithm; it is computed here by insertion from the right, where the
    inserted element always carries the smallest index. *)
Section SortBy.
Variable K : Type.
Variable gtb : K -> K -> bool.
Variable criteria : A -> K.

Fixpoint sort_insert (x : A) (sorted : list A) : list A :=
  match sorted with
  | [] => [x]
  | y :: rest =>
      if gtb (criteria x) (criteria y) then y :: sort_insert x rest
      else x :: y :: rest
  end.

Definition us_sortBy (l : list A) : list A := fold_right sort_insert [] l.
End SortBy.
End Underscore.

(* ===================================================================== *)
(** * Blocks and cores *)
(* ===================================================================== *)

(** The fields of a block the service reads or writes. *)
Record Block : Type := mkBlock {
  version        : Z;
  currency       : string;
  number         : Z;
  parameters     : string;
  hash           : string;
  previousHash   : string;
  previousIssuer : string;
  issuer         : option string;
  identities     : list string;
  joiners        : list string;
  actives        : list string;
  leavers        : list string;
  excluded       : list string;
  membersCount   : Z;
  certifications : list string;
  transactions   : list string;
  powMin         : Z;
  medianTime     : Z;
  monetaryMass   : option float;
  UDTime         : option Z;
  dividend       : option float;
  nonce          : Z
}.

(** A core: a fork point and the context bound to the forked DAL, of which
    the service reads the block it holds ([core.current()]).  [coreRef]
    stands for the identity of the JavaScript object ([indexOf] and
    [_.without] compare with [===]). *)
Record Core : Type := mkCore {
  coreRef               : nat;
  forkPointNumber       : Z;
  forkPointHash         : string;
  forkPointPreviousHash : string;
  coreBlock             : Block
}.

Definition same_core (a b : Core) : bool := Nat.eqb (coreRef a) (coreRef b).

(* ===================================================================== *)
(** * Main-fork election *)
(* ===================================================================== *)

(** [this.getMainFork]. *)
Definition getMainFork (cores : list Core) : option Core :=
  let maxNumber := option_map forkPointNumber (us_max forkPointNumber cores) in
  let highestCores :=
    us_filter
      (fun core => match maxNumber with
                   | Some m => forkPointNumber core =? m
                   | None => false
                   end) cores in
  let highestCores := us_sortBy str_gtb forkPointHash highestCores in
  array_at highestCores (Z.of_nat (List.length highestCores) - 1).

(* ===================================================================== *)
(** * Fork manager *)
(* ===================================================================== *)

(** The context a block is checked against and forked from. *)
Inductive Ctx : Type :=
| MainContext
| CoreContext (core : Core).

(** What the fork manager owns: the managed array of cores (one shared
    array, mutated in place by [push] and [splice]), the confirmed chain of
    the main DAL (newest block first) and the next fresh object reference. *)
Record ForkState : Type := mkForkState {
  cores   : list Core;
  chain   : list Block;
  nextRef : nat
}.

(** [mainDAL.getCurrentBlockOrNull()]. *)
Definition getCurrentBlockOrNull (st : ForkState) : option Block :=
  match chain st with
  | [] => None
  | b :: _ => Some b
  end.

(** The verdicts of the chain contexts ([lib/blockchainContext]) and of
    the DAL operations a promotion goes through. *)
Class Contexts : Type := {
  (** [ctx.checkBlock(obj, WITH_SIGNATURES_AND_POW)] resolves. *)
  checkBlock : ForkState -> Ctx -> Block -> bool;
  (** [mainContext.addBlock(obj, doCheck)] resolves. *)
  mainAddBlock : ForkState -> Block -> bool -> bool;
  (** [core.addBlock(obj)] on the freshly forked DAL resolves. *)
  coreAddBlock : ForkState -> Ctx -> Block -> bool;
  (** [core.current()] resolves. *)
  coreCurrentResolves : ForkState -> Core -> bool;
  (** The four transfers of [startPruning] from the DAL of the core to
      the main one (pending identities, certifications, memberships and
      peers) all resolve. *)
  transfersResolve : ForkState -> Core -> bool;
  (** [mainDAL.unfork(core)] resolves. *)
  unforkResolves : ForkState -> Core -> bool
}.

(** Computations over the fork manager's state that may reject; a
    rejection keeps the mutations made so far. *)
Definition Fork (A : Type) : Type := ForkState -> result A * ForkState.

Definition fret {A} (a : A) : Fork A := fun st => (Ok a, st).
Definition fbind {A B} (m : Fork A) (k : A -> Fork B) : Fork B :=
  fun st =>
    match m st with
    | (Ok a, st') => k a st'
    | (Err e, st') => (Err e, st')
    end.

Notation "c1 ;;; c2" := (fbind c1 (fun _ => c2))
  (at level 61, right associativity).

(** [getCore(cores, number, hash)]. *)
Definition getCore (cs : list Core) (n : Z) (h : string) : option Core :=
  us_findWhere
    (fun core => (forkPointNumber core =? n) && String.eqb (forkPointHash core) h)
    cs.

(** [cores.indexOf(core)]. *)
Fixpoint indexOf (core : Core) (cs : list Core) : Z :=
  match cs with
  | [] => -1
  | c :: rest =>
      if same_core c core then 0
      else let i := indexOf core rest in if i <? 0 then -1 else i + 1
  end.

(** [_.without(cores, orphan)]. *)
Definition us_without (cs : list Core) (orphan : Core) : list Core :=
  filter (fun c => negb (same_core c orphan)) cs.

(** [a || b] where [a] is [null] or a number: [0] is falsy. *)
Definition js_or (a : option Z) (b : Z) : Z :=
  match a with
  | Some v => if v =? 0 then b else v
  | None => b
  end.

(** The callback [pruneForks] maps over its orphans: the parameter [cores]
    is rebound to the fresh array [_.without] returns, then the traversal
    goes on below the orphan ([below]).  The array the caller holds is
    never written. *)
Fixpoint eachOrphan (below : Core -> list Core -> option (list Core))
         (orphans : list Core) (cs : list Core) : option (list Core) :=
  match orphans with
  | [] => Some []
  | orphan :: more =>
      let cs := us_without cs orphan in
      match below orphan cs, eachOrphan below more cs with
      | Some under, Some after => Some (orphan :: under ++ after)
      | _, _ => None
      end
  end.

(** [pruneForks(deleted, cores)]: the orphans the traversal selects, in the
    order it visits them.  [fuel] bounds the depth of the recursion. *)
Fixpoint pruneForks_fuel (fuel : nat) (deleted : Core) (cs : list Core)
  : option (list Core) :=
  match fuel with
  | O => None
  | S fuel' =>
      let orphans :=
        us_filter
          (fun core =>
             (forkPointNumber core =? forkPointNumber deleted + 1)
             && negb (String.eqb (forkPointPreviousHash core) (forkPointHash deleted)))
          cs in
      eachOrphan (pruneForks_fuel fuel') orphans cs
  end.

Definition pruneForks (deleted : Core) (cs : list Core) : option (list Core) :=
  pruneForks_fuel (S (List.length cs)) deleted cs.

(** [bindUnboundsToMainDAL(deleted, cores)]: the cores it rebinds.  The
    rebinding itself touches only their DAL. *)
Definition bindUnboundsToMainDAL (deleted : Core) (cs : list Core) : list Core :=
  us_filter
    (fun core =>
       (forkPointNumber core =? forkPointNumber deleted + 1)
       && String.eqb (forkPointPreviousHash core) (forkPointHash deleted))
    cs.

(** The size [startPruning] gives the branch of [highest]. *)
Definition branchSize (highest : Core) (current : option Block) : Z :=
  let distanceFromMain :=
    option_map (fun c => forkPointNumber highest - number c) current in
  let distanceFromVoid := forkPointNumber highest + 1 in
  js_or distanceFromMain distanceFromVoid.

Definition toPruneCount (highest : Core) (current : option Block) (W : Z) : Z :=
  Z.max 0 (branchSize highest current - W).

(** The [for] loop of [startPruning]: [steps] look-ups of the parent core.
    A look-up that finds nothing yields [undefined], whose next use throws. *)
Fixpoint walkBranch (cs : list Core) (currentTop : Core) (steps : nat)
  : result (list Core) :=
  match steps with
  | O => Ok []
  | S k =>
      match us_findWhere
              (fun core =>
                 (forkPointNumber core =? forkPointNumber currentTop - 1)
                 && String.eqb (forkPointHash core) (forkPointPreviousHash currentTop))
              cs with
      | None => Err ErrTypeError
      | Some parent => above <- walkBranch cs parent k ;; Ok (parent :: above)
      end
  end.

(** The cores [startPruning] is going to promote, lowest first. *)
Definition branchToPrune (highest : Core) (cs : list Core)
           (current : option Block) (W : Z) : result (list Core) :=
  let size := branchSize highest current in
  let count := toPruneCount highest current W in
  if count =? 0 then Ok []
  else
    walked <- walkBranch cs highest (Z.to_nat (size - 1)) ;;
    let branch := highest :: walked in
    let branch := us_sortBy Z.gtb forkPointNumber branch in
    Ok (firstn (Z.to_nat count) branch).

(** The [basedCore] of [submitBlock]: the main context while no core
    exists, else the core the block names as its parent, if any. *)
Definition basedCoreOf (obj : Block) (st : ForkState) : option Ctx :=
  if Z.of_nat (List.length (cores st)) =? 0 then Some MainContext
  else option_map CoreContext
         (getCore (cores st) (number obj - 1) (previousHash obj)).

Section ForkManager.
Context {contexts : Contexts}.

(** [mainContext.addBlock(obj, doCheck)]. *)
Definition mainContext_addBlock (obj : Block) (doCheck : bool) : Fork unit :=
  fun st =>
    if mainAddBlock st obj doCheck
    then (Ok tt, mkForkState (cores st) (obj :: chain st) (nextRef st))
    else (Err ErrAddBlock, st).

(** A call to the DAL that leaves the state kept here alone: it resolves
    or it rejects. *)
Definition dalCall (resolves : ForkState -> bool) : Fork unit :=
  fun st => if resolves st then (Ok tt, st) else (Err ErrDal, st).

(** One round of the reduction in [startPruning]: read the block of
    [core], add it to the main blockchain, copy what is pending on the
    DAL of the core to the main one, unfork the core and splice it out of
    the managed array, then run [pruneForks] and [bindUnboundsToMainDAL],
    whose values are dropped.  A rejection of [core.current()] or of
    [addBlock] stops the round before anything is changed; a rejection of
    a transfer or of [mainDAL.unfork] stops it with the block confirmed
    and the core still managed. *)
Definition pruneCore (doCheck : bool) (core : Core) : Fork unit :=
  dalCall (fun st => coreCurrentResolves st core) ;;;
  mainContext_addBlock (coreBlock core) doCheck ;;;
  dalCall (fun st => transfersResolve st core) ;;;
  dalCall (fun st => unforkResolves st core) ;;;
  (fun st =>
     let cs := splice1 (cores st) (indexOf core (cores st)) in
     let _orphans := pruneForks core cs in
     let _unbounds := bindUnboundsToMainDAL core cs in
     (Ok tt, mkForkState cs (chain st) (nextRef st))).

Fixpoint pruneEach (doCheck : bool) (branch : list Core) : Fork unit :=
  match branch with
  | [] => fret tt
  | core :: rest => pruneCore doCheck core ;;; pruneEach doCheck rest
  end.

(** [startPruning(highest, cores, current, forkWindowSize, doCheck)];
    [cores] is the managed array. *)
Definition startPruning (highest : Core) (current : option Block)
           (W : Z) (doCheck : bool) : Fork unit :=
  fun st =>
    match branchToPrune highest (cores st) current W with
    | Err e => (Err e, st)
    | Ok branch => pruneEach doCheck branch st
    end.

(** [forkAndAddCore(basedCore, cores, obj)]. *)
Definition forkAndAddCore (basedCore : Ctx) (obj : Block) : Fork unit :=
  fun st =>
    let core := mkCore (nextRef st) (number obj) (hash obj) (previousHash obj) obj in
    if coreAddBlock st basedCore obj
    then (Ok tt, mkForkState (cores st ++ [core]) (chain st) (S (nextRef st)))
    else (Err ErrAddBlock, mkForkState (cores st) (chain st) (S (nextRef st))).

(** The "Shift" step that follows [forkAndAddCore] in [submitBlock]. *)
Definition shift (W : Z) (doCheck : bool) : Fork unit :=
  fun st =>
    let maxNumber := option_map forkPointNumber (us_max forkPointNumber (cores st)) in
    let highestCores :=
      us_filter
        (fun core => match maxNumber with
                     | Some m => forkPointNumber core =? m
                     | None => false
                     end) (cores st) in
    if Z.of_nat (List.length highestCores) >? 1 then (Ok tt, st)
    else
      match array_at highestCores 0 with
      | None => (Err ErrTypeError, st)
      | Some highest =>
          startPruning highest (getCurrentBlockOrNull st) W doCheck st
      end.

(** [this.submitBlock(obj, doCheck)] with [conf.branchesWindowSize = W].
    The notice it gives the proof-of-work at the end
    ([stopPoWThenProcessAndRestartPoW]) leaves the fork manager's state
    alone. *)
Definition submitBlock (W : Z) (doCheck : bool) (obj : Block) : Fork unit :=
  fun st =>
    let noCore := Z.of_nat (List.length (cores st)) =? 0 in
    match basedCoreOf obj st with
    | None => (Err ErrPreviousNotFound, st)
    | Some basedCore =>
        if doCheck && negb (checkBlock st basedCore obj) then (Err ErrCheckBlock, st)
        else if noCore && (W =? 0) then mainContext_addBlock obj doCheck st
        else (forkAndAddCore basedCore obj ;;; shift W doCheck) st
    end.
End ForkManager.

(* ===================================================================== *)
(** * Iterated checking of newcomers *)
(* ===================================================================== *)

Section IteratedChecking.
Variable A : Type.

(** [checkWoTForNewcomers(someNewcomers, cb)]: [true] when [cb] receives
    no error. *)
Variable checkWoTForNewcomers : list A -> bool.

(** The [async.forEachSeries] pass of [iteratedChecking], started with
    the accumulators [passingNewcomers] and [hadError]. *)
Fixpoint forEachNewcomer (newcomers passingNewcomers : list A) (hadError : bool)
  : list A * bool :=
  match newcomers with
  | [] => (passingNewcomers, hadError)
  | newcomer :: rest =>
      if checkWoTForNewcomers (passingNewcomers ++ [newcomer])
      then forEachNewcomer rest (passingNewcomers ++ [newcomer]) hadError
      else forEachNewcomer rest passingNewcomers true
  end.

Lemma forEachNewcomer_length newcomers :
  forall passing hadError,
    (List.length (fst (forEachNewcomer newcomers passing hadError))
     <= List.length passing + List.length newcomers)%nat.
Proof.
  induction newcomers as [|n rest IH]; intros passing hadError; simpl.
  - lia.
  - destruct (checkWoTForNewcomers (passing ++ [n])).
    + specialize (IH (passing ++ [n]) hadError).
      rewrite length_app in IH. simpl in IH. lia.
    + specialize (IH passing true). lia.
Qed.

Lemma forEachNewcomer_rejects newcomers :
  forall passing,
    snd (forEachNewcomer newcomers passing false) = true ->
    (List.length (fst (forEachNewcomer newcomers passing false))
     < List.length passing + List.length newcomers)%nat.
Proof.
  induction newcomers as [|n rest IH]; intros passing; simpl.
  - discriminate.
  - destruct (checkWoTForNewcomers (passing ++ [n])).
    + intros H. specialize (IH (passing ++ [n]) H).
      rewrite length_app in IH. simpl in IH. lia.
    + intros _. pose proof (forEachNewcomer_length rest passing true). lia.
Qed.

(** A value together with the equation that names it, so that the
    recursive call below knows where its argument comes from. *)
Definition inspect {B : Type} (b : B) : {b' : B | b = b'} := exist _ b eq_refl.

(** [iteratedChecking(newcomers, checkWoTForNewcomers)]: the value its
    promise resolves with. *)
Equations? iteratedChecking (newcomers : list A) : list A
  by wf (List.length newcomers) lt :=
  iteratedChecking newcomers with inspect (forEachNewcomer newcomers [] false) => {
    | exist _ (passingNewcomers, true) _ := iteratedChecking passingNewcomers;
    | exist _ (passingNewcomers, false) _ := passingNewcomers }.
Proof.
  pose proof (forEachNewcomer_rejects newcomers []) as H.
  rewrite e in H. simpl in H. auto.
Qed.
End IteratedChecking.

(** One checking pass, in the words of the specification: the candidates
    are taken in their order, [passing] being those admitted so far; a
    candidate is admitted when the check accepts it together with those
    admitted before it, and rejected otherwise.  [checkingPass check
    passing candidates passed rejected]: the pass over [candidates]
    ends with [passed] admitted, and [rejected] tells whether it turned
    somebody down. *)
Inductive checkingPass (A : Type) (check : list A -> bool)
  : list A -> list A -> list A -> bool -> Prop :=
| pass_end (passing : list A) :
    checkingPass check passing [] passing false
| pass_admit (passing : list A) (candidate : A) (rest passed : list A)
             (rejected : bool) :
    check (passing ++ [candidate]) = true ->
    checkingPass check (passing ++ [candidate]) rest passed rejected ->
    checkingPass check passing (candidate :: rest) passed rejected
| pass_reject (passing : list A) (candidate : A) (rest passed : list A)
              (rejected : bool) :
    check (passing ++ [candidate]) = false ->
    checkingPass check passing rest passed rejected ->
    checkingPass check passing (candidate :: rest) passed true.

(** The fixpoint of the specification: passes are run, each over what
    passed the one before, until a pass rejects nobody.  [settles check
    passes candidates result]: that takes [passes] passes and ends with
    [result]. *)
Inductive settles (A : Type) (check : list A -> bool)
  : nat -> list A -> list A -> Prop :=
| settles_now (candidates passed : list A) :
    checkingPass check [] candidates passed false ->
    settles check 1 candidates passed
| settles_later (passes : nat) (candidates passed result : list A) :
    checkingPass check [] candidates passed true ->
    settles check passes passed result ->
    settles check (S passes) candidates result.

(** [s] is [l] with some elements left out, the others in their order. *)
Inductive subseq (A : Type) : list A -> list A -> Prop :=
| subseq_nil : subseq [] []
| subseq_skip (x : A) (s l : list A) : subseq s l -> subseq s (x :: l)
| subseq_keep (x : A) (s l : list A) : subseq s l -> subseq (x :: s) (x :: l).

(* ===================================================================== *)
(** * Selection of pending transactions *)
(* ===================================================================== *)

Record Tx : Type := mkTx {
  tx_hash : string;
  tx_raw  : string
}.

(** The validators ([lib/localValidator], [lib/globalValidator]) and the
    health of the DAL during one run of [findTransactions]. *)
Class TxRules : Type := {
  (** [localValidation.checkBunchOfTransactions(txs, cb)] passes. *)
  checkBunchOfTransactions : list Tx -> bool;
  (** [globalValidation.checkSingleTransaction(tx, cb)] passes. *)
  checkSingleTransaction : Tx -> bool;
  (** [dal.removeTxByHash(hash)] resolves from this pool. *)
  removeTxResolves : list Tx -> string -> bool
}.

(** Modelled from the spec: [dal.removeTxByHash], of the DAL, which is not
    part of the sources.  It deletes from the pending pool the transactions
    that carry the hash; like every DAL operation it may reject. *)
Definition removeTxByHash {rules : TxRules} (pool : list Tx) (h : string)
  : result (list Tx) :=
  if removeTxResolves pool h
  then Ok (filter (fun t => negb (String.eqb (tx_hash t) h)) pool)
  else Err ErrDal.

(** The variables [findTransactions] closes over, with the pending pool. *)
Record TxLoop : Type := mkTxLoop {
  selected   : list Tx;   (* [transactions] *)
  passingTxs : list Tx;
  pending    : list Tx
}.

Section FindTransactions.
Context {rules : TxRules}.

(** The body of the [async.forEachSeries] over the pending transactions:
    the waterfall of the two checks, then either the two [push]es or the
    removal from the pool. *)
Definition eachTx (tx : Tx) (s : TxLoop) : result TxLoop :=
  if checkBunchOfTransactions (passingTxs s ++ [tx]) && checkSingleTransaction tx
  then Ok (mkTxLoop (selected s ++ [tx]) (passingTxs s ++ [tx]) (pending s))
  else
    pool <- removeTxByHash (pending s) (tx_hash tx) ;;
    Ok (mkTxLoop (selected s) (passingTxs s) pool).

Fixpoint forEachTx (txs : list Tx) (s : TxLoop) : result TxLoop :=
  match txs with
  | [] => Ok s
  | tx :: rest => s' <- eachTx tx s ;; forEachTx rest s'
  end.

(** [findTransactions(dal)], where [dal.getTransactionsPending()] is
    [pool]: the selected transactions and the pool left behind. *)
Definition findTransactions (pool : list Tx) : result (list Tx * list Tx) :=
  s <- forEachTx pool (mkTxLoop [] [] pool) ;;
  Ok (selected s, pending s).
End FindTransactions.

(* ===================================================================== *)
(** * JavaScript numbers *)
(* ===================================================================== *)

(** An integer as a JavaScript number (exact up to 2^53 in magnitude). *)
Definition float_of_Z (z : Z) : float :=
  if z <? 0 then PrimFloat.opp (PrimFloat.of_uint63 (Uint63.of_Z (- z)))
  else PrimFloat.of_uint63 (Uint63.of_Z z).

(** [Math.max(a, b)]. *)
Definition Math_max (a b : float) : float :=
  if PrimFloat.is_nan a || PrimFloat.is_nan b then PrimFloat.nan
  else if PrimFloat.ltb a b then b
  else if PrimFloat.ltb b a then a
  else if PrimFloat.get_sign a then b else a.

(** [Math.ceil(x)]. *)
Definition Math_ceil (x : float) : float :=
  match Prim2SF x with
  | S754_finite s m e =>
      if 0 <=? e then x
      else
        let d := 2 ^ (- e) in
        let q := Z.pos m / d in
        let r := Z.pos m mod d in
        if s then (if q =? 0 then PrimFloat.neg_zero else float_of_Z (- q))
        else float_of_Z (if r =? 0 then q else q + 1)
  | _ => x
  end.

(** [x || 0] on a number that may be missing: [0], [-0] and [NaN] are
    falsy. *)
Definition number_or_zero (x : option float) : float :=
  match x with
  | Some v => if PrimFloat.is_zero v || PrimFloat.is_nan v then PrimFloat.zero else v
  | None => PrimFloat.zero
  end.

(* ===================================================================== *)
(** * Block assembly *)
(* ===================================================================== *)

Record Identity : Type := mkIdentity {
  pubkey     : string;
  uid        : string;
  member     : bool;
  wasMember  : bool;
  currentMSN : Z
}.

Record Membership : Type := mkMembership {
  ms_issuer : string;
  ms_userid : string;
  ms_number : Z;
  ms_type   : string
}.

Record Certification : Type := mkCertification {
  cert_from         : string;
  cert_to           : string;
  cert_block_number : Z;
  cert_sig          : string
}.

(** The entries of [joinData] and of [leaveData]. *)
Record Join : Type := mkJoin {
  join_identity : Identity;
  join_ms       : Membership;
  join_certs    : list Certification
}.

Record Leave : Type := mkLeave {
  leave_identity : Identity;
  leave_ms       : Membership
}.

(** An object used as a dictionary: its entries in insertion order. *)
Definition dict (V : Type) : Type := list (string * V).

Definition dict_keys {V} (d : dict V) : list string := map fst d.
Definition dict_values {V} (d : dict V) : list V := map snd d.

Definition dict_get {V} (d : dict V) (k : string) : option V :=
  option_map snd (find (fun kv => String.eqb (fst kv) k) d).

(** [delete d[k]]. *)
Definition dict_delete {V} (k : string) (d : dict V) : dict V :=
  filter (fun kv => negb (String.eqb (fst kv) k)) d.

Definition dict_delete_all {V} (ks : list string) (d : dict V) : dict V :=
  fold_left (fun d k => dict_delete k d) ks d.

(** [d[k] = v]: an existing key keeps its place, a new one goes last. *)
Fixpoint dict_set {V} (k : string) (v : V) (d : dict V) : dict V :=
  match d with
  | [] => [(k, v)]
  | (k', v') :: rest =>
      if String.eqb k' k then (k, v) :: rest else (k', v') :: dict_set k v rest
  end.

Record Conf : Type := mkConf {
  conf_currency    : string;
  c                : float;
  dt               : Z;
  ud0              : float;
  sigDelay         : Z;
  sigValidity      : Z;
  sigQty           : Z;
  sigWoT           : Z;
  msValidity       : Z;
  stepMax          : Z;
  medianTimeBlocks : Z;
  avgGenTime       : Z;
  dtDiffEval       : Z;
  blocksRot        : Z;
  percentRot       : float;
  rootoffset       : Z
}.

(** What block assembly reads from the DAL. *)
Record DalView : Type := mkDalView {
  dal_current     : option Block;      (* getCurrentBlockOrNull() *)
  dal_lastUDBlock : option Block;      (* lastUDBlock()           *)
  dal_toBeKicked  : list Identity;     (* getToBeKicked()         *)
  dal_blockZero   : option Block       (* getBlockOrNull(0)       *)
}.

(** The collaborators of block assembly: the entity renderers
    ([lib/entity]), the conversion of numbers to text, the global
    validator's schedule and the clock. *)
Class Assembly : Type := {
  inlineIdentity      : Identity -> string;
  inlineMembership    : Membership -> string;
  inlineCertification : Certification -> string;
  compactTx           : Tx -> string;
  showInt             : Z -> string;
  showNumber          : float -> string;
  (** [globalValidator(conf, blockchainDao(block, dal)).getPoWMin(n)] *)
  getPoWMin           : Block -> Z -> result Z;
  (** [globalValidator(conf, blockchainDao(block, dal)).getMedianTime(n)] *)
  getMedianTime       : Block -> Z -> result Z;
  (** [moment.utc().unix()] *)
  utcNow              : Z
}.

Definition withPoWMin (b : Block) (v : Z) : Block :=
  mkBlock (version b) (currency b) (number b) (parameters b) (hash b)
          (previousHash b) (previousIssuer b) (issuer b) (identities b)
          (joiners b) (actives b) (leavers b) (excluded b) (membersCount b)
          (certifications b) (transactions b) v (medianTime b)
          (monetaryMass b) (UDTime b) (dividend b) (nonce b).

Definition withMedianTime (b : Block) (v : Z) : Block :=
  mkBlock (version b) (currency b) (number b) (parameters b) (hash b)
          (previousHash b) (previousIssuer b) (issuer b) (identities b)
          (joiners b) (actives b) (leavers b) (excluded b) (membersCount b)
          (certifications b) (transactions b) (powMin b) v
          (monetaryMass b) (UDTime b) (dividend b) (nonce b).

Definition withDividend (b : Block) (v : option float) : Block :=
  mkBlock (version b) (currency b) (number b) (parameters b) (hash b)
          (previousHash b) (previousIssuer b) (issuer b) (identities b)
          (joiners b) (actives b) (leavers b) (excluded b) (membersCount b)
          (certifications b) (transactions b) (powMin b) (medianTime b)
          (monetaryMass b) (UDTime b) v (nonce b).

Definition withNonce (b : Block) (v : Z) : Block :=
  mkBlock (version b) (currency b) (number b) (parameters b) (hash b)
          (previousHash b) (previousIssuer b) (issuer b) (identities b)
          (joiners b) (actives b) (leavers b) (excluded b) (membersCount b)
          (certifications b) (transactions b) (powMin b) (medianTime b)
          (monetaryMass b) (UDTime b) (dividend b) v.

(** [x] is truthy, for a time that may be missing. *)
Definition truthy_time (x : option Z) : bool :=
  match x with
  | Some v => negb (v =? 0)
  | None => false
  end.

(** The [lastUDTime] of [createBlock]: the UD time of the last UD block
    or, when that is falsy, the one of block #0. *)
Definition lastUDTimeOf (lastUDBlock blockZero : option Block) : option Z :=
  let lastUDTime :=
    match lastUDBlock with
    | Some b => UDTime b
    | None => None
    end in
  if truthy_time lastUDTime then lastUDTime
  else match blockZero with
       | Some root => UDTime root
       | None => None
       end.

(** The value [createBlock] computes for [block.dividend]. *)
Definition dividendValue (conf : Conf) (current : Block)
           (lastUDBlock : option Block) (N : Z) : float :=
  let M := number_or_zero (monetaryMass current) in
  let previousUD :=
    match lastUDBlock with
    | Some ud => match dividend ud with
                 | Some d => d
                 | None => PrimFloat.nan   (* [undefined], as a number *)
                 end
    | None => ud0 conf
    end in
  Math_ceil (Math_max previousUD (PrimFloat.div (PrimFloat.mul (c conf) M) (float_of_Z N))).

Section BlockAssembly.
Context {assembly : Assembly}.
Variable conf : Conf.
Variable selfPubkey : string.

(** The [parameters] line of a root block. *)
Definition parametersLine : string :=
  String.concat ":"
    [ showNumber (c conf); showInt (dt conf); showNumber (ud0 conf);
      showInt (sigDelay conf); showInt (sigValidity conf);
      showInt (sigQty conf); showInt (sigWoT conf); showInt (msValidity conf);
      showInt (stepMax conf); showInt (medianTimeBlocks conf);
      showInt (avgGenTime conf); showInt (dtDiffEval conf);
      showInt (blocksRot conf);
      if PrimFloat.eqb (percentRot conf) PrimFloat.one then "1.0"
      else showNumber (percentRot conf) ].

(** The entries of [joinData] that [createBlock] keeps: neither
    excluded nor leaving. *)
Definition keptJoins (joinData : dict Join) (leaveData : dict Leave)
           (exclusions : list string) : dict Join :=
  let leaveData := dict_delete_all exclusions leaveData in
  dict_delete_all (dict_keys leaveData) (dict_delete_all exclusions joinData).

(** The block [createBlock] has filled in when it reaches its
    asynchronous part: everything but [powMin], [medianTime] and
    [dividend]. *)
Definition draftBlock (current : option Block)
           (joinData : dict Join) (leaveData : dict Leave)
           (updates : dict (list Certification)) (exclusions : list string)
           (txs : list Tx) : Block :=
  let joinData := keptJoins joinData leaveData exclusions in
  let leaveData := dict_delete_all exclusions leaveData in
  let updates :=
    dict_delete_all (dict_keys leaveData) (dict_delete_all exclusions updates) in
  let blockNumber := match current with Some cur => number cur + 1 | None => 0 end in
  let joins := dict_values joinData in
  let previousCount := match current with Some cur => membersCount cur | None => 0 end in
  let newcomers :=
    filter (fun data => negb (member (join_identity data))
                        && negb (wasMember (join_identity data))) joins in
  let blockJoiners :=
    filter (fun data => negb (member (join_identity data))) joins in
  let blockActives := filter (fun data => member (join_identity data)) joins in
  let blockLeavers :=
    filter (fun data => member (leave_identity data)) (dict_values leaveData) in
  let joinersInline := map (fun data => inlineMembership (join_ms data)) blockJoiners in
  mkBlock
    1
    (match current with Some cur => currency cur | None => conf_currency conf end)
    blockNumber
    (if blockNumber >? 0 then "" else parametersLine)
    ""
    (match current with Some cur => hash cur | None => "" end)
    (match current with
     | Some cur => match issuer cur with Some i => i | None => "" end
     | None => ""
     end)
    (if String.eqb selfPubkey "" then None else Some selfPubkey)
    (map (fun data => inlineIdentity (join_identity data)) newcomers)
    joinersInline
    (map (fun data => inlineMembership (join_ms data)) blockActives)
    (map (fun data => inlineMembership (leave_ms data)) blockLeavers)
    exclusions
    (previousCount + Z.of_nat (List.length joinersInline)
     - Z.of_nat (List.length exclusions))
    (flat_map (fun data => map inlineCertification (join_certs data)) joins
     ++ flat_map (fun certs => map inlineCertification certs) (dict_values updates))
    (map compactTx txs)
    0 0 None None None 0.

(** The "Universal Dividend" step that ends [createBlock]. *)
Definition universalDividend (dal : DalView) (current lastUDBlock : option Block)
           (block : Block) : Block :=
  let lastUDTime := lastUDTimeOf lastUDBlock (dal_blockZero dal) in
  match lastUDTime, current with
  | Some t, Some cur =>
      if t + dt conf <=? medianTime block
      then withDividend block
             (Some (dividendValue conf cur lastUDBlock (membersCount block)))
      else block
  | _, _ => block
  end.

(** [createBlock(dal, current, joinData, leaveData, updates, exclusions,
    lastUDBlock, transactions)]. *)
Definition createBlock (dal : DalView) (current : option Block)
           (joinData : dict Join) (leaveData : dict Leave)
           (updates : dict (list Certification)) (exclusions : list string)
           (lastUDBlock : option Block) (txs : list Tx) : result Block :=
  let joiners := dict_keys (keptJoins joinData leaveData exclusions) in
  if (Z.of_nat (List.length joiners) =? 0)
     && (match current with Some _ => false | None => true end)
  then Err ErrWrongRootBlock
  else
    let block := draftBlock current joinData leaveData updates exclusions txs in
    powMin <- (if number block =? 0 then Ok 0 else getPoWMin block (number block)) ;;
    let block := withPoWMin block powMin in
    medianTime <- (if number block =? 0 then Ok (utcNow - rootoffset conf)
                   else getMedianTime block (number block)) ;;
    let block := withMedianTime block medianTime in
    Ok (universalDividend dal current lastUDBlock block).

(** [prepareNextBlock(dal)]. *)
Definition prepareNextBlock (dal : DalView)
  : option Block * option Block * list string :=
  (dal_current dal, dal_lastUDBlock dal, map pubkey (dal_toBeKicked dal)).

(** [this.generateEmptyNextBlock()]. *)
Definition generateEmptyNextBlock (dal : DalView) : result Block :=
  let '(current, lastUDBlock, exclusions) := prepareNextBlock dal in
  createBlock dal current [] [] [] exclusions lastUDBlock [].

(** [_.uniq]. *)
Fixpoint us_uniq (l : list string) : list string :=
  match l with
  | [] => []
  | x :: rest =>
      x :: filter (fun y => negb (String.eqb y x)) (us_uniq rest)
  end.

(** The filter [generateNextBlock] applies to one array of
    certifications between members, threading [certifiers]. *)
Fixpoint filterCerts (certs : list Certification) (certifiers : list string)
  : list Certification * list string :=
  match certs with
  | [] => ([], certifiers)
  | cert :: rest =>
      if existsb (String.eqb (cert_from cert)) certifiers
      then filterCerts rest certifiers
      else let '(kept, certifiers') :=
             filterCerts rest (certifiers ++ [cert_from cert]) in
           (cert :: kept, certifiers')
  end.

Fixpoint filterUpdates (newCertsFromWoT : dict (list Certification))
         (certifiers : list string) : dict (list Certification) :=
  match newCertsFromWoT with
  | [] => []
  | (certified, certs) :: rest =>
      let '(kept, certifiers') := filterCerts certs certifiers in
      (certified, kept) :: filterUpdates rest certifiers'
  end.

(** [this.generateNextBlock(dal, generator)] from the point where the
    generator's certifications, the newcomers and leavers, and the
    pending transactions have been gathered. *)
Definition generateNextBlock (dal : DalView)
           (newCertsFromWoT : dict (list Certification))
           (joinData : dict Join) (leaveData : dict Leave)
           (newCertsFromNewcomers : dict (list Certification))
           (txs : list Tx) : result Block :=
  let '(current, lastUDBlock, exclusions) := prepareNextBlock dal in
  let certifiersOfNewcomers :=
    us_uniq (flat_map (fun data => map cert_from (join_certs data))
                      (dict_values joinData)) in
  let newCertsFromWoT := filterUpdates newCertsFromWoT certifiersOfNewcomers in
  let newCertsFromWoT :=
    fold_left
      (fun acc kv =>
         dict_set (fst kv)
                  (match dict_get acc (fst kv) with
                   | Some certs => certs
                   | None => []
                   end ++ snd kv)
                  acc)
      newCertsFromNewcomers newCertsFromWoT in
  createBlock dal current joinData leaveData newCertsFromWoT exclusions
              lastUDBlock txs.
End BlockAssembly.

(* ===================================================================== *)
(** * The proof-of-work worker *)
(* ===================================================================== *)

(** A message of the child process.  Absent fields are [None]
    ([found] is [false] when absent). *)
Record Message : Type := mkMessage {
  msg_found         : bool;
  msg_testsPerRound : option Z;
  msg_nonce         : option Z;
  msg_block         : option Block;
  msg_nbZeros       : option Z
}.

(** The closure variables of one [Worker]: [powProcess] is the handle of
    its child process, [onPoWFound] the listener [prove] attached (its
    promise), if any. *)
Record Worker : Type := mkWorker {
  stopped      : bool;
  speedMesured : bool;
  powProcess   : option nat;
  onPoWFound   : option nat
}.

(** The module variable [powWorker]. *)
Inductive PowWorkerRef : Type :=
| NoWorker          (* null *)
| ThisWorker        (* the worker whose handler runs *)
| FreshWorker.      (* a worker created by the handler *)

(** The module variables the handler shares with the service: the array
    [cancels] of confirmation callbacks and [powWorker]. *)
Record Coordinator : Type := mkCoordinator {
  cancels   : list nat;
  powWorker : PowWorkerRef
}.

(** What the handler does to the outside. *)
Inductive Effect : Type :=
| KillProcess (pid : nat)                       (* powProcess.kill()        *)
| SpawnWorker                                   (* new Worker()             *)
| SendWork (pid : nat) (block : Block)          (* powProcess.send(...)     *)
| ResolveProve (listener : nat) (b : option Block)  (* resolve(theBlock)    *)
| CancelConfirm (token : nat).                  (* cancelConfirm()          *)

Definition truthy_count (x : option Z) : bool :=
  match x with
  | Some v => negb (v =? 0)
  | None => false
  end.

Section PoWWorker.
(** [constants.PROOF_OF_WORK.RELEASE_MEMORY]. *)
Variable RELEASE_MEMORY : Z.

(** [msg.nonce > block.nonce + RELEASE_MEMORY]. *)
Definition overMemoryThreshold (m : Message) (block : Block) : bool :=
  match msg_nonce m with
  | Some n => n >? nonce block + RELEASE_MEMORY
  | None => false
  end.

(** The listener of ['message'] a [Worker] installs on its process. *)
Definition onMessage (m : Message) (w : Worker) (g : Coordinator)
  : result (Worker * Coordinator * list Effect) :=
  (* if (stopped) { start = new Date(); stopped = false; } *)
  let w := mkWorker false (speedMesured w) (powProcess w) (onPoWFound w) in
  if msg_found m then
    let w := mkWorker true (speedMesured w) (powProcess w) (onPoWFound w) in
    match onPoWFound w with
    | None => Err ErrNoListener
    | Some listener => Ok (w, g, [ResolveProve listener (msg_block m)])
    end
  else if truthy_count (msg_testsPerRound m) then
    Ok (mkWorker (stopped w) true (powProcess w) (onPoWFound w), g, [])
  else
    match msg_block m with
    | None => Err ErrTypeError
    | Some block =>
        if overMemoryThreshold m block then
          (* release the memory of the child process *)
          let block :=
            match msg_nonce m with
            | Some n => withNonce block n
            | None => block
            end in
          let w := mkWorker (stopped w) false (powProcess w) (onPoWFound w) in
          match powProcess w with
          | None => Err ErrTypeError
          | Some pid =>
              Ok (w, mkCoordinator (cancels g) FreshWorker,
                  [KillProcess pid; SpawnWorker; SendWork pid block])
          end
        else if speedMesured w && negb (Z.of_nat (List.length (cancels g)) =? 0) then
          match powProcess w with
          | None => Err ErrTypeError
          | Some pid =>
              match onPoWFound w with
              | None => Err ErrNoListener
              | Some listener =>
                  match cancels g with
                  | [] => Err ErrTypeError
                  | cancelConfirm :: rest =>
                      Ok (mkWorker true false None (onPoWFound w),
                          mkCoordinator rest NoWorker,
                          [KillProcess pid; ResolveProve listener None;
                           CancelConfirm cancelConfirm])
                  end
              end
          end
        else Ok (w, g, [])
    end.
End PoWWorker.

(* ===================================================================== *)
(** * The constraints of the web of trust on newcomers *)
(* ===================================================================== *)

(** A computation that ends with a value or with an error of type [E]. *)
Inductive outcome (E A : Type) : Type :=
| Done (a : A)
| Failed (e : E).
Arguments Done {E A} a.
Arguments Failed {E A} e.

(** [async.forEachSeries] over callbacks that report an error or nothing:
    it stops at the first error. *)
Fixpoint forEachSeries {E A : Type} (iterator : A -> outcome E unit) (l : list A)
  : outcome E unit :=
  match l with
  | [] => Done tt
  | a :: rest =>
      match iterator a with
      | Done _ => forEachSeries iterator rest
      | Failed e => Failed e
      end
  end.

(** [newLinks]: for a public key, the issuers of its new links. *)
Definition Links : Type := dict (list string).

(** The block [checkWoTConstraints] looks at: its number and its
    joiners. *)
Record NextBlock : Type := mkNextBlock {
  nb_number  : Z;
  nb_joiners : list string
}.

Inductive WoTError : Type :=
| ErrNegativeBlockNumber                (* 'Cannot compute WoT constraint for negative block number' *)
| ErrNotRecognized (newcomer : string)  (* 'Newcomer ... is not recognized by the WoT for this block' *)
| ErrEnoughLinks (newcomer : string)    (* the error of checkHaveEnoughLinks *)
| ErrOver3Hops (newcomer : string).     (* the error of the validator's isOver3Hops *)

(** What [checkWoTConstraints] asks of the main context and of the
    global validator. *)
Class WoTRules : Type := {
  (** [mainContext.checkHaveEnoughLinks(newcomer, newLinks, next)] calls
      back without an error. *)
  checkHaveEnoughLinks : string -> Links -> bool;
  (** [globalValidator(conf, blockchainDao(block, dal)).isOver3Hops(newcomer,
      ofMembers, newLinks, next)]: the outdistanced members, or an error. *)
  isOver3Hops : NextBlock -> string -> list string -> Links -> option (list string)
}.

(** [s.split(':')[0]]. *)
Fixpoint beforeColon (s : string) : string :=
  match s with
  | EmptyString => EmptyString
  | String ch rest =>
      if Ascii.eqb ch ":" then EmptyString else String ch (beforeColon rest)
  end.

Section WoTConstraints.
Context {wot : WoTRules}.

(** The waterfall run for one newcomer. *)
Definition testNewcomer (block : NextBlock) (ofMembers : list string)
           (newLinks : Links) (newcomer : string) : outcome WoTError unit :=
  if (if nb_number block >? 0 then checkHaveEnoughLinks newcomer newLinks else true)
  then
    match (if nb_number block >? 0
           then isOver3Hops block newcomer ofMembers newLinks
           else Some []) with
    | None => Failed (ErrOver3Hops newcomer)
    | Some outdistanced =>
        if Z.of_nat (List.length outdistanced) >? 0
        then Failed (ErrNotRecognized newcomer)
        else Done tt
    end
  else Failed (ErrEnoughLinks newcomer).

(** [checkWoTConstraints(dal, sentries, block, newLinks, done)]. *)
Definition checkWoTConstraints (sentries : list string) (block : NextBlock)
           (newLinks : Links) : outcome WoTError unit :=
  if nb_number block >=? 0 then
    let newcomers := map beforeColon (nb_joiners block) in
    let ofMembers := sentries ++ newcomers in
    forEachSeries (testNewcomer block ofMembers newLinks) newcomers
  else Failed ErrNegativeBlockNumber.

(** The checking function [findNewcomers] hands to [iteratedChecking]:
    [computeNewLinks] for the newcomers tried, then [checkWoTConstraints]
    on a block that carries them as joiners; [true] when [onceChecked]
    receives no error.  [computeNewLinks] stands for the function of that
    name applied to the join data and the updates at hand. *)
Definition checkWoTForNewcomers
           (computeNewLinks : Z -> list string -> option Links)
           (sentries : list string) (nextBlockNumber : Z)
           (someNewcomers : list string) : bool :=
  match computeNewLinks nextBlockNumber someNewcomers with
  | None => false
  | Some newLinks =>
      match checkWoTConstraints sentries
              (mkNextBlock nextBlockNumber someNewcomers) newLinks with
      | Done _ => true
      | Failed _ => false
      end
  end.
End WoTConstraints.

(* ===================================================================== *)
(** * Statistics over the blocks *)
(* ===================================================================== *)

(** A statistic of the DAL: the numbers of the blocks that count for it,
    and the last block looked at. *)
Record Stat : Type := mkStat {
  blocks          : list Z;
  lastParsedBlock : Z
}.

(** The names of the statistics, in the order [addStatComputing] goes
    through them. *)
Inductive StatName : Type :=
| StatNewcomers | StatCerts | StatJoiners | StatActives
| StatLeavers | StatExcluded | StatUD | StatTx.

(** [value && typeof value == 'object' && value.length > 0]. *)
Definition isNonEmptyArray {A : Type} (value : list A) : bool :=
  Z.of_nat (List.length value) >? 0.

(** [value && typeof value != 'object'] on a number that may be missing. *)
Definition isPositiveValue (value : option float) : bool :=
  match value with
  | Some v => negb (PrimFloat.is_zero v || PrimFloat.is_nan v)
  | None => false
  end.

(** [isPositiveValue || isNonEmptyArray] for [block[tests[statName]]]. *)
Definition countsFor (statName : StatName) (block : Block) : bool :=
  match statName with
  | StatNewcomers => isNonEmptyArray (identities block)
  | StatCerts => isNonEmptyArray (certifications block)
  | StatJoiners => isNonEmptyArray (joiners block)
  | StatActives => isNonEmptyArray (actives block)
  | StatLeavers => isNonEmptyArray (leavers block)
  | StatExcluded => isNonEmptyArray (excluded block)
  | StatUD => isPositiveValue (dividend block)
  | StatTx => isNonEmptyArray (transactions block)
  end.

(** [current ? current.number : -1]. *)
Definition currentNumber (current : option Block) : Z :=
  match current with
  | Some cur => number cur
  | None => -1
  end.

(** [_.range(start, stop)]. *)
Definition us_range (start stop : Z) : list Z :=
  map (fun i => start + Z.of_nat i) (seq 0 (Z.to_nat (stop - start))).

Section Statistics.
(** [forkDAL.getBlockOrNull(blockNumber)]: a block, [null], or a
    rejection. *)
Variable getBlockOrNull : Z -> result (option Block).

(** The [async.forEachSeries] of [addStatComputing] over the numbers of
    the blocks not parsed yet.  A [null] block makes [block[testProperty]]
    a TypeError. *)
Fixpoint parseBlocks (statName : StatName) (numbers : list Z) (stat : Stat)
  : result Stat :=
  match numbers with
  | [] => Ok stat
  | blockNumber :: rest =>
      found <- getBlockOrNull blockNumber ;;
      match found with
      | None => Err ErrTypeError
      | Some block =>
          let stat :=
            mkStat (if countsFor statName block
                    then blocks stat ++ [blockNumber] else blocks stat)
                   blockNumber in
          parseBlocks statName rest stat
      end
  end.

(** What [addStatComputing] computes for one statistic, from the [stat]
    the DAL holds and the current block: the statistic it hands to
    [forkDAL.saveStat]. *)
Definition computeStat (statName : StatName) (stat : Stat)
           (current : option Block) : result Stat :=
  parseBlocks statName
    (us_range (lastParsedBlock stat + 1) (currentNumber current + 1))
    stat.

(** [this.recomputeTxRecords()], where [dal.getStat('tx')] resolved with
    [stat]: the calls to [dal.saveTxsInFiles], in their order, each with
    the transactions, the [block_number] and the [time] it is given. *)
Fixpoint saveTxRecords (numbers : list Z) : result (list (list string * Z * Z)) :=
  match numbers with
  | [] => Ok []
  | blockNumber :: rest =>
      found <- getBlockOrNull blockNumber ;;
      match found with
      | None => Err ErrTypeError
      | Some block =>
          saved <- saveTxRecords rest ;;
          Ok ((transactions block, number block, medianTime block) :: saved)
      end
  end.

Definition recomputeTxRecords (stat : Stat) : result (list (list string * Z * Z)) :=
  saveTxRecords (blocks stat).
End Statistics.

(* ===================================================================== *)
(** * The certifications gathered for the next block *)
(* ===================================================================== *)

(** What the gathering of certifications asks of the DAL. *)
Class CertDal : Type := {
  (** [dal.existsLinkFromOrAfterDate(from, to, date)]. *)
  existsLinkFromOrAfterDate : string -> string -> Z -> result bool;
  (** [dal.isMemberOrError(pubkey, next)] calls back without an error. *)
  isMemberOrError : string -> bool;
  (** [dal.isMembeAndNonLeaverOrError(pubkey, next)] calls back without
      an error. *)
  isMembeAndNonLeaverOrError : string -> bool;
  (** [dal.getBlock(number, cb)]: the block, or [None] when the callback
      receives an error. *)
  getBlock : Z -> option Block;
  (** [dal.getCurrent(cb)]. *)
  getCurrent : result (option Block);
  (** [dal.isMember(pubkey, cb)]. *)
  isMember : string -> result bool
}.

(** [d[k] || []]. *)
Definition get_or_empty {V : Type} (d : dict (list V)) (k : string) : list V :=
  match dict_get d k with
  | Some l => l
  | None => []
  end.

(** The two objects [findNewCertsFromWoT] fills. *)
Record CertUpdates : Type := mkCertUpdates {
  cu_updates       : dict (list Certification);
  cu_updatesToFrom : dict (list string)
}.

Section NewCerts.
Context {certDal : CertDal}.
Variable conf : Conf.

(** The first three steps of the waterfall of [findNewCertsFromWoT] for
    one certification: [true] when none reports an error. *)
Definition passesWoTChecks (current : option Block) (cert : Certification) : bool :=
  match (match current with
         | Some cur =>
             existsLinkFromOrAfterDate (cert_from cert) (cert_to cert)
                                       (medianTime cur - sigDelay conf)
         | None => Ok false
         end) with
  | Err _ => false
  | Ok linked =>
      if linked then false
      else if isMemberOrError (cert_from cert)
           then isMembeAndNonLeaverOrError (cert_to cert)
           else false
  end.

(** One turn of the [async.forEachSeries]: an error of the waterfall is
    dropped, the last step records the certification. *)
Definition eachNewCert (current : option Block) (cert : Certification)
           (s : CertUpdates) : CertUpdates :=
  if passesWoTChecks current cert then
    let toFrom :=
      dict_set (cert_to cert) (get_or_empty (cu_updatesToFrom s) (cert_to cert))
               (cu_updatesToFrom s) in
    let ups :=
      dict_set (cert_to cert) (get_or_empty (cu_updates s) (cert_to cert))
               (cu_updates s) in
    if existsb (String.eqb (cert_from cert)) (get_or_empty toFrom (cert_to cert))
    then mkCertUpdates ups toFrom
    else mkCertUpdates
           (dict_set (cert_to cert) (get_or_empty ups (cert_to cert) ++ [cert]) ups)
           (dict_set (cert_to cert)
                     (get_or_empty toFrom (cert_to cert) ++ [cert_from cert]) toFrom)
  else s.

Definition forEachNewCert (current : option Block) (certs : list Certification)
           (s : CertUpdates) : CertUpdates :=
  fold_left (fun s cert => eachNewCert current cert s) certs s.

(** [NextBlockGenerator.findNewCertsFromWoT(current)], where
    [dal.certsFindNew()] resolved with [certs]: the [updates] it resolves
    with. *)
Definition findNewCertsFromWoT (current : option Block)
           (certs : list Certification) : dict (list Certification) :=
  cu_updates (forEachNewCert current certs (mkCertUpdates [] [])).

(** The waterfall [getSinglePreJoinData] runs for one certification when
    a current block exists, up to the value [isMember] its last step
    receives; an error of a step drops the certification. *)
Definition vetCert (current : Block) (cert : Certification) : bool :=
  match getBlock (cert_block_number cert) with
  | None => false   (* 'Certification based on an unexisting block' *)
  | Some basedBlock =>
      match getCurrent with
      | Err _ => false
      | Ok resCurrent =>
          if match resCurrent with
             | Some cur =>
                 medianTime cur >? medianTime basedBlock + sigValidity conf
             | None => false
             end
          then false   (* 'Too old certification' *)
          else
            match existsLinkFromOrAfterDate
                    (cert_from cert) (cert_to cert)
                    (medianTime current - sigDelay conf) with
            | Err _ => false
            | Ok linked =>
                if linked then false
                else match isMember (cert_from cert) with
                     | Ok answer => answer
                     | Err _ => false
                     end
            end
      end
  end.

(** The [async.forEachSeries] of [getSinglePreJoinData] over the
    certifications not linked to the target: the [finalCerts] it ends
    with, [certifiers] being the issuers already kept. *)
Fixpoint certsFromWoT (current : Block) (certs : list Certification)
         (certifiers : list string) : list Certification :=
  match certs with
  | [] => []
  | cert :: rest =>
      let doubleSignature := existsb (String.eqb (cert_from cert)) certifiers in
      if vetCert current cert && negb doubleSignature
      then cert :: certsFromWoT current rest (certifiers ++ [cert_from cert])
      else certsFromWoT current rest certifiers
  end.

(** [getSinglePreJoinData(dal, current, idHash, done, joiners)], where
    [dal.getIdentityByHashOrNull(idHash)] gave [identity] and
    [dal.certsNotLinkedToTarget(idHash)] gave [certs]: the identity and
    the certifications of the join, when the identity is found. *)
Definition getSinglePreJoinData (current : option Block)
           (identity : option Identity) (certs : list Certification)
           (joiners : option (list string))
  : result (option (Identity * list Certification)) :=
  res_certs <-
    match current with
    | None =>
        match joiners with
        | None =>
            (* [joiners.indexOf] on [undefined], at the first certification *)
            match certs with
            | [] => Ok []
            | _ :: _ => Err ErrTypeError
            end
        | Some js =>
            Ok (us_filter (fun cert => existsb (String.eqb (cert_from cert)) js)
                          certs)
        end
    | Some cur => Ok (certsFromWoT cur certs [])
    end ;;
  Ok (option_map (fun idty => (idty, res_certs)) identity).
End NewCerts.

(** What holds of the two objects all along the loop: [seen] are the
    certifications handled so far. *)
Definition certUpdates_ok {certDal : CertDal} (conf : Conf)
           (current : option Block) (seen : list Certification)
           (s : CertUpdates) : Prop :=
  NoDup (dict_keys (cu_updates s))
  /\ (forall to,
        dict_get (cu_updatesToFrom s) to
        = option_map (map cert_from) (dict_get (cu_updates s) to))
  /\ (forall to kept,
        dict_get (cu_updates s) to = Some kept ->
        kept <> []
        /\ NoDup (map cert_from kept)
        /\ forall cert, In cert kept ->
                        cert_to cert = to /\ In cert seen
                        /\ passesWoTChecks conf current cert = true)
  /\ (forall cert,
        In cert seen -> passesWoTChecks conf current cert = true ->
        exists kept,
          dict_get (cu_updates s) (cert_to cert) = Some kept
          /\ In (cert_from cert) (map cert_from kept)).

(* ===================================================================== *)
(** * Loading the cores *)
(* ===================================================================== *)

(** The DAL a core is loaded on: the main one, or the one of the core it
    is based upon. *)
Inductive LoadedOn : Type :=
| OnMainDAL
| OnCoreDAL (ref : nat).

Section GetCores.
(** [dal.loadCore(core, ...)] resolves. *)
Variable loadCoreResolves : LoadedOn -> Core -> bool.

(** The [reduce] of [getCores] over the sorted cores.  [loaded] holds the
    cores whose context has been merged into them ([_.extend(core, ctx)]):
    those have a [dal]; on another core [basedCore.dal] is [undefined] and
    [dal.loadCore] is a TypeError.  The value lists, in the order of the
    loads, each core with the DAL it was loaded on. *)
Fixpoint loadCores (cs todo : list Core) (loaded : list nat)
  : result (list (nat * LoadedOn)) :=
  match todo with
  | [] => Ok []
  | core :: rest =>
      let basedCore :=
        getCore cs (forkPointNumber core - 1) (forkPointPreviousHash core) in
      dal <- match basedCore with
             | Some based =>
                 if existsb (Nat.eqb (coreRef based)) loaded
                 then Ok (OnCoreDAL (coreRef based))
                 else Err ErrTypeError
             | None => Ok OnMainDAL
             end ;;
      if loadCoreResolves dal core
      then loads <- loadCores cs rest (loaded ++ [coreRef core]) ;;
           Ok ((coreRef core, dal) :: loads)
      else Err ErrDal
  end.

(** [getCores()], first call, where [mainDAL.getCores()] resolved with
    [stored]: the array of cores and the loads made. *)
Definition getCores (stored : list Core)
  : result (list Core * list (nat * LoadedOn)) :=
  let cs := us_sortBy Z.gtb forkPointNumber stored in
  loads <- loadCores cs cs [] ;;
  Ok (cs, loads).
End GetCores.

(** Cores by ascending fork point number. *)
Fixpoint ascendingCores (cs : list Core) : Prop :=
  match cs with
  | [] => True
  | core :: rest =>
      Forall (fun later => forkPointNumber core <= forkPointNumber later) rest
      /\ ascendingCores rest
  end.

(** The messages of the child process, handled in turn by the listener
    of the worker; the effects are gathered in their order. *)
Fixpoint onMessages (RELEASE_MEMORY : Z) (ms : list Message) (w : Worker)
         (g : Coordinator) : result (Worker * Coordinator * list Effect) :=
  match ms with
  | [] => Ok (w, g, [])
  | m :: rest =>
      match onMessage RELEASE_MEMORY m w g with
      | Err e => Err e
      | Ok (w1, g1, effects1) =>
          match onMessages RELEASE_MEMORY rest w1 g1 with
          | Err e => Err e
          | Ok (w2, g2, effects2) => Ok (w2, g2, effects1 ++ effects2)
          end
      end
  end.

(** The confirmation callbacks called, in the order of the calls. *)
Definition confirmedTokens (effects : list Effect) : list nat :=
  flat_map (fun effect => match effect with
                          | CancelConfirm token => [token]
                          | _ => []
                          end) effects.

(* ===================================================================== *)
(** * Fork manager: the views of the cores *)
(* ===================================================================== *)

(** [this.branches()]: the cores no core names as its parent. *)
Definition branches (cs : list Core) : list Core :=
  filter
    (fun core =>
       Z.of_nat
         (List.length
            (us_filter
               (fun child =>
                  (forkPointNumber child =? forkPointNumber core + 1)
                  && String.eqb (forkPointPreviousHash child) (forkPointHash core))
               cs)) =? 0)
    cs.

(** [this.mainFork()]: the main context while no core exists, else the
    elected core. *)
Definition mainFork (cs : list Core) : option Ctx :=
  if Z.of_nat (List.length cs) =? 0 then Some MainContext
  else option_map CoreContext (getMainFork cs).

(** [parent] is the core [getCore] finds for [child]'s fork point. *)
Definition parentOf (parent child : Core) : Prop :=
  forkPointNumber parent = forkPointNumber child - 1
  /\ forkPointHash parent = forkPointPreviousHash child.

(** A line of cores, oldest first: each is the parent of the next. *)
Fixpoint lineage (line : list Core) : Prop :=
  match line with
  | [] => True
  | older :: rest =>
      match rest with
      | [] => True
      | younger :: _ => parentOf older younger /\ lineage rest
      end
  end.

(* ===================================================================== *)
(** * Sample data *)
(* ===================================================================== *)

(** A block with a height, a hash and the hash of its parent. *)
Definition sampleBlock (n : Z) (h p : string) : Block :=
  mkBlock 1 "beta_brousouf" n "" h p "" None [] [] [] [] [] 0 [] []
          0 0 None None None 0.

Definition sampleCore (ref : nat) (n : Z) (h p : string) : Core :=
  mkCore ref n h p (sampleBlock n h p).

(** Contexts that accept every block. *)
Definition permissive : Contexts :=
  {| checkBlock := fun _ _ _ => true;
     mainAddBlock := fun _ _ _ => true;
     coreAddBlock := fun _ _ _ => true;
     coreCurrentResolves := fun _ _ => true;
     transfersResolve := fun _ _ => true;
     unforkResolves := fun _ _ => true |}.

(** Contexts that accept every block, over a main DAL whose [unfork]
    rejects. *)
Definition unforkRejects : Contexts :=
  {| checkBlock := fun _ _ _ => true;
     mainAddBlock := fun _ _ _ => true;
     coreAddBlock := fun _ _ _ => true;
     coreCurrentResolves := fun _ _ => true;
     transfersResolve := fun _ _ => true;
     unforkResolves := fun _ _ => false |}.

(** Submissions one after the other, until one is rejected. *)
Fixpoint submitAll {contexts : Contexts} (W : Z) (doCheck : bool)
         (blocks : list Block) : Fork unit :=
  match blocks with
  | [] => fret tt
  | obj :: rest => submitBlock W doCheck obj ;;; submitAll W doCheck rest
  end.

(** A confirmed tip at height 10 and two lines of blocks above it: line A
    on the tip, line B forking from A11 (B12) or from the tip (B11). *)
Definition A10 : Block := sampleBlock 10 "A10" "A09".
Definition A11 : Block := sampleBlock 11 "A11" "A10".
Definition A12 : Block := sampleBlock 12 "A12" "A11".
Definition A13 : Block := sampleBlock 13 "A13" "A12".
Definition A14 : Block := sampleBlock 14 "A14" "A13".
Definition A15 : Block := sampleBlock 15 "A15" "A14".
Definition B11 : Block := sampleBlock 11 "B11" "A10".
Definition B12 : Block := sampleBlock 12 "B12" "A11".
Definition B13 : Block := sampleBlock 13 "B13" "B12".

Definition coreOf (ref : nat) (b : Block) : Core :=
  mkCore ref (number b) (hash b) (previousHash b) b.

(** Rules that turn down the transactions whose hash is "BAD", with a DAL
    that answers. *)
Definition sampleRules : TxRules :=
  {| checkBunchOfTransactions := fun _ => true;
     checkSingleTransaction := fun tx => negb (String.eqb (tx_hash tx) "BAD");
     removeTxResolves := fun _ _ => true |}.

(** The same rules over a DAL that rejects the removals. *)
Definition removalRejected : TxRules :=
  {| checkBunchOfTransactions := fun _ => true;
     checkSingleTransaction := fun tx => negb (String.eqb (tx_hash tx) "BAD");
     removeTxResolves := fun _ _ => false |}.

(** Rules that refuse a bunch whose last transaction repeats the hash of
    an earlier one, over a DAL that resolves the removals. *)
Definition noRepeatedHash : TxRules :=
  {| checkBunchOfTransactions := fun txs =>
       match rev txs with
       | [] => true
       | last :: earlier =>
           negb (existsb (fun t => String.eqb (tx_hash t) (tx_hash last)) earlier)
       end;
     checkSingleTransaction := fun _ => true;
     removeTxResolves := fun _ _ => true |}.

(** Renderers, a schedule and a clock to run block assembly with. *)
Definition sampleAssembly : Assembly :=
  {| inlineIdentity := fun idty => pubkey idty;
     inlineMembership := fun ms => ms_issuer ms;
     inlineCertification := fun cert => cert_from cert;
     compactTx := fun tx => tx_raw tx;
     showInt := fun _ => "n";
     showNumber := fun _ => "x";
     getPoWMin := fun _ _ => Ok 1;
     getMedianTime := fun _ _ => Ok 1000;
     utcNow := 1000 |}.

Definition sampleConf : Conf :=
  mkConf "beta_brousouf" 0.25%float 100 10%float 0 0 1 1 0 3 11 60 10 20 1%float 0.

Definition joinOf (key : string) (isMember : bool) : string * Join :=
  (key, mkJoin (mkIdentity key key isMember isMember 0)
               (mkMembership key key 1 "IN") []).

(** A confirmed tip with five members and a monetary mass of 600, and the
    last block that carried a dividend. *)
Definition sampleTip : Block :=
  mkBlock 1 "beta_brousouf" 7 "" "A07" "A06" "" (Some "HgTT") [] [] [] [] [] 5 [] []
          1 900 (Some 600%float) None None 0.

Definition sampleUDBlock : Block :=
  mkBlock 1 "beta_brousouf" 4 "" "A04" "A03" "" (Some "HgTT") [] [] [] [] [] 5 [] []
          1 600 (Some 600%float) (Some 600) (Some 20%float) 0.

Definition sampleDal : DalView :=
  mkDalView (Some sampleTip) (Some sampleUDBlock) [] None.

(** The block assembled on the sample tip from two newcomers and one
    member who renews, with one member to be kicked. *)
Definition sampleNextBlock : Block :=
  Eval vm_compute in
    match createBlock (assembly := sampleAssembly) sampleConf "HgTT" sampleDal
                      (Some sampleTip)
                      [joinOf "J1" false; joinOf "J2" true; joinOf "J3" false]
                      [] [] ["K1"] (Some sampleUDBlock) [] with
    | Ok block => block
    | Err _ => sampleTip
    end.

(** Rules of the web of trust that accept nobody. *)
Definition strictWoT : WoTRules :=
  {| checkHaveEnoughLinks := fun _ _ => false;
     isOver3Hops := fun _ _ _ _ => None |}.

(** A chain of blocks #0 to #3 where block #2 alone holds a transaction,
    as [getBlockOrNull] serves it. *)
Definition sampleChainBlock (i : Z) : Block :=
  mkBlock 1 "beta_brousouf" i "" "" "" "" None [] [] [] [] [] 3 []
          (if i =? 2 then ["TX:1:1:1:1:0"] else [])
          1 (100 * i) None None None 0.

Definition sampleStore (i : Z) : result (option Block) :=
  if (0 <=? i) && (i <=? 3) then Ok (Some (sampleChainBlock i)) else Ok None.

(** Rules of the web of trust under which J2 is outdistanced as soon as
    J4 is among the members considered. *)
Definition sampleWoT : WoTRules :=
  {| checkHaveEnoughLinks := fun _ _ => true;
     isOver3Hops := fun _ newcomer ofMembers _ =>
       if String.eqb newcomer "J2" && existsb (String.eqb "J4") ofMembers
       then Some ["S1"] else Some [] |}.

(* ********************************************************************* *)
(** * Properties *)
(* ********************************************************************* *)

(* ===================================================================== *)
(** ** The order on strings *)
(* ===================================================================== *)

Lemma ascii_compare_refl (a : ascii) : Ascii.compare a a = Eq.
Proof. unfold Ascii.compare. apply N.compare_refl. Qed.

Lemma ascii_compare_eq (a b : ascii) : Ascii.compare a b = Eq -> a = b.
Proof.
  unfold Ascii.compare. intros H. apply N.compare_eq in H.
  rewrite <- (ascii_N_embedding a), <- (ascii_N_embedding b). now rewrite H.
Qed.

Lemma ascii_compare_lt_trans (a b c : ascii) :
  Ascii.compare a b = Lt -> Ascii.compare b c = Lt -> Ascii.compare a c = Lt.
Proof.
  unfold Ascii.compare. rewrite !N.compare_lt_iff. lia.
Qed.

Lemma str_compare_refl (a : string) : String.compare a a = Eq.
Proof.
  induction a as [|x a IH]; simpl; [reflexivity|].
  now rewrite ascii_compare_refl.
Qed.

Lemma str_compare_lt_trans (a b c : string) :
  String.compare a b = Lt -> String.compare b c = Lt -> String.compare a c = Lt.
Proof.
  revert b c. induction a as [|x a IH]; intros [|y b] [|z c]; simpl; try congruence.
  destruct (Ascii.compare x y) eqn:Hxy; try congruence;
    destruct (Ascii.compare y z) eqn:Hyz; try congruence; intros H1 H2.
  - apply ascii_compare_eq in Hxy, Hyz. subst. rewrite ascii_compare_refl. eauto.
  - apply ascii_compare_eq in Hxy. subst. now rewrite Hyz.
  - apply ascii_compare_eq in Hyz. subst. now rewrite Hxy.
  - now rewrite (ascii_compare_lt_trans _ _ _ Hxy Hyz).
Qed.

Lemma str_leb_refl (a : string) : String.leb a a = true.
Proof. unfold String.leb. now rewrite str_compare_refl. Qed.

Lemma str_leb_trans (a b c : string) :
  String.leb a b = true -> String.leb b c = true -> String.leb a c = true.
Proof.
  unfold String.leb.
  destruct (String.compare a b) eqn:Hab; try discriminate;
    destruct (String.compare b c) eqn:Hbc; try discriminate; intros _ _.
  - apply String.compare_eq_iff in Hab, Hbc. subst. now rewrite str_compare_refl.
  - apply String.compare_eq_iff in Hab. subst. now rewrite Hbc.
  - apply String.compare_eq_iff in Hbc. subst. now rewrite Hab.
  - now rewrite (str_compare_lt_trans _ _ _ Hab Hbc).
Qed.

Lemma str_gtb_false_leb (a b : string) : str_gtb a b = false -> String.leb a b = true.
Proof.
  unfold str_gtb, String.ltb, String.leb. rewrite (String.compare_antisym a b).
  destruct (String.compare b a); simpl; congruence.
Qed.

Lemma str_gtb_true_leb (a b : string) : str_gtb a b = true -> String.leb b a = true.
Proof.
  unfold str_gtb, String.ltb, String.leb. destruct (String.compare b a); congruence.
Qed.

(* ===================================================================== *)
(** ** The underscore helpers *)
(* ===================================================================== *)

Section UnderscoreFacts.
Variable A : Type.

Lemma array_at_last (l : list A) (d : A) :
  l <> [] -> array_at l (Z.of_nat (List.length l) - 1) = Some (last l d).
Proof.
  intros Hne. unfold array_at.
  destruct l as [|a l]; [congruence|]. clear Hne.
  replace (Z.of_nat (List.length (a :: l)) - 1) with (Z.of_nat (List.length l))
    by (simpl List.length; lia).
  destruct (Z.ltb_spec (Z.of_nat (List.length l)) 0) as [Hneg|_]; [lia|].
  rewrite Nat2Z.id. revert a. induction l as [|b l IH]; intros a.
  - reflexivity.
  - simpl List.length. simpl nth_error. rewrite IH. reflexivity.
Qed.

Lemma last_In (l : list A) (d : A) : l <> [] -> In (last l d) l.
Proof.
  induction l as [|a l IH]; [congruence|]. intros _.
  destruct l as [|b l]; [now left|]. right. apply IH. congruence.
Qed.

Section MaxFacts.
Variable iteratee : A -> Z.

Let step (result : option A) (value : A) : option A :=
  match result with
  | None => Some value
  | Some r => if iteratee value >? iteratee r then Some value else Some r
  end.

Lemma us_max_from (l : list A) :
  forall r,
  exists m, fold_left step l (Some r) = Some m
            /\ In m (r :: l)
            /\ forall x, In x (r :: l) -> iteratee x <= iteratee m.
Proof.
  induction l as [|a l IH]; intros r.
  - exists r. simpl. repeat split; auto. intros x [->|[]]. lia.
  - simpl fold_left.
    change (step (Some r) a)
      with (if iteratee a >? iteratee r then Some a else Some r).
    destruct (Z.gtb_spec (iteratee a) (iteratee r)) as [Hgt|Hle].
    + destruct (IH a) as (m & Hm & Hin & Hmax). exists m. repeat split; auto.
      * simpl in *. tauto.
      * intros x [->|Hx].
        -- specialize (Hmax a (or_introl eq_refl)). lia.
        -- now apply Hmax.
    + destruct (IH r) as (m & Hm & Hin & Hmax). exists m. repeat split; auto.
      * simpl in *. tauto.
      * intros x [->|[->|Hx]].
        -- apply Hmax. now left.
        -- specialize (Hmax r (or_introl eq_refl)). lia.
        -- apply Hmax. now right.
Qed.

Lemma us_max_spec (l : list A) :
  l <> [] ->
  exists m, us_max iteratee l = Some m
            /\ In m l
            /\ forall x, In x l -> iteratee x <= iteratee m.
Proof.
  destruct l as [|a l]; [congruence|]. intros _.
  unfold us_max. simpl fold_left. apply (us_max_from l a).
Qed.
End MaxFacts.

Section SortByFacts.
Variable K : Type.
Variable gtb leb : K -> K -> bool.
Variable criteria : A -> K.
Hypothesis gtb_false : forall a b, gtb a b = false -> leb a b = true.
Hypothesis gtb_true : forall a b, gtb a b = true -> leb b a = true.
Hypothesis leb_refl : forall a, leb a a = true.
Hypothesis leb_trans :
  forall a b c, leb a b = true -> leb b c = true -> leb a c = true.

Lemma sort_insert_In (x y : A) (l : list A) :
  In y (sort_insert gtb criteria x l) <-> y = x \/ In y l.
Proof.
  induction l as [|a l IH]; simpl.
  - intuition congruence.
  - destruct (gtb (criteria x) (criteria a)); simpl; rewrite ?IH; intuition congruence.
Qed.

Lemma us_sortBy_In (y : A) (l : list A) :
  In y (us_sortBy gtb criteria l) <-> In y l.
Proof.
  induction l as [|a l IH]; simpl; [tauto|].
  rewrite sort_insert_In, IH. intuition congruence.
Qed.

Lemma sort_insert_nonempty (x : A) (l : list A) :
  sort_insert gtb criteria x l <> [].
Proof. destruct l; simpl; [|destruct (gtb _ _)]; congruence. Qed.

(** The last element of a list bounds every element from above. *)
Definition last_dominates (l : list A) : Prop :=
  forall d y, In y l -> leb (criteria y) (criteria (last l d)) = true.

Lemma last_dominates_tail (a : A) (l : list A) :
  l <> [] -> last_dominates (a :: l) -> last_dominates l.
Proof.
  intros Hne H d y Hy. specialize (H d y (or_intror Hy)).
  destruct l; [congruence|exact H].
Qed.

Lemma sort_insert_dominates (x : A) (l : list A) :
  last_dominates l -> last_dominates (sort_insert gtb criteria x l).
Proof.
  induction l as [|a l IH]; intros Hl.
  - intros d y [->|[]]. simpl. apply leb_refl.
  - simpl. destruct (gtb (criteria x) (criteria a)) eqn:Hg.
    + assert (Hrec : last_dominates (sort_insert gtb criteria x l)).
      { destruct l as [|b l].
        - intros d y [->|[]]. simpl. apply leb_refl.
        - apply IH. eapply last_dominates_tail; [congruence|exact Hl]. }
      intros d y Hy.
      assert (Hlast : last (a :: sort_insert gtb criteria x l) d
                      = last (sort_insert gtb criteria x l) d).
      { pose proof (sort_insert_nonempty x l).
        simpl. destruct (sort_insert gtb criteria x l); [congruence|reflexivity]. }
      rewrite Hlast. destruct Hy as [->|Hy].
      * apply leb_trans with (criteria x); [now apply gtb_true|].
        apply Hrec. apply sort_insert_In. now left.
      * now apply Hrec.
    + intros d y Hy.
      change (last (x :: a :: l) d) with (last (a :: l) d).
      destruct Hy as [->|Hy].
      * apply leb_trans with (criteria a); [now apply gtb_false|].
        apply Hl. now left.
      * now apply Hl.
Qed.

Lemma us_sortBy_dominates (l : list A) :
  last_dominates (us_sortBy gtb criteria l).
Proof.
  induction l as [|a l IH]; simpl.
  - intros d y [].
  - now apply sort_insert_dominates.
Qed.
End SortByFacts.
End UnderscoreFacts.

(* ===================================================================== *)
(** ** Main-fork election *)
(* ===================================================================== *)

(** C1. For a non-empty array of cores, [getMainFork] returns one of its
    cores; no core of the array has a greater [forkPointNumber], so the
    returned one sits at the maximum height; and among the cores at that
    height none has a [forkPointHash] that is lexicographically greater. *)
Theorem getMainFork_elects (cores : list Core) :
  cores <> [] ->
  exists main,
    getMainFork cores = Some main
    /\ In main cores
    /\ (forall core, In core cores -> forkPointNumber core <= forkPointNumber main)
    /\ (forall core, In core cores ->
          forkPointNumber core = forkPointNumber main ->
          String.leb (forkPointHash core) (forkPointHash main) = true).
Proof.
  intros Hne. unfold getMainFork.
  destruct (us_max_spec forkPointNumber Hne) as (top & Htop & Hin & Hmax).
  rewrite Htop. simpl option_map.
  set (highest := us_filter (fun core => forkPointNumber core =? forkPointNumber top) cores).
  set (sorted := us_sortBy str_gtb forkPointHash highest).
  assert (Hhigh : forall x, In x highest <->
                            In x cores /\ forkPointNumber x = forkPointNumber top).
  { intros x. unfold highest, us_filter. rewrite filter_In, Z.eqb_eq. tauto. }
  assert (Hsorted : forall x, In x sorted <-> In x highest)
    by (intros x; apply us_sortBy_In).
  assert (Hnonempty : sorted <> []).
  { intros Hnil. assert (Ht : In top sorted) by (apply Hsorted, Hhigh; auto).
    rewrite Hnil in Ht. destruct Ht. }
  rewrite (array_at_last top Hnonempty).
  pose proof (last_In top Hnonempty) as Hlast.
  apply Hsorted, Hhigh in Hlast. destruct Hlast as [Hlin Hlnum].
  exists (last sorted top). repeat split; auto.
  - intros core Hc. rewrite Hlnum. now apply Hmax.
  - intros core Hc Hnum.
    apply (us_sortBy_dominates str_gtb String.leb forkPointHash
             str_gtb_false_leb str_gtb_true_leb str_leb_refl str_leb_trans highest).
    apply Hsorted, Hhigh. split; [exact Hc|congruence].
Qed.

(** Two cores at the same height: the greater hash wins. *)
Example getMainFork_tie_break :
  getMainFork [ sampleCore 0 11 "0FED" "00AA"; sampleCore 1 11 "0ABC" "00AA";
                sampleCore 2 10 "0FFF" "0099" ]
  = Some (sampleCore 0 11 "0FED" "00AA").
Proof. reflexivity. Qed.

Lemma getMainFork_elects_witness :
  exists main,
    getMainFork [sampleCore 0 11 "0ABC" "00AA"; sampleCore 1 11 "0FED" "00AA"]
    = Some main
    /\ In main [sampleCore 0 11 "0ABC" "00AA"; sampleCore 1 11 "0FED" "00AA"]
    /\ (forall core,
          In core [sampleCore 0 11 "0ABC" "00AA"; sampleCore 1 11 "0FED" "00AA"] ->
          forkPointNumber core <= forkPointNumber main)
    /\ (forall core,
          In core [sampleCore 0 11 "0ABC" "00AA"; sampleCore 1 11 "0FED" "00AA"] ->
          forkPointNumber core = forkPointNumber main ->
          String.leb (forkPointHash core) (forkPointHash main) = true).
Proof.
  apply (getMainFork_elects
           (cores := [sampleCore 0 11 "0ABC" "00AA"; sampleCore 1 11 "0FED" "00AA"])).
  discriminate.
Defined.

(* ===================================================================== *)
(** ** Fork manager: look-ups and the traversal of orphans *)
(* ===================================================================== *)

Lemma getCore_Some (cs : list Core) (n : Z) (h : string) (core : Core) :
  getCore cs n h = Some core ->
  In core cs /\ forkPointNumber core = n /\ forkPointHash core = h.
Proof.
  unfold getCore, us_findWhere. intros H. apply find_some in H.
  destruct H as [Hin Hb]. apply andb_true_iff in Hb. destruct Hb as [Hn Hh].
  apply Z.eqb_eq in Hn. apply String.eqb_eq in Hh. auto.
Qed.

Lemma getCore_None (cs : list Core) (n : Z) (h : string) :
  getCore cs n h = None <->
  ~ exists core, In core cs /\ forkPointNumber core = n /\ forkPointHash core = h.
Proof.
  unfold getCore, us_findWhere. split.
  - intros H (core & Hin & Hn & Hh).
    pose proof (find_none _ _ H core Hin) as Hf. simpl in Hf.
    rewrite Hn, Hh, Z.eqb_refl, String.eqb_refl in Hf. discriminate.
  - intros H. destruct (find _ cs) as [core|] eqn:Hf; [|reflexivity].
    exfalso. apply H. exists core. now apply getCore_Some.
Qed.

Lemma same_core_refl (core : Core) : same_core core core = true.
Proof. unfold same_core. apply Nat.eqb_refl. Qed.

Lemma us_without_length_le (cs : list Core) (orphan : Core) :
  (List.length (us_without cs orphan) <= List.length cs)%nat.
Proof. unfold us_without. apply filter_length_le. Qed.

Lemma us_without_length_lt (cs : list Core) (orphan : Core) :
  (exists core, In core cs /\ same_core core orphan = true) ->
  (List.length (us_without cs orphan) < List.length cs)%nat.
Proof.
  unfold us_without. intros (core & Hin & Hsame).
  induction cs as [|a cs IH]; [destruct Hin|]. simpl.
  destruct (same_core a orphan) eqn:Ha; simpl.
  - pose proof (filter_length_le (fun c => negb (same_core c orphan)) cs). lia.
  - destruct Hin as [->|Hin]; [congruence|]. specialize (IH Hin). lia.
Qed.

(** The traversal of orphans always comes to an end: the array it works on
    loses the orphan at each level. *)
Lemma eachOrphan_total (below : Core -> list Core -> option (list Core))
      (bound : nat) :
  (forall orphan cs, (List.length cs < bound)%nat -> below orphan cs <> None) ->
  forall orphans cs,
    ((List.length cs < bound)%nat
     \/ ((List.length cs <= bound)%nat
         /\ forall orphan, In orphan orphans ->
                           exists core, In core cs /\ same_core core orphan = true)) ->
    eachOrphan below orphans cs <> None.
Proof.
  intros Hbelow. induction orphans as [|orphan more IH]; intros cs Hcs; simpl.
  - discriminate.
  - assert (Hlt : (List.length (us_without cs orphan) < bound)%nat).
    { destruct Hcs as [Hlt|[Hle Hpresent]].
      - pose proof (us_without_length_le cs orphan). lia.
      - pose proof (us_without_length_lt cs orphan (Hpresent orphan (or_introl eq_refl))).
        lia. }
    specialize (Hbelow orphan _ Hlt). specialize (IH _ (or_introl Hlt)).
    destruct (below orphan (us_without cs orphan)); [|congruence].
    destruct (eachOrphan below more (us_without cs orphan)); congruence.
Qed.

Lemma pruneForks_fuel_total (fuel : nat) :
  forall deleted cs,
    (List.length cs < fuel)%nat -> pruneForks_fuel fuel deleted cs <> None.
Proof.
  induction fuel as [|fuel IH]; intros deleted cs Hlen; [lia|]. simpl.
  apply eachOrphan_total with (bound := fuel); [exact IH|].
  right. split; [lia|]. intros orphan Hin.
  unfold us_filter in Hin. apply filter_In in Hin.
  exists orphan. split; [tauto|apply same_core_refl].
Qed.

Lemma pruneForks_total (deleted : Core) (cs : list Core) :
  exists orphans, pruneForks deleted cs = Some orphans.
Proof.
  unfold pruneForks.
  pose proof (@pruneForks_fuel_total (S (List.length cs)) deleted cs
                                     (Nat.lt_succ_diag_r _)) as H.
  destruct (pruneForks_fuel _ deleted cs) as [orphans|]; [eauto|congruence].
Qed.

Lemma splice1_cons (c : Core) (cs : list Core) (i : Z) :
  0 <= i -> splice1 (c :: cs) (i + 1) = c :: splice1 cs i.
Proof.
  intros Hi. unfold splice1.
  destruct (Z.ltb_spec (i + 1) 0); [lia|]. destruct (Z.ltb_spec i 0); [lia|].
  simpl List.length.
  replace (Z.to_nat (Z.min (i + 1) (Z.of_nat (S (List.length cs)))))
    with (S (Z.to_nat (Z.min i (Z.of_nat (List.length cs))))) by lia.
  reflexivity.
Qed.

Lemma indexOf_bounds (core : Core) (cs : list Core) : -1 <= indexOf core cs.
Proof.
  induction cs as [|c cs IH]; simpl; [lia|].
  destruct (same_core c core); [lia|].
  destruct (Z.ltb_spec (indexOf core cs) 0); lia.
Qed.

(** Splicing a core out of its array leaves every other core in place. *)
Lemma splice1_indexOf_keeps (core x : Core) (cs : list Core) :
  0 <= indexOf core cs ->
  In x cs -> same_core x core = false ->
  In x (splice1 cs (indexOf core cs)).
Proof.
  induction cs as [|c cs IH]; simpl; [tauto|].
  destruct (same_core c core) eqn:Hc.
  - intros _ [->|Hin] Hx; [congruence|]. unfold splice1. simpl. exact Hin.
  - destruct (Z.ltb_spec (indexOf core cs) 0) as [Hneg|Hpos]; [lia|].
    intros _ Hin Hx. rewrite splice1_cons by exact Hpos.
    destruct Hin as [->|Hin]; [now left|right; now apply IH].
Qed.

Lemma splice1_indexOf_incl (core x : Core) (cs : list Core) :
  0 <= indexOf core cs -> In x (splice1 cs (indexOf core cs)) -> In x cs.
Proof.
  induction cs as [|c cs IH]; simpl; [lia|].
  destruct (same_core c core) eqn:Hc.
  - intros _ Hin. unfold splice1 in Hin. simpl in Hin. now right.
  - destruct (Z.ltb_spec (indexOf core cs) 0) as [Hneg|Hpos]; [lia|].
    intros _ Hin. rewrite splice1_cons in Hin by exact Hpos.
    destruct Hin as [->|Hin]; [now left|right; now apply IH].
Qed.

(* ===================================================================== *)
(** ** Fork manager: the branch law away from the confirmed height *)
(* ===================================================================== *)



(** At the height of the confirmed tip the difference is [0], which [||]
    takes for a missing value. *)
Lemma branchSize_at_tip_height (highest : Core) (current : Block) :
  forkPointNumber highest = number current ->
  branchSize highest (Some current) = forkPointNumber highest + 1.
Proof.
  intros He. unfold branchSize, js_or. simpl.
  rewrite He, Z.sub_diag. reflexivity.
Qed.

Lemma walkBranch_error (cs : list Core) (steps : nat) :
  forall top e, walkBranch cs top steps = Err e -> e = ErrTypeError.
Proof.
  induction steps as [|k IH]; intros top e; simpl; [discriminate|].
  destruct (us_findWhere _ cs) as [parent|]; [|congruence].
  destruct (walkBranch cs parent k) eqn:Hw; simpl; [discriminate|].
  intros H. injection H as <-. eauto.
Qed.

Lemma walkBranch_length (cs : list Core) (steps : nat) :
  forall top branch, walkBranch cs top steps = Ok branch -> List.length branch = steps.
Proof.
  induction steps as [|k IH]; intros top branch; simpl.
  - intros H. injection H as <-. reflexivity.
  - destruct (us_findWhere _ cs) as [parent|]; [|discriminate].
    destruct (walkBranch cs parent k) eqn:Hw; simpl; [|discriminate].
    intros H. injection H as <-. simpl. f_equal. eauto.
Qed.

Lemma sort_insert_length (K : Type) (gtb : K -> K -> bool) (criteria : Core -> K)
      (x : Core) (l : list Core) :
  List.length (sort_insert gtb criteria x l) = S (List.length l).
Proof.
  induction l as [|a l IH]; simpl; [reflexivity|].
  destruct (gtb _ _); simpl; congruence.
Qed.

Lemma us_sortBy_length (K : Type) (gtb : K -> K -> bool) (criteria : Core -> K)
      (l : list Core) :
  List.length (us_sortBy gtb criteria l) = List.length l.
Proof.
  induction l as [|a l IH]; simpl; [reflexivity|].
  rewrite sort_insert_length. congruence.
Qed.

Lemma branchToPrune_error (highest : Core) (cs : list Core)
      (current : option Block) (W : Z) (e : Error) :
  branchToPrune highest cs current W = Err e -> e = ErrTypeError.
Proof.
  unfold branchToPrune. destruct (_ =? 0); [discriminate|].
  destruct (walkBranch cs highest _) eqn:Hw; simpl; [discriminate|].
  intros H. injection H as <-. eapply walkBranch_error; eauto.
Qed.

(** Nothing is promoted unless the branch overflows the window. *)
Lemma branchToPrune_within_window (highest : Core) (cs : list Core)
      (current : option Block) (W : Z) :
  branchSize highest current <= W ->
  branchToPrune highest cs current W = Ok [].
Proof.
  intros Hle. unfold branchToPrune, toPruneCount.
  rewrite Z.max_l by lia. reflexivity.
Qed.

(** A branch that overflows the window gives up [branchSize - W] cores. *)
Lemma branchToPrune_overflow (highest : Core) (cs : list Core)
      (current : option Block) (W : Z) (branch : list Core) :
  0 <= W -> W < branchSize highest current ->
  branchToPrune highest cs current W = Ok branch ->
  Z.of_nat (List.length branch) = branchSize highest current - W.
Proof.
  intros HW Hover. unfold branchToPrune, toPruneCount.
  rewrite Z.max_r by lia.
  destruct (Z.eqb_spec (branchSize highest current - W) 0); [lia|].
  destruct (walkBranch cs highest _) eqn:Hw; unfold bind; [|discriminate].
  cbv zeta. intros H. injection H as <-.
  apply walkBranch_length in Hw.
  rewrite length_firstn, sort_insert_length, us_sortBy_length, Hw. lia.
Qed.

(* ===================================================================== *)
(** ** Fork manager: admission and pruning *)
(* ===================================================================== *)

Section ForkManagerFacts.
Context {contexts : Contexts}.

(** What one round does, case by case. *)
Lemma pruneCore_cases (doCheck : bool) (core : Core) (st : ForkState) :
  pruneCore doCheck core st
  = if coreCurrentResolves st core then
      if mainAddBlock st (coreBlock core) doCheck then
        let confirmed :=
          mkForkState (cores st) (coreBlock core :: chain st) (nextRef st) in
        if transfersResolve confirmed core then
          if unforkResolves confirmed core then
            (Ok tt, mkForkState (splice1 (cores st) (indexOf core (cores st)))
                                (coreBlock core :: chain st) (nextRef st))
          else (Err ErrDal, confirmed)
        else (Err ErrDal, confirmed)
      else (Err ErrAddBlock, st)
    else (Err ErrDal, st).
Proof.
  unfold pruneCore, fbind, dalCall, mainContext_addBlock.
  destruct (coreCurrentResolves st core); [|reflexivity].
  destruct (mainAddBlock st (coreBlock core) doCheck); [|reflexivity].
  cbv zeta.
  destruct (transfersResolve _ core); [|reflexivity].
  destruct (unforkResolves _ core); reflexivity.
Qed.

Lemma pruneCore_error (doCheck : bool) (core : Core) (st : ForkState) (e : Error) :
  fst (pruneCore doCheck core st) = Err e -> e = ErrAddBlock \/ e = ErrDal.
Proof.
  rewrite pruneCore_cases.
  destruct (coreCurrentResolves st core); [|simpl; intros H; injection H; auto].
  destruct (mainAddBlock st (coreBlock core) doCheck);
    [|simpl; intros H; injection H; auto].
  cbv zeta.
  destruct (transfersResolve _ core); [|simpl; intros H; injection H; auto].
  destruct (unforkResolves _ core); [discriminate|simpl; intros H; injection H; auto].
Qed.

Lemma pruneEach_error (doCheck : bool) (branch : list Core) :
  forall st e, fst (pruneEach doCheck branch st) = Err e ->
               e = ErrAddBlock \/ e = ErrDal.
Proof.
  induction branch as [|core rest IH]; intros st e; simpl; [discriminate|].
  unfold fbind at 1. destruct (pruneCore doCheck core st) as [[u|e'] st'] eqn:Hc.
  - apply IH.
  - simpl. intros H. injection H as <-.
    apply (pruneCore_error doCheck core st). now rewrite Hc.
Qed.

Lemma startPruning_error (highest : Core) (current : option Block) (W : Z)
      (doCheck : bool) (st : ForkState) (e : Error) :
  fst (startPruning highest current W doCheck st) = Err e ->
  e = ErrTypeError \/ e = ErrAddBlock \/ e = ErrDal.
Proof.
  unfold startPruning.
  destruct (branchToPrune highest (cores st) current W) as [branch|e'] eqn:Hb.
  - intros H. right. eapply pruneEach_error; eauto.
  - simpl. intros H. injection H as <-. left. eapply branchToPrune_error; eauto.
Qed.

Lemma shift_error (W : Z) (doCheck : bool) (st : ForkState) (e : Error) :
  fst (shift W doCheck st) = Err e ->
  e = ErrTypeError \/ e = ErrAddBlock \/ e = ErrDal.
Proof.
  unfold shift. destruct (_ >? 1); [discriminate|].
  destruct (array_at _ 0) as [highest|].
  - apply startPruning_error.
  - simpl. intros H. injection H as <-. now left.
Qed.

(** While the branch stays within the window, [startPruning] changes
    nothing. *)
Lemma startPruning_within_window (highest : Core) (current : option Block)
      (W : Z) (doCheck : bool) (st : ForkState) :
  branchSize highest current <= W ->
  startPruning highest current W doCheck st = (Ok tt, st).
Proof.
  intros Hle. unfold startPruning.
  now rewrite branchToPrune_within_window.
Qed.

(** A promotion appends the block of the core to the confirmed chain and
    takes out of the managed array that core and no other. *)
Lemma pruneCore_promotes (doCheck : bool) (core : Core) (st : ForkState) :
  coreCurrentResolves st core = true ->
  mainAddBlock st (coreBlock core) doCheck = true ->
  (forall s, transfersResolve s core = true) ->
  (forall s, unforkResolves s core = true) ->
  pruneCore doCheck core st
  = (Ok tt, mkForkState (splice1 (cores st) (indexOf core (cores st)))
                        (coreBlock core :: chain st) (nextRef st)).
Proof.
  intros Hcur Hok Htransfer Hunfork.
  rewrite pruneCore_cases, Hcur, Hok. cbv zeta.
  now rewrite Htransfer, Hunfork.
Qed.

Lemma pruneCore_keeps_others (doCheck : bool) (core x : Core) (st : ForkState) :
  0 <= indexOf core (cores st) ->
  In x (cores st) -> same_core x core = false ->
  In x (cores (snd (pruneCore doCheck core st))).
Proof.
  intros Hidx Hin Hx. rewrite pruneCore_cases.
  destruct (coreCurrentResolves st core); [|exact Hin].
  destruct (mainAddBlock st (coreBlock core) doCheck); [|exact Hin].
  cbv zeta.
  destruct (transfersResolve _ core); [|exact Hin].
  destruct (unforkResolves _ core); [|exact Hin].
  simpl. now apply splice1_indexOf_keeps.
Qed.

(** C4 (amended). When at least one core exists, [submitBlock] locates a
    parent if and only if some core has the number [B.number - 1] and
    the hash [B.previousHash]; the confirmed tip is not consulted.  When
    no such core exists the submission fails with 'Previous block not
    found' and leaves the cores, and the whole state, as they were; when
    one exists the submission does not fail with that error. *)
Theorem submitBlock_parent_among_cores
        (W : Z) (doCheck : bool) (obj : Block) (st : ForkState) :
  cores st <> [] ->
  (basedCoreOf obj st <> None
   <-> exists core, In core (cores st)
                    /\ forkPointNumber core = number obj - 1
                    /\ forkPointHash core = previousHash obj)
  /\ (basedCoreOf obj st = None ->
      submitBlock W doCheck obj st = (Err ErrPreviousNotFound, st))
  /\ (basedCoreOf obj st <> None ->
      fst (submitBlock W doCheck obj st) <> Err ErrPreviousNotFound).
Proof.
  intros Hne. unfold submitBlock, basedCoreOf.
  assert (Hlen : (Z.of_nat (List.length (cores st)) =? 0) = false).
  { destruct (cores st); [congruence|]. simpl List.length.
    apply Z.eqb_neq. lia. }
  rewrite Hlen.
  destruct (getCore (cores st) (number obj - 1) (previousHash obj))
    as [parent|] eqn:Hget; simpl option_map; cbv iota.
  - pose proof (getCore_Some _ _ _ Hget) as Hparent.
    split; [|split].
    + split; [intros _; exists parent; exact Hparent|discriminate].
    + discriminate.
    + intros _.
      destruct (doCheck && negb (checkBlock st (CoreContext parent) obj));
        [simpl; discriminate|].
      simpl andb. cbv iota. unfold fbind.
      destruct (forkAndAddCore (CoreContext parent) obj st) as [[u|e] st'] eqn:Hf.
      * intros Hs. apply shift_error in Hs. destruct Hs as [Hs|[Hs|Hs]]; discriminate.
      * unfold forkAndAddCore in Hf.
        destruct (coreAddBlock st (CoreContext parent) obj);
          injection Hf as <- <-; simpl; discriminate.
  - apply getCore_None in Hget. split; [|split].
    + split; [congruence|]. intros Hex. now apply Hget in Hex.
    + reflexivity.
    + congruence.
Qed.

(** Promotions append to the confirmed chain, in the order of the branch,
    when the main context accepts the blocks and the DAL answers. *)
Lemma pruneEach_promotes (doCheck : bool) (branch : list Core) :
  (forall st core, coreCurrentResolves st core = true) ->
  (forall st b, mainAddBlock st b doCheck = true) ->
  (forall st core, transfersResolve st core = true) ->
  (forall st core, unforkResolves st core = true) ->
  forall st,
  exists st',
    pruneEach doCheck branch st = (Ok tt, st')
    /\ chain st' = rev (map coreBlock branch) ++ chain st.
Proof.
  intros Hcur Haccept Htransfer Hunfork.
  induction branch as [|core rest IH]; intros st; simpl.
  - exists st. split; reflexivity.
  - unfold fbind at 1. rewrite pruneCore_promotes by auto.
    destruct (IH (mkForkState (splice1 (cores st) (indexOf core (cores st)))
                              (coreBlock core :: chain st) (nextRef st)))
      as (st' & Hrun & Hchain).
    exists st'. split; [exact Hrun|].
    rewrite Hchain. simpl. now rewrite <- app_assoc.
Qed.
End ForkManagerFacts.

Lemma submitBlock_parent_among_cores_witness :
  (basedCoreOf A12 (mkForkState [coreOf 0 A11] [A10] 1) <> None
   <-> exists core, In core (cores (mkForkState [coreOf 0 A11] [A10] 1))
                    /\ forkPointNumber core = number A12 - 1
                    /\ forkPointHash core = previousHash A12)
  /\ (basedCoreOf A12 (mkForkState [coreOf 0 A11] [A10] 1) = None ->
      submitBlock (contexts := permissive) 3 true A12
                  (mkForkState [coreOf 0 A11] [A10] 1)
      = (Err ErrPreviousNotFound, mkForkState [coreOf 0 A11] [A10] 1))
  /\ (basedCoreOf A12 (mkForkState [coreOf 0 A11] [A10] 1) <> None ->
      fst (submitBlock (contexts := permissive) 3 true A12
                       (mkForkState [coreOf 0 A11] [A10] 1))
      <> Err ErrPreviousNotFound).
Proof.
  apply (@submitBlock_parent_among_cores permissive 3 true A12
           (mkForkState [coreOf 0 A11] [A10] 1)).
  simpl. discriminate.
Defined.

(** C4 as stated fails: with the core A11 registered, the block B11 whose
    parent is the confirmed tip A10 has a parent in cores + {tip}, yet the
    submission fails with 'Previous block not found'. *)
Lemma submitBlock_ignores_confirmed_tip :
  cores (mkForkState [coreOf 0 A11] [A10] 1) <> []
  /\ getCurrentBlockOrNull (mkForkState [coreOf 0 A11] [A10] 1) = Some A10
  /\ number A10 = number B11 - 1
  /\ hash A10 = previousHash B11
  /\ basedCoreOf B11 (mkForkState [coreOf 0 A11] [A10] 1) = None
  /\ submitBlock (contexts := permissive) 3 true B11
                 (mkForkState [coreOf 0 A11] [A10] 1)
     = (Err ErrPreviousNotFound, mkForkState [coreOf 0 A11] [A10] 1).
Proof. repeat split. discriminate. Qed.

(** C2 (the code where it leaves the claim). For the highest core [L]
    and a confirmed tip at the same height the distance is [0], which [||]
    takes for a missing value: the branch size comes out as
    [L.forkPointNumber + 1] instead of [0].  So a block at the height of
    the tip (here 10, window 3), submitted unchecked while no core exists,
    becomes the unique highest core with a branch size of 11; eight cores
    are asked for below a branch of one, and the walk down the branch ends
    in a TypeError with the core left behind. *)
Theorem startPruning_at_tip_height :
  (forall highest current,
      forkPointNumber highest = number current ->
      branchSize highest (Some current) = forkPointNumber highest + 1)
  /\ branchSize (sampleCore 0 10 "X10" "A09") (Some A10) = 11
  /\ toPruneCount (sampleCore 0 10 "X10" "A09") (Some A10) 3 = 8
  /\ submitBlock (contexts := permissive) 3 false (sampleBlock 10 "X10" "A09")
                 (mkForkState [] [A10] 0)
     = (Err ErrTypeError, mkForkState [sampleCore 0 10 "X10" "A09"] [A10] 1).
Proof.
  split; [exact branchSize_at_tip_height|]. repeat split.
Qed.

(** C3 (the code where it leaves the claim). A promotion takes out of
    the managed array the promoted core and leaves every other core in
    it, orphans included.  In the windowed scenario (cores A11, B11, A12,
    A13, A14 over the tip A10, window 3) pruning promotes A11 and B11
    stays managed.  In a run of submissions, once A12 is promoted, its
    sibling B12 and the orphan B13 are still managed, although
    [pruneForks] selected B13 (and, below it, A14 of the surviving
    line). *)
Theorem startPruning_keeps_orphans :
  (forall (contexts : Contexts) doCheck core other st,
      0 <= indexOf core (cores st) ->
      In other (cores st) -> same_core other core = false ->
      In other (cores (snd (pruneCore doCheck core st))))
  /\ startPruning (contexts := permissive) (coreOf 4 A14) (Some A10) 3 true
       (mkForkState [coreOf 0 A11; coreOf 1 B11; coreOf 2 A12; coreOf 3 A13;
                     coreOf 4 A14] [A10] 5)
     = (Ok tt, mkForkState [coreOf 1 B11; coreOf 2 A12; coreOf 3 A13; coreOf 4 A14]
                           [A11; A10] 5)
  /\ submitAll (contexts := permissive) 3 true [A11; A12; B12; A13; B13; A14; A15]
       (mkForkState [] [A10] 0)
     = (Ok tt, mkForkState [coreOf 2 B12; coreOf 3 A13; coreOf 4 B13;
                            coreOf 5 A14; coreOf 6 A15]
                           [A12; A11; A10] 7)
  /\ pruneForks (coreOf 1 A12)
       [coreOf 2 B12; coreOf 3 A13; coreOf 4 B13; coreOf 5 A14; coreOf 6 A15]
     = Some [coreOf 4 B13; coreOf 5 A14].
Proof.
  split; [intros contexts doCheck core other st; apply pruneCore_keeps_others|].
  repeat split.
Qed.

(* ===================================================================== *)
(** ** Iterated checking of newcomers *)
(* ===================================================================== *)

Section SubseqFacts.
Variable A : Type.

Lemma subseq_refl (l : list A) : subseq l l.
Proof. induction l; [apply subseq_nil|now apply subseq_keep]. Qed.

Lemma subseq_nil_l (l : list A) : subseq [] l.
Proof. induction l; constructor; auto. Qed.

Lemma subseq_trans (a b c : list A) : subseq a b -> subseq b c -> subseq a c.
Proof.
  intros Hab Hbc. revert a Hab.
  induction Hbc as [|x s l Hsl IH|x s l Hsl IH]; intros a Hab.
  - exact Hab.
  - constructor. now apply IH.
  - inversion Hab; subst.
    + apply subseq_skip. now apply IH.
    + apply subseq_keep. now apply IH.
Qed.

Lemma subseq_incl (s l : list A) : subseq s l -> incl s l.
Proof.
  induction 1 as [|x s l Hsl IH|x s l Hsl IH]; intros y Hy.
  - exact Hy.
  - right. now apply IH.
  - destruct Hy as [->|Hy]; [now left|right; now apply IH].
Qed.
End SubseqFacts.

Section IteratedCheckingFacts.
Variable A : Type.
Variable check : list A -> bool.

Lemma forEachNewcomer_subseq (newcomers : list A) :
  forall passing hadError,
  exists kept,
    fst (forEachNewcomer check newcomers passing hadError) = passing ++ kept
    /\ subseq kept newcomers.
Proof.
  induction newcomers as [|n rest IH]; intros passing hadError; simpl.
  - exists []. rewrite app_nil_r. split; [reflexivity|constructor].
  - destruct (check (passing ++ [n])).
    + destruct (IH (passing ++ [n]) hadError) as (kept & Hk & Hs).
      exists (n :: kept). rewrite Hk, <- app_assoc. split; [reflexivity|].
      now apply subseq_keep.
    + destruct (IH passing true) as (kept & Hk & Hs).
      exists kept. split; [exact Hk|now apply subseq_skip].
Qed.

Lemma forEachNewcomer_hadError (newcomers : list A) :
  forall passing, snd (forEachNewcomer check newcomers passing true) = true.
Proof.
  induction newcomers as [|n rest IH]; intros passing; simpl; [reflexivity|].
  destruct (check (passing ++ [n])); apply IH.
Qed.

(** A pass without a rejection keeps every newcomer. *)
Lemma forEachNewcomer_no_rejection (newcomers : list A) :
  forall passing,
    snd (forEachNewcomer check newcomers passing false) = false ->
    fst (forEachNewcomer check newcomers passing false) = passing ++ newcomers.
Proof.
  induction newcomers as [|n rest IH]; intros passing; simpl.
  - intros _. now rewrite app_nil_r.
  - destruct (check (passing ++ [n])).
    + intros H. rewrite (IH _ H), <- app_assoc. reflexivity.
    + rewrite forEachNewcomer_hadError. discriminate.
Qed.

(** The value of [iteratedChecking] is the input with some newcomers
    left out. *)
Lemma iteratedChecking_subseq (newcomers : list A) :
  subseq (iteratedChecking check newcomers) newcomers.
Proof.
  apply (iteratedChecking_elim check (fun newcomers value => subseq value newcomers)).
  - intros l passing e Hsub _.
    destruct (forEachNewcomer_subseq l [] false) as (kept & Hk & Hs).
    rewrite e in Hk. simpl in Hk. subst kept.
    eapply subseq_trans; eauto.
  - intros l passing e _.
    destruct (forEachNewcomer_subseq l [] false) as (kept & Hk & Hs).
    rewrite e in Hk. simpl in Hk. subst kept. exact Hs.
Qed.

(** The number of newcomers bounds the number of passes: each recursive
    call works on a strictly shorter list. *)
Lemma iteratedChecking_shrinks (newcomers passing : list A) :
  forEachNewcomer check newcomers [] false = (passing, true) ->
  (List.length passing < List.length newcomers)%nat.
Proof.
  intros H. pose proof (forEachNewcomer_rejects check newcomers []) as Hr.
  rewrite H in Hr. simpl in Hr. auto.
Qed.
End IteratedCheckingFacts.

(** Four joiners under a check that fails as soon as J2 and J4 are tried
    together: the first pass turns J4 down when its turn comes, the second
    pass accepts the three others. *)
Example iteratedChecking_four_joiners :
  iteratedChecking
    (fun trial => negb (existsb (String.eqb "J2") trial
                        && existsb (String.eqb "J4") trial))
    ["J1"; "J2"; "J3"; "J4"]
  = ["J1"; "J2"; "J3"].
Proof. reflexivity. Qed.

(* ===================================================================== *)
(** ** Selection of pending transactions *)
(* ===================================================================== *)

Section FindTransactionsFacts.
Context {rules : TxRules}.

Lemma forEachTx_app (before after : list Tx) :
  forall s, forEachTx (before ++ after) s
            = (s' <- forEachTx before s ;; forEachTx after s').
Proof.
  induction before as [|tx rest IH]; intros s; simpl; [reflexivity|].
  destruct (eachTx tx s) as [s'|e]; simpl; [apply IH|reflexivity].
Qed.

(** With a DAL that answers, the loop runs to its end whatever the
    validators say; it only adds transactions of the list to the
    selection, in their order, and only takes transactions out of the
    pool. *)
Lemma forEachTx_runs (txs : list Tx) :
  (forall pool h, removeTxResolves pool h = true) ->
  forall s,
  exists final chosen,
    forEachTx txs s = Ok final
    /\ selected final = selected s ++ chosen
    /\ subseq chosen txs
    /\ incl (pending final) (pending s).
Proof.
  intros Hdal. induction txs as [|tx rest IH]; intros s; simpl.
  - exists s, []. rewrite app_nil_r. repeat split; [constructor|apply incl_refl].
  - unfold eachTx, removeTxByHash. rewrite Hdal.
    destruct (checkBunchOfTransactions (passingTxs s ++ [tx])
              && checkSingleTransaction tx); simpl.
    + destruct (IH (mkTxLoop (selected s ++ [tx]) (passingTxs s ++ [tx]) (pending s)))
        as (final & chosen & Hrun & Hsel & Hsub & Hincl).
      exists final, (tx :: chosen). simpl in *.
      rewrite Hrun, Hsel, <- app_assoc.
      repeat split; [now apply subseq_keep|exact Hincl].
    + destruct (IH (mkTxLoop (selected s) (passingTxs s)
                             (filter (fun t => negb (String.eqb (tx_hash t) (tx_hash tx)))
                                     (pending s))))
        as (final & chosen & Hrun & Hsel & Hsub & Hincl).
      exists final, chosen. simpl in *. rewrite Hrun, Hsel.
      repeat split; [now apply subseq_skip|].
      intros t Ht. apply Hincl in Ht. apply filter_In in Ht. tauto.
Qed.

Lemma removed_hash_absent (pool : list Tx) (h : string) :
  ~ In h (map tx_hash (filter (fun t => negb (String.eqb (tx_hash t) h)) pool)).
Proof.
  intros Hin. apply in_map_iff in Hin. destruct Hin as (t & Hh & Ht).
  apply filter_In in Ht. destruct Ht as [_ Hne].
  rewrite Hh, String.eqb_refl in Hne. discriminate.
Qed.

End FindTransactionsFacts.

Example findTransactions_sample :
  findTransactions (rules := sampleRules)
    [mkTx "T1" "raw1"; mkTx "BAD" "raw2"; mkTx "T3" "raw3"]
  = Ok ([mkTx "T1" "raw1"; mkTx "T3" "raw3"],
        [mkTx "T1" "raw1"; mkTx "T3" "raw3"]).
Proof. reflexivity. Qed.

(* ===================================================================== *)
(** ** Block assembly *)
(* ===================================================================== *)

Lemma dict_delete_all_nil (V : Type) (ks : list string) :
  dict_delete_all ks (@nil (string * V)) = [].
Proof. induction ks as [|k ks IH]; simpl; auto. Qed.

Section BlockAssemblyFacts.
Context {assembly : Assembly}.
Variable conf : Conf.
Variable selfPubkey : string.

Lemma universalDividend_counts (dal : DalView) (current lastUDBlock : option Block)
      (block : Block) :
  membersCount (universalDividend conf dal current lastUDBlock block)
  = membersCount block
  /\ joiners (universalDividend conf dal current lastUDBlock block) = joiners block
  /\ excluded (universalDividend conf dal current lastUDBlock block) = excluded block
  /\ medianTime (universalDividend conf dal current lastUDBlock block)
     = medianTime block.
Proof.
  unfold universalDividend.
  destruct (lastUDTimeOf lastUDBlock (dal_blockZero dal)) as [t|];
    destruct current as [cur|]; try (repeat split; reflexivity).
  destruct (t + dt conf <=? medianTime block); repeat split; reflexivity.
Qed.

(** What a successful [createBlock] returns: the draft with the two
    scheduled values, put through the dividend step. *)
Lemma createBlock_Ok (dal : DalView) (current : option Block)
      (joinData : dict Join) (leaveData : dict Leave)
      (updates : dict (list Certification)) (exclusions : list string)
      (lastUDBlock : option Block) (txs : list Tx) (block : Block) :
  createBlock conf selfPubkey dal current joinData leaveData updates exclusions
              lastUDBlock txs = Ok block ->
  exists powMin medianTime,
    block = universalDividend conf dal current lastUDBlock
              (withMedianTime
                 (withPoWMin
                    (draftBlock conf selfPubkey current joinData leaveData updates
                                exclusions txs) powMin) medianTime).
Proof.
  unfold createBlock. cbv zeta.
  destruct (_ && _); [discriminate|].
  match goal with
  | |- bind ?scheduled _ = _ -> _ => destruct scheduled as [pm|e]
  end; simpl bind; [|discriminate].
  match goal with
  | |- bind ?scheduled _ = _ -> _ => destruct scheduled as [mt|e]
  end; simpl bind; [|discriminate].
  intros H. injection H as <-. eauto.
Qed.

(** C7. A block assembled on top of a parent counts the members of the
    parent, plus the joiners it lists, minus the public keys it
    excludes.  The joiners it lists are the kept entries of [joinData]
    whose identity is not a member already; the excluded keys are the
    exclusions handed in.  Neither [actives] nor [leavers] enters the
    count. *)
Theorem createBlock_membersCount
        (dal : DalView) (parent : Block)
        (joinData : dict Join) (leaveData : dict Leave)
        (updates : dict (list Certification)) (exclusions : list string)
        (lastUDBlock : option Block) (txs : list Tx) (block : Block) :
  createBlock conf selfPubkey dal (Some parent) joinData leaveData updates
              exclusions lastUDBlock txs = Ok block ->
  membersCount block
  = membersCount parent + Z.of_nat (List.length (joiners block))
    - Z.of_nat (List.length (excluded block))
  /\ List.length (joiners block)
     = List.length
         (filter (fun data => negb (member (join_identity data)))
                 (dict_values (keptJoins joinData leaveData exclusions)))
  /\ excluded block = exclusions.
Proof.
  intros H. apply createBlock_Ok in H. destruct H as (pm & mt & ->).
  destruct (universalDividend_counts dal (Some parent) lastUDBlock
              (withMedianTime
                 (withPoWMin
                    (draftBlock conf selfPubkey (Some parent) joinData leaveData
                                updates exclusions txs) pm) mt))
    as (Hc & Hj & He & _).
  rewrite Hc, Hj, He. simpl. rewrite length_map. repeat split; reflexivity.
Qed.

(** C10. Without a current block and with no joiner left after the
    exclusions and the leavers are taken out, [createBlock] throws
    'Wrong new block: cannot make a root block without members', and so
    do [generateEmptyNextBlock], which hands in no joiner at all, and
    [generateNextBlock]. *)
Theorem root_block_needs_members
        (dal : DalView) (joinData : dict Join) (leaveData : dict Leave)
        (updates newCertsFromWoT newCertsFromNewcomers : dict (list Certification))
        (exclusions : list string) (lastUDBlock : option Block) (txs : list Tx) :
  (keptJoins joinData leaveData exclusions = [] ->
   createBlock conf selfPubkey dal None joinData leaveData updates exclusions
               lastUDBlock txs = Err ErrWrongRootBlock)
  /\ (dal_current dal = None ->
      generateEmptyNextBlock conf selfPubkey dal = Err ErrWrongRootBlock)
  /\ (dal_current dal = None ->
      keptJoins joinData leaveData (map pubkey (dal_toBeKicked dal)) = [] ->
      generateNextBlock conf selfPubkey dal newCertsFromWoT joinData leaveData
                        newCertsFromNewcomers txs = Err ErrWrongRootBlock).
Proof.
  assert (Hroot : forall d jd ld up ex ud tx,
             keptJoins jd ld ex = [] ->
             createBlock conf selfPubkey d None jd ld up ex ud tx
             = Err ErrWrongRootBlock).
  { intros d jd ld up ex ud tx Hk. unfold createBlock. rewrite Hk. reflexivity. }
  repeat split.
  - apply Hroot.
  - intros Hcur. unfold generateEmptyNextBlock, prepareNextBlock. rewrite Hcur.
    apply Hroot. unfold keptJoins. now rewrite !dict_delete_all_nil.
  - intros Hcur Hk. unfold generateNextBlock, prepareNextBlock. rewrite Hcur.
    now apply Hroot.
Qed.

End BlockAssemblyFacts.

Example createBlock_sample :
  createBlock (assembly := sampleAssembly) sampleConf "HgTT" sampleDal
              (Some sampleTip)
              [joinOf "J1" false; joinOf "J2" true; joinOf "J3" false]
              [] [] ["K1"] (Some sampleUDBlock) []
  = Ok sampleNextBlock
  /\ membersCount sampleNextBlock = 6
  /\ joiners sampleNextBlock = ["J1"; "J3"]
  /\ actives sampleNextBlock = ["J2"]
  /\ excluded sampleNextBlock = ["K1"]
  /\ dividend sampleNextBlock = Some 25%float.
Proof. repeat split. Qed.

Lemma createBlock_membersCount_witness :
  membersCount sampleNextBlock
  = membersCount sampleTip + Z.of_nat (List.length (joiners sampleNextBlock))
    - Z.of_nat (List.length (excluded sampleNextBlock))
  /\ List.length (joiners sampleNextBlock)
     = List.length
         (filter (fun data => negb (member (join_identity data)))
                 (dict_values
                    (keptJoins [joinOf "J1" false; joinOf "J2" true; joinOf "J3" false]
                               [] ["K1"])))
  /\ excluded sampleNextBlock = ["K1"].
Proof.
  apply (@createBlock_membersCount sampleAssembly sampleConf "HgTT" sampleDal
           sampleTip [joinOf "J1" false; joinOf "J2" true; joinOf "J3" false]
           [] [] ["K1"] (Some sampleUDBlock) [] sampleNextBlock).
  reflexivity.
Defined.

Example root_block_needs_members_sample :
  generateEmptyNextBlock (assembly := sampleAssembly) sampleConf "HgTT"
                         (mkDalView None None [] None)
  = Err ErrWrongRootBlock
  /\ createBlock (assembly := sampleAssembly) sampleConf "HgTT"
                 (mkDalView None None [] None) None
                 [joinOf "J1" false] [("J1", mkLeave (mkIdentity "J1" "J1" true true 0)
                                                       (mkMembership "J1" "J1" 2 "OUT"))]
                 [] [] None []
     = Err ErrWrongRootBlock.
Proof. repeat split. Qed.


(** A last UD block that carries no dividend: [Math.max(undefined, x)]
    is [NaN], and so is the dividend written into the block. *)
Example createBlock_dividend_of_nothing :
  match createBlock (assembly := sampleAssembly) sampleConf "HgTT"
                    (mkDalView (Some sampleTip) (Some sampleTip) [] None)
                    (Some sampleTip) [joinOf "J1" false] [] [] []
                    (Some (withDividend sampleUDBlock None)) [] with
  | Ok block => option_map PrimFloat.is_nan (dividend block)
  | Err _ => None
  end = Some true.
Proof. reflexivity. Qed.

(** JavaScript's rounding shows in the dividend: the number nearest to
    [0.07], times [100], is a little more than [7]. *)
Example Math_ceil_samples :
  Math_ceil (PrimFloat.mul 0x1.1eb851eb851ecp-4%float 100%float) = 8%float
  /\ Math_ceil 2.5%float = 3%float
  /\ Math_ceil 3%float = 3%float
  /\ Math_max 20%float 25%float = 25%float.
Proof. repeat split. Qed.

(* ===================================================================== *)
(** ** The proof-of-work worker *)
(* ===================================================================== *)

Section PoWWorkerFacts.
Variable RELEASE_MEMORY : Z.

(** C8 (amended). With a cancel token pending, the speed measured, a
    [prove] call in flight and the child process alive, a progress
    message that does not call for the release of memory makes the
    handler kill the process, resolve the [prove] call with [null], and
    take exactly one token off [cancels], the first, calling it. *)
Theorem onMessage_cancels
        (m : Message) (w : Worker) (g : Coordinator)
        (pid listener token : nat) (waiting : list nat) (block : Block) :
  speedMesured w = true ->
  cancels g = token :: waiting ->
  powProcess w = Some pid ->
  onPoWFound w = Some listener ->
  msg_found m = false ->
  truthy_count (msg_testsPerRound m) = false ->
  msg_block m = Some block ->
  overMemoryThreshold RELEASE_MEMORY m block = false ->
  onMessage RELEASE_MEMORY m w g
  = Ok (mkWorker true false None (Some listener),
        mkCoordinator waiting NoWorker,
        [KillProcess pid; ResolveProve listener None; CancelConfirm token]).
Proof.
  intros Hspeed Hcancels Hpid Hlistener Hfound Hcalib Hblock Hmem.
  unfold onMessage. cbv zeta. simpl.
  rewrite Hfound, Hcalib, Hblock, Hmem, Hspeed, Hcancels, Hpid, Hlistener.
  reflexivity.
Qed.

(** The release of memory comes first: a progress message whose nonce
    is beyond the threshold restarts the worker, whatever [cancels]
    holds; no [prove] call is resolved and no token is taken. *)
Lemma onMessage_releases_memory_first
      (m : Message) (w : Worker) (g : Coordinator) (pid n : nat) (block : Block) :
  powProcess w = Some pid ->
  msg_found m = false ->
  truthy_count (msg_testsPerRound m) = false ->
  msg_block m = Some block ->
  overMemoryThreshold RELEASE_MEMORY m block = true ->
  exists effects w',
    onMessage RELEASE_MEMORY m w g
    = Ok (w', mkCoordinator (cancels g) FreshWorker, effects)
    /\ speedMesured w' = false
    /\ forall listener b, ~ In (ResolveProve listener b) effects.
Proof.
  intros Hpid Hfound Hcalib Hblock Hmem.
  unfold onMessage. cbv zeta. simpl.
  rewrite Hfound, Hcalib, Hblock, Hmem, Hpid.
  eexists. eexists. split; [reflexivity|]. split; [reflexivity|].
  intros listener b [H|[H|[H|[]]]]; discriminate.
Qed.
End PoWWorkerFacts.

Lemma onMessage_cancels_witness :
  onMessage 10000
    (mkMessage false None (Some 512) (Some (sampleBlock 8 "" "A07")) (Some 4))
    (mkWorker false true (Some 31%nat) (Some 1%nat))
    (mkCoordinator [7%nat] ThisWorker)
  = Ok (mkWorker true false None (Some 1%nat),
        mkCoordinator [] NoWorker,
        [KillProcess 31; ResolveProve 1 None; CancelConfirm 7]).
Proof.
  apply (@onMessage_cancels 10000
           (mkMessage false None (Some 512) (Some (sampleBlock 8 "" "A07")) (Some 4))
           (mkWorker false true (Some 31%nat) (Some 1%nat))
           (mkCoordinator [7%nat] ThisWorker)
           31 1 7 [] (sampleBlock 8 "" "A07")); reflexivity.
Defined.

(** C8 as stated fails: the speed is measured, a token is pending and a
    progress message arrives, but its nonce is more than the threshold
    (here 10000) beyond the nonce of its block; the handler restarts the
    worker, resolves nothing and leaves the token where it is. *)
Lemma onMessage_progress_without_cancel :
  onMessage 10000
    (mkMessage false None (Some 10001) (Some (sampleBlock 8 "" "A07")) (Some 4))
    (mkWorker false true (Some 31%nat) (Some 1%nat))
    (mkCoordinator [7%nat] ThisWorker)
  = Ok (mkWorker false false (Some 31%nat) (Some 1%nat),
        mkCoordinator [7%nat] FreshWorker,
        [KillProcess 31; SpawnWorker;
         SendWork 31 (withNonce (sampleBlock 8 "" "A07") 10001)]).
Proof. reflexivity. Qed.

(* ********************************************************************* *)
(** * Further properties *)
(* ********************************************************************* *)

(* ===================================================================== *)
(** ** Lists *)
(* ===================================================================== *)

Lemma in_firstn (A : Type) (n : nat) (l : list A) (x : A) :
  In x (firstn n l) -> In x l.
Proof.
  intros H. rewrite <- (firstn_skipn n l). apply in_or_app. now left.
Qed.

Lemma in_skipn (A : Type) (n : nat) (l : list A) (x : A) :
  In x (skipn n l) -> In x l.
Proof.
  intros H. rewrite <- (firstn_skipn n l). apply in_or_app. now right.
Qed.

Lemma splice1_incl (cs : list Core) (i : Z) : incl (splice1 cs i) cs.
Proof.
  unfold splice1. intros x Hx. apply in_app_or in Hx. destruct Hx as [Hx|Hx].
  - eapply in_firstn. exact Hx.
  - eapply in_skipn. exact Hx.
Qed.

(* ===================================================================== *)
(** ** Fork manager: what a submission can change *)
(* ===================================================================== *)

Lemma walkBranch_members (cs : list Core) (steps : nat) :
  forall top walked,
    walkBranch cs top steps = Ok walked -> incl walked cs.
Proof.
  induction steps as [|k IH]; intros top walked; simpl.
  - intros H. injection H as <-. intros x [].
  - destruct (us_findWhere _ cs) as [parent|] eqn:Hf; [|discriminate].
    destruct (walkBranch cs parent k) as [above|e] eqn:Hw; simpl; [|discriminate].
    intros H. injection H as <-. intros x [<-|Hx].
    + unfold us_findWhere in Hf. apply find_some in Hf. tauto.
    + eapply IH; eauto.
Qed.

Lemma branchToPrune_members (highest : Core) (cs : list Core)
      (current : option Block) (W : Z) (branch : list Core) :
  branchToPrune highest cs current W = Ok branch ->
  forall core, In core branch -> core = highest \/ In core cs.
Proof.
  unfold branchToPrune. destruct (_ =? 0).
  - intros H. injection H as <-. intros core [].
  - destruct (walkBranch cs highest _) as [walked|e] eqn:Hw; unfold bind; [|discriminate].
    cbv zeta. intros H. injection H as <-. intros core Hc.
    apply in_firstn in Hc.
    apply (us_sortBy_In Z.gtb forkPointNumber core (highest :: walked)) in Hc.
    destruct Hc as [<-|Hc]; [now left|right].
    eapply walkBranch_members; eauto.
Qed.

Section SubmissionFacts.
Context {contexts : Contexts}.

Lemma pruneEach_trace (doCheck : bool) (branch : list Core) :
  forall st,
  exists promoted,
    chain (snd (pruneEach doCheck branch st)) = promoted ++ chain st
    /\ (forall b, In b promoted -> exists core, In core branch /\ b = coreBlock core)
    /\ incl (cores (snd (pruneEach doCheck branch st))) (cores st)
    /\ nextRef (snd (pruneEach doCheck branch st)) = nextRef st.
Proof.
  induction branch as [|core rest IH]; intros st; simpl.
  - exists []. repeat split; [intros b []|apply incl_refl].
  - assert (Hstop : forall st0 : ForkState,
               chain st0 = chain st \/ chain st0 = coreBlock core :: chain st ->
               cores st0 = cores st -> nextRef st0 = nextRef st ->
               exists promoted,
                 chain st0 = promoted ++ chain st
                 /\ (forall b, In b promoted ->
                               exists x, In x (core :: rest) /\ b = coreBlock x)
                 /\ incl (cores st0) (cores st)
                 /\ nextRef st0 = nextRef st).
    { intros st0 [Hc|Hc] Hcs Hn.
      - exists []. rewrite Hc, Hcs. repeat split; auto using incl_refl.
        intros b [].
      - exists [coreBlock core]. rewrite Hc, Hcs. repeat split; auto using incl_refl.
        intros b [<-|[]]. exists core. split; [now left|reflexivity]. }
    unfold fbind at 1 2 3. rewrite pruneCore_cases.
    destruct (coreCurrentResolves st core); [|apply Hstop; auto].
    destruct (mainAddBlock st (coreBlock core) doCheck); [|apply Hstop; auto].
    cbv zeta.
    destruct (transfersResolve _ core); [|apply Hstop; auto].
    destruct (unforkResolves _ core); [|apply Hstop; auto].
    destruct (IH (mkForkState (splice1 (cores st) (indexOf core (cores st)))
                              (coreBlock core :: chain st) (nextRef st)))
      as (promoted & Hchain & Hfrom & Hincl & Hnext).
    exists (promoted ++ [coreBlock core]). simpl in *.
    rewrite Hchain, <- app_assoc. repeat split; auto.
    + intros b Hb. apply in_app_or in Hb. destruct Hb as [Hb|[<-|[]]].
      * destruct (Hfrom b Hb) as (x & Hx & ->). exists x. auto.
      * exists core. auto.
    + intros x Hx. apply Hincl in Hx. now apply splice1_incl in Hx.
Qed.
End SubmissionFacts.

Lemma array_at_In (A : Type) (l : list A) (i : Z) (x : A) :
  array_at l i = Some x -> In x l.
Proof.
  unfold array_at. destruct (i <? 0); [discriminate|]. apply nth_error_In.
Qed.

Section SubmissionTheorems.
Context {contexts : Contexts}.

Lemma shift_trace (W : Z) (doCheck : bool) (st : ForkState) :
  exists promoted,
    chain (snd (shift W doCheck st)) = promoted ++ chain st
    /\ (forall b, In b promoted -> exists core, In core (cores st) /\ b = coreBlock core)
    /\ incl (cores (snd (shift W doCheck st))) (cores st)
    /\ nextRef (snd (shift W doCheck st)) = nextRef st.
Proof.
  assert (Hsame : exists promoted,
             chain st = promoted ++ chain st
             /\ (forall b, In b promoted ->
                           exists core, In core (cores st) /\ b = coreBlock core)
             /\ incl (cores st) (cores st) /\ nextRef st = nextRef st).
  { exists []. repeat split; [intros b []|apply incl_refl]. }
  unfold shift. destruct (_ >? 1); [exact Hsame|].
  destruct (array_at _ 0) as [highest|] eqn:Hat; [|exact Hsame].
  apply array_at_In in Hat. unfold us_filter in Hat. apply filter_In in Hat.
  destruct Hat as [Hhigh _]. unfold startPruning.
  destruct (branchToPrune highest (cores st) (getCurrentBlockOrNull st) W)
    as [branch|e] eqn:Hb; [|exact Hsame].
  destruct (pruneEach_trace doCheck branch st) as (promoted & Hc & Hfrom & Hincl & Hn).
  exists promoted. repeat split; auto.
  intros b Hin. destruct (Hfrom b Hin) as (core & Hcore & ->).
  exists core. split; [|reflexivity].
  destruct (branchToPrune_members _ _ _ _ Hb core Hcore) as [->|Hcs]; auto.
Qed.

(** X1. Whatever a submission does, it only appends to the confirmed
    chain, the appended blocks being the submitted block or blocks of
    cores that were managed, and the cores managed afterwards are cores
    that were managed before or the one core made of the submitted
    block. *)
Theorem submitBlock_only_appends
        (W : Z) (doCheck : bool) (obj : Block) (st : ForkState) :
  exists promoted,
    chain (snd (submitBlock W doCheck obj st)) = promoted ++ chain st
    /\ (forall b, In b promoted ->
                  b = obj \/ exists core, In core (cores st) /\ b = coreBlock core)
    /\ (forall core,
          In core (cores (snd (submitBlock W doCheck obj st))) ->
          In core (cores st)
          \/ core = mkCore (nextRef st) (number obj) (hash obj) (previousHash obj) obj).
Proof.
  assert (Hsame : exists promoted,
             chain st = promoted ++ chain st
             /\ (forall b, In b promoted ->
                           b = obj \/ exists core, In core (cores st) /\ b = coreBlock core)
             /\ (forall core, In core (cores st) ->
                   In core (cores st)
                   \/ core = mkCore (nextRef st) (number obj) (hash obj)
                                    (previousHash obj) obj)).
  { exists []. repeat split; [intros b []|auto]. }
  unfold submitBlock. destruct (basedCoreOf obj st) as [based|]; [|exact Hsame].
  destruct (doCheck && negb (checkBlock st based obj)); [exact Hsame|].
  destruct (_ && (W =? 0)).
  - unfold mainContext_addBlock. destruct (mainAddBlock st obj doCheck); [|exact Hsame].
    exists [obj]. simpl. repeat split; auto. intros b [<-|[]]. now left.
  - unfold fbind, forkAndAddCore. destruct (coreAddBlock st based obj); simpl.
    + set (core0 := mkCore (nextRef st) (number obj) (hash obj) (previousHash obj) obj).
      set (st1 := mkForkState (cores st ++ [core0]) (chain st) (S (nextRef st))).
      destruct (shift_trace W doCheck st1) as (promoted & Hc & Hfrom & Hincl & _).
      exists promoted. split; [exact Hc|]. split.
      * intros b Hb. destruct (Hfrom b Hb) as (core & Hcore & ->).
        simpl in Hcore. apply in_app_or in Hcore.
        destruct Hcore as [Hcore|[<-|[]]]; [right; eauto|now left].
      * intros core Hcore. apply Hincl in Hcore. simpl in Hcore.
        apply in_app_or in Hcore. destruct Hcore as [Hcore|[<-|[]]]; auto.
    + exists []. repeat split; [intros b []|auto].
Qed.

(** X2. While no core exists and the window is 0, a submission goes
    straight to the confirmed chain: no core is ever made; the submission
    succeeds exactly when the block passes the check (if one is asked
    for) and the main context accepts it, and then the block is the new
    tip; otherwise the state is as it was. *)
Theorem submitBlock_window_zero (doCheck : bool) (obj : Block) (st : ForkState) :
  cores st = [] ->
  cores (snd (submitBlock 0 doCheck obj st)) = []
  /\ (fst (submitBlock 0 doCheck obj st) = Ok tt <->
      (doCheck = false \/ checkBlock st MainContext obj = true)
      /\ mainAddBlock st obj doCheck = true)
  /\ (fst (submitBlock 0 doCheck obj st) = Ok tt ->
      snd (submitBlock 0 doCheck obj st)
      = mkForkState [] (obj :: chain st) (nextRef st))
  /\ (fst (submitBlock 0 doCheck obj st) <> Ok tt ->
      snd (submitBlock 0 doCheck obj st) = st).
Proof.
  intros Hnone. unfold submitBlock, basedCoreOf, mainContext_addBlock.
  rewrite Hnone. simpl.
  destruct doCheck; simpl;
    try destruct (checkBlock st MainContext obj); simpl;
    try destruct (mainAddBlock st obj _); simpl; rewrite ?Hnone;
    intuition (try congruence); destruct st; simpl in *; congruence.
Qed.

End SubmissionTheorems.

Lemma submitBlock_window_zero_witness :
  cores (snd (submitBlock (contexts := permissive) 0 true A11 (mkForkState [] [A10] 0)))
  = []
  /\ (fst (submitBlock (contexts := permissive) 0 true A11 (mkForkState [] [A10] 0))
      = Ok tt <->
      (true = false
       \/ checkBlock (Contexts := permissive) (mkForkState [] [A10] 0) MainContext A11
          = true)
      /\ mainAddBlock (Contexts := permissive) (mkForkState [] [A10] 0) A11 true = true)
  /\ (fst (submitBlock (contexts := permissive) 0 true A11 (mkForkState [] [A10] 0))
      = Ok tt ->
      snd (submitBlock (contexts := permissive) 0 true A11 (mkForkState [] [A10] 0))
      = mkForkState [] (A11 :: chain (mkForkState [] [A10] 0))
                    (nextRef (mkForkState [] [A10] 0)))
  /\ (fst (submitBlock (contexts := permissive) 0 true A11 (mkForkState [] [A10] 0))
      <> Ok tt ->
      snd (submitBlock (contexts := permissive) 0 true A11 (mkForkState [] [A10] 0))
      = mkForkState [] [A10] 0).
Proof.
  apply (@submitBlock_window_zero permissive true A11 (mkForkState [] [A10] 0)).
  reflexivity.
Defined.


(** A rejection by the DAL in the middle of a promotion: with a window
    of 3, the submission of A14 on the cores A11, A12, A13 promotes A11;
    when [mainDAL.unfork] rejects, the submission is rejected with the
    block A11 confirmed and its core still managed. *)
Example submitBlock_unfork_rejects :
  submitAll (contexts := unforkRejects) 3 true [A11; A12; A13; A14]
            (mkForkState [] [A10] 0)
  = (Err ErrDal,
     mkForkState [coreOf 0 A11; coreOf 1 A12; coreOf 2 A13; coreOf 3 A14]
                 [A11; A10] 4).
Proof. reflexivity. Qed.

(* ===================================================================== *)
(** ** Fork manager: the cores a pruning promotes *)
(* ===================================================================== *)

Lemma firstn_seq_le (n start len : nat) :
  (n <= len)%nat -> firstn n (seq start len) = seq start n.
Proof.
  revert start len. induction n as [|n IH]; intros start len Hle; [reflexivity|].
  destruct len as [|len]; [lia|]. simpl. f_equal. apply IH. lia.
Qed.

Lemma lineage_snoc (line : list Core) (older younger : Core) :
  lineage (line ++ [older]) -> parentOf older younger ->
  lineage ((line ++ [older]) ++ [younger]).
Proof.
  induction line as [|a line IH]; intros Hl Hp.
  - simpl. auto.
  - destruct line as [|b line].
    + simpl in *. tauto.
    + simpl in Hl. destruct Hl as [Hab Hrest].
      change (lineage (a :: ((b :: line) ++ [older]) ++ [younger])).
      simpl. split; [exact Hab|]. apply (IH Hrest Hp).
Qed.

Lemma lineage_firstn (n : nat) (line : list Core) :
  lineage line -> lineage (firstn n line).
Proof.
  revert line. induction n as [|n IH]; intros line Hl; [exact I|].
  destruct line as [|a line]; [exact I|].
  destruct line as [|b line].
  - destruct n; exact I.
  - destruct Hl as [Hab Hrest]. specialize (IH _ Hrest).
    destruct n as [|n]; [exact I|].
    change (lineage (a :: b :: firstn n line)).
    change (lineage (firstn (S n) (b :: line))) in IH. simpl in IH.
    simpl. split; [exact Hab|exact IH].
Qed.

Lemma lineage_numbers (line : list Core) :
  forall oldest,
    lineage (oldest :: line) ->
    map forkPointNumber (oldest :: line)
    = map (fun j => forkPointNumber oldest + Z.of_nat j)
          (seq 0 (S (List.length line))).
Proof.
  induction line as [|b line IH]; intros a Hl.
  - simpl. f_equal. lia.
  - destruct Hl as [[Hn _] Hrest]. specialize (IH b Hrest).
    change (map forkPointNumber (a :: b :: line))
      with (forkPointNumber a :: map forkPointNumber (b :: line)).
    rewrite IH. simpl List.length.
    change (seq 0 (S (S (List.length line))))
      with (0%nat :: seq 1 (S (List.length line))).
    rewrite <- seq_shift, map_cons, map_map. f_equal; [lia|].
    apply map_ext. intros j. lia.
Qed.

Lemma walkBranch_lineage (cs : list Core) (steps : nat) :
  forall top walked,
    walkBranch cs top steps = Ok walked -> lineage (rev (top :: walked)).
Proof.
  induction steps as [|k IH]; intros top walked; simpl walkBranch.
  - intros H. injection H as <-. exact I.
  - destruct (us_findWhere _ cs) as [parent|] eqn:Hf; [|discriminate].
    destruct (walkBranch cs parent k) as [above|e] eqn:Hw; simpl; [|discriminate].
    intros H. injection H as <-.
    specialize (IH parent above Hw). simpl in IH.
    apply (@lineage_snoc (rev above) parent top IH).
    unfold us_findWhere in Hf. apply find_some in Hf. destruct Hf as [_ Hb].
    apply andb_true_iff in Hb. destruct Hb as [Hn Hh].
    apply Z.eqb_eq in Hn. apply String.eqb_eq in Hh. split; assumption.
Qed.

Lemma walkBranch_below (cs : list Core) (steps : nat) :
  forall top walked,
    walkBranch cs top steps = Ok walked ->
    Forall (fun core => forkPointNumber core < forkPointNumber top) walked.
Proof.
  induction steps as [|k IH]; intros top walked; simpl walkBranch.
  - intros H. injection H as <-. constructor.
  - destruct (us_findWhere _ cs) as [parent|] eqn:Hf; [|discriminate].
    destruct (walkBranch cs parent k) as [above|e] eqn:Hw; simpl; [|discriminate].
    intros H. injection H as <-.
    unfold us_findWhere in Hf. apply find_some in Hf. destruct Hf as [_ Hb].
    apply andb_true_iff in Hb. destruct Hb as [Hn _]. apply Z.eqb_eq in Hn.
    constructor; [lia|].
    specialize (IH parent above Hw).
    eapply Forall_impl; [|exact IH]. simpl. intros core Hc. lia.
Qed.

(** Sorting puts a core that is higher than all the others last. *)
Lemma sort_insert_highest (x : Core) (sorted : list Core) :
  Forall (fun core => forkPointNumber core < forkPointNumber x) sorted ->
  sort_insert Z.gtb forkPointNumber x sorted = sorted ++ [x].
Proof.
  induction 1 as [|y rest Hy Hrest IH]; simpl; [reflexivity|].
  destruct (Z.gtb_spec (forkPointNumber x) (forkPointNumber y)); [|lia].
  now rewrite IH.
Qed.

Lemma walkBranch_sorted (cs : list Core) (steps : nat) :
  forall top walked,
    walkBranch cs top steps = Ok walked ->
    us_sortBy Z.gtb forkPointNumber (top :: walked) = rev (top :: walked).
Proof.
  induction steps as [|k IH]; intros top walked Hw.
  - simpl in Hw. injection Hw as <-. reflexivity.
  - pose proof (walkBranch_below _ _ _ Hw) as Hbelow.
    simpl in Hw. destruct (us_findWhere _ cs) as [parent|]; [|discriminate].
    destruct (walkBranch cs parent k) as [above|e] eqn:Hrec; simpl in Hw;
      [|discriminate].
    injection Hw as <-. specialize (IH parent above Hrec).
    change (us_sortBy Z.gtb forkPointNumber (top :: parent :: above))
      with (sort_insert Z.gtb forkPointNumber top
              (us_sortBy Z.gtb forkPointNumber (parent :: above))).
    rewrite IH. rewrite sort_insert_highest; [reflexivity|].
    apply Forall_rev. exact Hbelow.
Qed.

Lemma last_of_map_snoc (A B : Type) (f : A -> B) (l : list A) (front : list B)
      (x : B) :
  map f l = front ++ [x] -> forall d, f (last l d) = x.
Proof.
  revert front. induction l as [|a l IH]; intros front H d.
  - destruct front; discriminate.
  - destruct l as [|b l].
    + destruct front as [|y front]; simpl in H.
      * now injection H.
      * injection H as _ H. destruct front; discriminate.
    + destruct front as [|y front].
      * discriminate.
      * injection H as _ H. apply (IH front H d).
Qed.

(** X4. When the branch of the highest core overflows a window [W >= 0],
    the cores [startPruning] is going to promote are the [branchSize - W]
    lowest cores of the branch: their heights run upwards, one by one,
    from [L.forkPointNumber - branchSize + 1]; each is the parent of the
    next; each is the highest core or a managed core; and the last of
    them sits exactly [W] below the highest core. *)
Theorem branchToPrune_lowest_cores (highest : Core) (cs : list Core)
        (current : option Block) (W : Z) (branch : list Core) :
  0 <= W -> W < branchSize highest current ->
  branchToPrune highest cs current W = Ok branch ->
  map forkPointNumber branch
  = map (fun j => forkPointNumber highest - branchSize highest current + 1 + Z.of_nat j)
        (seq 0 (Z.to_nat (branchSize highest current - W)))
  /\ lineage branch
  /\ (forall core, In core branch -> core = highest \/ In core cs)
  /\ (forall d, forkPointNumber (last branch d) = forkPointNumber highest - W).
Proof.
  intros HW Hover Hb.
  pose proof (branchToPrune_members _ _ _ _ Hb) as Hmembers.
  unfold branchToPrune, toPruneCount in Hb. rewrite Z.max_r in Hb by lia.
  destruct (Z.eqb_spec (branchSize highest current - W) 0); [lia|].
  destruct (walkBranch cs highest _) as [walked|e] eqn:Hw; unfold bind in Hb;
    [|discriminate].
  cbv zeta in Hb. injection Hb as <-.
  change (sort_insert Z.gtb forkPointNumber highest
            (us_sortBy Z.gtb forkPointNumber walked))
    with (us_sortBy Z.gtb forkPointNumber (highest :: walked)) in *.
  rewrite (walkBranch_sorted _ _ _ Hw) in *.
  pose proof (walkBranch_lineage _ _ _ Hw) as Hline.
  pose proof (walkBranch_length _ _ _ Hw) as Hlen.
  set (size := branchSize highest current) in *.
  set (line := rev (highest :: walked)) in *.
  assert (Hlinelen : List.length line = S (Z.to_nat (size - 1))).
  { unfold line. rewrite length_rev. simpl. now rewrite Hlen. }
  assert (Hnumbers : map forkPointNumber line
                     = map (fun j => forkPointNumber highest - size + 1 + Z.of_nat j)
                           (seq 0 (S (Z.to_nat (size - 1))))).
  { destruct line as [|oldest rest] eqn:Hl; [discriminate|].
    pose proof (lineage_numbers rest oldest Hline) as Hnum.
    simpl in Hlinelen. injection Hlinelen as Hrest. rewrite Hrest in Hnum.
    assert (Hfirst : forkPointNumber oldest = forkPointNumber highest - size + 1).
    { assert (Hsplit : oldest :: rest = rev walked ++ [highest]) by (rewrite <- Hl; reflexivity).
      rewrite Hsplit, map_app, seq_S, map_app in Hnum. simpl in Hnum.
      apply app_inj_tail in Hnum. destruct Hnum as [_ Htop]. lia. }
    rewrite Hnum. apply map_ext. intros j. lia. }
  assert (Hcount : (Z.to_nat (size - W) <= S (Z.to_nat (size - 1)))%nat) by lia.
  assert (Hmap : map forkPointNumber (firstn (Z.to_nat (size - W)) line)
                 = map (fun j => forkPointNumber highest - size + 1 + Z.of_nat j)
                       (seq 0 (Z.to_nat (size - W)))).
  { rewrite <- firstn_map, Hnumbers, firstn_map, firstn_seq_le by exact Hcount.
    reflexivity. }
  repeat split.
  - exact Hmap.
  - apply lineage_firstn. exact Hline.
  - exact Hmembers.
  - intros d.
    assert (Hpos : Z.to_nat (size - W) = S (Z.to_nat (size - W - 1))) by lia.
    rewrite Hpos in Hmap at 2. rewrite seq_S, map_app in Hmap.
    cbn [map Nat.add] in Hmap.
    rewrite (@last_of_map_snoc _ _ forkPointNumber _ _ _ Hmap d). lia.
Qed.

Lemma branchToPrune_lowest_cores_witness :
  map forkPointNumber [coreOf 0 A11]
  = map (fun j => forkPointNumber (coreOf 4 A14)
                  - branchSize (coreOf 4 A14) (Some A10) + 1 + Z.of_nat j)
        (seq 0 (Z.to_nat (branchSize (coreOf 4 A14) (Some A10) - 3)))
  /\ lineage [coreOf 0 A11]
  /\ (forall core,
        In core [coreOf 0 A11] ->
        core = coreOf 4 A14
        \/ In core [coreOf 0 A11; coreOf 1 B11; coreOf 2 A12; coreOf 3 A13; coreOf 4 A14])
  /\ (forall d, forkPointNumber (last [coreOf 0 A11] d) = forkPointNumber (coreOf 4 A14) - 3).
Proof.
  apply (@branchToPrune_lowest_cores (coreOf 4 A14)
           [coreOf 0 A11; coreOf 1 B11; coreOf 2 A12; coreOf 3 A13; coreOf 4 A14]
           (Some A10) 3 [coreOf 0 A11]).
  - lia.
  - reflexivity.
  - reflexivity.
Defined.

(* ===================================================================== *)
(** ** Fork manager: the main fork among the branches *)
(* ===================================================================== *)

(** The elected core is a managed core at the greatest height. *)
Lemma getMainFork_highest (cs : list Core) :
  cs <> [] ->
  exists main,
    getMainFork cs = Some main
    /\ In main cs
    /\ forall core, In core cs -> forkPointNumber core <= forkPointNumber main.
Proof.
  intros Hne. unfold getMainFork.
  destruct (us_max_spec forkPointNumber Hne) as (top & Htop & Hin & Hmax).
  rewrite Htop. simpl option_map.
  set (highest := us_filter (fun core => forkPointNumber core =? forkPointNumber top) cs).
  set (sorted := us_sortBy str_gtb forkPointHash highest).
  assert (Hhigh : forall x, In x highest <->
                            In x cs /\ forkPointNumber x = forkPointNumber top).
  { intros x. unfold highest, us_filter. rewrite filter_In, Z.eqb_eq. tauto. }
  assert (Hsorted : forall x, In x sorted <-> In x highest)
    by (intros x; apply us_sortBy_In).
  assert (Hnonempty : sorted <> []).
  { intros Hnil. assert (Ht : In top sorted) by (apply Hsorted, Hhigh; auto).
    rewrite Hnil in Ht. destruct Ht. }
  rewrite (array_at_last top Hnonempty).
  pose proof (last_In top Hnonempty) as Hlast.
  apply Hsorted, Hhigh in Hlast. destruct Hlast as [Hlin Hlnum].
  exists (last sorted top). repeat split; auto.
  intros core Hc. rewrite Hlnum. now apply Hmax.
Qed.

(** X5. As soon as a core is managed, the context [mainFork] resolves
    with is a core that [branches] lists among the leaves, and no leaf is
    higher: the main fork is always the tip of a branch, never a core
    that another core builds upon. *)
Theorem mainFork_is_a_branch (cs : list Core) :
  cs <> [] ->
  exists main,
    mainFork cs = Some (CoreContext main)
    /\ In main (branches cs)
    /\ forall leaf, In leaf (branches cs) ->
                    forkPointNumber leaf <= forkPointNumber main.
Proof.
  intros Hne.
  destruct (getMainFork_highest Hne) as (main & Hmain & Hin & Hmax).
  exists main. repeat split.
  - unfold mainFork. destruct cs as [|c cs']; [congruence|].
    destruct (Z.eqb_spec (Z.of_nat (List.length (c :: cs'))) 0) as [Hz|_].
    + simpl List.length in Hz. lia.
    + rewrite Hmain. reflexivity.
  - unfold branches. apply filter_In. split; [exact Hin|].
    apply Z.eqb_eq.
    destruct (us_filter _ cs) as [|child others] eqn:Hchildren; [reflexivity|].
    assert (Hc : In child (child :: others)) by (left; reflexivity).
    rewrite <- Hchildren in Hc. unfold us_filter in Hc.
    apply filter_In in Hc. destruct Hc as [Hcin Hb].
    apply andb_true_iff in Hb. destruct Hb as [Hn _]. apply Z.eqb_eq in Hn.
    specialize (Hmax child Hcin). lia.
  - intros leaf Hleaf. unfold branches in Hleaf. apply filter_In in Hleaf.
    apply Hmax. tauto.
Qed.

Lemma mainFork_is_a_branch_witness :
  exists main,
    mainFork [coreOf 0 A11; coreOf 1 B11; coreOf 2 A12] = Some (CoreContext main)
    /\ In main (branches [coreOf 0 A11; coreOf 1 B11; coreOf 2 A12])
    /\ forall leaf, In leaf (branches [coreOf 0 A11; coreOf 1 B11; coreOf 2 A12]) ->
                    forkPointNumber leaf <= forkPointNumber main.
Proof.
  apply (@mainFork_is_a_branch [coreOf 0 A11; coreOf 1 B11; coreOf 2 A12]).
  discriminate.
Defined.

(* ===================================================================== *)
(** ** Iterated checking: what the returned group satisfies *)
(* ===================================================================== *)

Section IteratedCheckingGroups.
Variable A : Type.
Variable check : list A -> bool.

(** One step of the recursion, as an equation. *)
Lemma iteratedChecking_step (newcomers : list A) :
  iteratedChecking check newcomers
  = match forEachNewcomer check newcomers [] false with
    | (passing, true) => iteratedChecking check passing
    | (passing, false) => passing
    end.
Proof.
  apply (iteratedChecking_elim check
           (fun newcomers value =>
              value = match forEachNewcomer check newcomers [] false with
                      | (passing, true) => iteratedChecking check passing
                      | (passing, false) => passing
                      end)).
  - intros l passing e _ _. rewrite e. reflexivity.
  - intros l passing e _. rewrite e. reflexivity.
Qed.

(** A pass over the value of [iteratedChecking] rejects nobody. *)
Lemma iteratedChecking_settled (newcomers : list A) :
  forEachNewcomer check (iteratedChecking check newcomers) [] false
  = (iteratedChecking check newcomers, false).
Proof.
  apply (iteratedChecking_elim check
           (fun _ value => forEachNewcomer check value [] false = (value, false))).
  - intros l passing e IH _. exact IH.
  - intros l passing e _.
    pose proof (forEachNewcomer_no_rejection check l []) as Hall.
    rewrite e in Hall. simpl in Hall. specialize (Hall eq_refl). subst passing.
    exact e.
Qed.

(** A pass keeps everybody exactly when every group it tries passes the
    check: the groups tried are the accumulated ones followed by each
    non-empty prefix of the list. *)
Lemma forEachNewcomer_all_pass (newcomers : list A) :
  forall passing,
    forEachNewcomer check newcomers passing false = (passing ++ newcomers, false)
    <-> (forall k, (0 < k <= List.length newcomers)%nat ->
                   check (passing ++ firstn k newcomers) = true).
Proof.
  induction newcomers as [|n rest IH]; intros passing; simpl.
  - rewrite app_nil_r. split; [intros _ k Hk; lia|reflexivity].
  - destruct (check (passing ++ [n])) eqn:Hn.
    + replace (passing ++ n :: rest) with ((passing ++ [n]) ++ rest)
        by (rewrite <- app_assoc; reflexivity).
      rewrite IH. split.
      * intros H k Hk. destruct k as [|k]; [lia|]. simpl.
        destruct k as [|k]; [simpl; exact Hn|].
        replace (passing ++ n :: firstn (S k) rest)
          with ((passing ++ [n]) ++ firstn (S k) rest)
          by (rewrite <- app_assoc; reflexivity).
        apply H. lia.
      * intros H k Hk. specialize (H (S k)). simpl in H.
        rewrite <- app_assoc. simpl. apply H. lia.
    + split.
      * intros H. pose proof (forEachNewcomer_hadError check rest passing) as He.
        rewrite H in He. discriminate.
      * intros H. specialize (H 1%nat). simpl in H. rewrite Hn in H.
        assert (false = true) by (apply H; lia). discriminate.
Qed.

(** X7. The group [iteratedChecking] resolves with was accepted member
    after member: every non-empty prefix of it passes the check, and so
    the whole group does when it is not empty. *)
Theorem iteratedChecking_prefixes_pass (newcomers : list A) (k : nat) :
  (0 < k <= List.length (iteratedChecking check newcomers))%nat ->
  check (firstn k (iteratedChecking check newcomers)) = true.
Proof.
  intros Hk.
  pose proof (iteratedChecking_settled newcomers) as Hpass.
  pose proof (forEachNewcomer_all_pass (iteratedChecking check newcomers) [])
    as Hall.
  simpl in Hall. apply Hall; assumption.
Qed.

(** X8. [iteratedChecking] hands its input back unchanged exactly when
    every non-empty prefix of the input passes the check; hence a second
    run over its own result changes nothing. *)
Theorem iteratedChecking_unchanged_iff (newcomers : list A) :
  (iteratedChecking check newcomers = newcomers
   <-> forall k, (0 < k <= List.length newcomers)%nat ->
                 check (firstn k newcomers) = true)
  /\ iteratedChecking check (iteratedChecking check newcomers)
     = iteratedChecking check newcomers.
Proof.
  assert (Hiff : forall l,
             iteratedChecking check l = l
             <-> forEachNewcomer check l [] false = (l, false)).
  { intros l. split.
    - intros H. pose proof (iteratedChecking_settled l) as Hs.
      rewrite H in Hs. exact Hs.
    - intros H. rewrite iteratedChecking_step, H. reflexivity. }
  split.
  - rewrite Hiff. exact (forEachNewcomer_all_pass newcomers []).
  - apply Hiff. apply iteratedChecking_settled.
Qed.
End IteratedCheckingGroups.

Section IteratedCheckingFixpoint.
Variable A : Type.
Variable check : list A -> bool.

(** The loop of [iteratedChecking] runs the checking pass of the
    specification. *)
Lemma forEachNewcomer_checkingPass (newcomers : list A) :
  forall passing hadError,
  exists rejected,
    checkingPass check passing newcomers
                 (fst (forEachNewcomer check newcomers passing hadError)) rejected
    /\ snd (forEachNewcomer check newcomers passing hadError)
       = hadError || rejected.
Proof.
  induction newcomers as [|n rest IH]; intros passing hadError; simpl.
  - exists false. split; [apply pass_end|now rewrite orb_false_r].
  - destruct (check (passing ++ [n])) eqn:Hn.
    + destruct (IH (passing ++ [n]) hadError) as (rejected & Hpass & Herr).
      exists rejected. split; [now apply pass_admit|exact Herr].
    + destruct (IH passing true) as (rejected & Hpass & Herr).
      exists true. split; [eapply pass_reject; eassumption|].
      rewrite Herr. now rewrite orb_true_r.
Qed.

(** A checking pass has one outcome. *)
Lemma checkingPass_functional (passing candidates passed : list A) (rejected : bool) :
  checkingPass check passing candidates passed rejected ->
  forall passed' rejected',
    checkingPass check passing candidates passed' rejected' ->
    passed' = passed /\ rejected' = rejected.
Proof.
  induction 1 as [passing|passing n rest passed rejected Hn Hpass IH
                  |passing n rest passed rejected Hn Hpass IH];
    intros passed' rejected' H'; inversion H'; subst; try congruence;
    try (split; reflexivity);
    match goal with
    | Hp : checkingPass _ _ _ _ _ |- _ =>
        solve [destruct (IH _ _ Hp) as [? ?]; subst; split; reflexivity]
    end.
Qed.

Lemma forEachNewcomer_of_checkingPass (newcomers passed : list A) (rejected : bool) :
  checkingPass check [] newcomers passed rejected ->
  forEachNewcomer check newcomers [] false = (passed, rejected).
Proof.
  intros Hpass.
  destruct (forEachNewcomer_checkingPass newcomers [] false) as (r & Hrun & Herr).
  destruct (checkingPass_functional Hrun Hpass) as [-> ->].
  simpl in Herr. rewrite <- Herr. now destruct (forEachNewcomer check newcomers [] false).
Qed.

Lemma iteratedChecking_settles (newcomers : list A) :
  exists passes,
    (1 <= passes <= S (List.length newcomers))%nat
    /\ settles check passes newcomers (iteratedChecking check newcomers).
Proof.
  apply (iteratedChecking_elim check
           (fun newcomers value =>
              exists passes,
                (1 <= passes <= S (List.length newcomers))%nat
                /\ settles check passes newcomers value)).
  - intros l passing e (passes & Hbound & Hsettles) _.
    destruct (forEachNewcomer_checkingPass l [] false) as (r & Hrun & Herr).
    rewrite e in Hrun, Herr. simpl in Hrun, Herr. subst r.
    pose proof (forEachNewcomer_rejects check l []) as Hshrink.
    rewrite e in Hshrink. simpl in Hshrink. specialize (Hshrink eq_refl).
    exists (S passes). split; [lia|].
    now apply (settles_later Hrun).
  - intros l passing e _.
    destruct (forEachNewcomer_checkingPass l [] false) as (r & Hrun & Herr).
    rewrite e in Hrun, Herr. simpl in Hrun, Herr. subst r.
    exists 1%nat. split; [lia|]. now apply settles_now.
Qed.

Lemma settles_functional (passes : nat) (candidates result : list A) :
  settles check passes candidates result ->
  forall passes' result',
    settles check passes' candidates result' ->
    passes' = passes /\ result' = result.
Proof.
  induction 1 as [candidates passed Hpass|passes candidates passed result Hpass Hrest IH];
    intros passes' result' H'; inversion H'; subst;
    match goal with
    | Hp : checkingPass _ _ _ _ _ |- _ =>
        destruct (checkingPass_functional Hpass Hp) as [? ?]; subst
    end; try discriminate.
  - split; reflexivity.
  - match goal with
    | Hs : settles _ _ _ _ |- _ =>
        solve [destruct (IH _ _ Hs) as [? ?]; subst; split; reflexivity]
    end.
Qed.

(** C5. [iteratedChecking] is a total function of the list of newcomers
    and of the check (its recursion is well founded).  Its value is the
    input with some newcomers left out.  One entire checking pass over
    that value rejects nobody: every non-empty prefix of it is accepted
    by the check.  The value is reached as the specification says, by at
    most as many passes as there are newcomers, plus one, each run over
    what passed the one before until a pass rejects nobody, and it is
    the only list so reached.  Whenever a pass over the input rejects
    somebody, what passed is strictly shorter than the input and the
    function recurses on it. *)
Theorem iteratedChecking_fixpoint (newcomers : list A) :
  subseq (iteratedChecking check newcomers) newcomers
  /\ checkingPass check [] (iteratedChecking check newcomers)
                  (iteratedChecking check newcomers) false
  /\ (forall k, (0 < k <= List.length (iteratedChecking check newcomers))%nat ->
                check (firstn k (iteratedChecking check newcomers)) = true)
  /\ (exists passes,
        (1 <= passes <= S (List.length newcomers))%nat
        /\ settles check passes newcomers (iteratedChecking check newcomers))
  /\ (forall passes result,
        settles check passes newcomers result ->
        result = iteratedChecking check newcomers)
  /\ (forall passed,
        checkingPass check [] newcomers passed true ->
        (List.length passed < List.length newcomers)%nat
        /\ iteratedChecking check newcomers = iteratedChecking check passed)
  /\ (forall passed,
        checkingPass check [] newcomers passed false ->
        passed = newcomers /\ iteratedChecking check newcomers = newcomers).
Proof.
  pose proof (iteratedChecking_settled check newcomers) as Hsettled.
  split; [apply iteratedChecking_subseq|]. split; [|split; [|split; [|split; [|split]]]].
  - destruct (forEachNewcomer_checkingPass (iteratedChecking check newcomers) [] false)
      as (r & Hrun & Herr).
    rewrite Hsettled in Hrun, Herr. simpl in Hrun, Herr. now subst r.
  - pose proof (forEachNewcomer_all_pass check (iteratedChecking check newcomers) [])
      as Hall.
    simpl in Hall. now apply Hall.
  - apply iteratedChecking_settles.
  - intros passes result Hs.
    destruct (iteratedChecking_settles newcomers) as (passes0 & _ & Hs0).
    now destruct (settles_functional Hs0 Hs) as [_ ->].
  - intros passed Hpass. apply forEachNewcomer_of_checkingPass in Hpass.
    split.
    + pose proof (forEachNewcomer_rejects check newcomers []) as Hshrink.
      rewrite Hpass in Hshrink. simpl in Hshrink. now apply Hshrink.
    + now rewrite (iteratedChecking_step check newcomers), Hpass.
  - intros passed Hpass. apply forEachNewcomer_of_checkingPass in Hpass.
    pose proof (forEachNewcomer_no_rejection check newcomers []) as Hall.
    rewrite Hpass in Hall. simpl in Hall. specialize (Hall eq_refl). subst passed.
    split; [reflexivity|].
    now rewrite (iteratedChecking_step check newcomers), Hpass.
Qed.
End IteratedCheckingFixpoint.

Lemma iteratedChecking_prefixes_pass_witness :
  (0 < 2 <= List.length
             (iteratedChecking
                (fun trial => negb (existsb (String.eqb "J2") trial
                                    && existsb (String.eqb "J4") trial))
                ["J1"; "J2"; "J3"; "J4"]))%nat
  /\ (fun trial => negb (existsb (String.eqb "J2") trial
                         && existsb (String.eqb "J4") trial))
       (firstn 2
          (iteratedChecking
             (fun trial => negb (existsb (String.eqb "J2") trial
                                 && existsb (String.eqb "J4") trial))
             ["J1"; "J2"; "J3"; "J4"]))
     = true.
Proof.
  assert (Hk : (0 < 2 <= List.length
             (iteratedChecking
                (fun trial => negb (existsb (String.eqb "J2") trial
                                    && existsb (String.eqb "J4") trial))
                ["J1"; "J2"; "J3"; "J4"]))%nat).
  { vm_compute. lia. }
  split; [exact Hk|].
  apply (@iteratedChecking_prefixes_pass string
           (fun trial => negb (existsb (String.eqb "J2") trial
                               && existsb (String.eqb "J4") trial))
           ["J1"; "J2"; "J3"; "J4"] 2%nat Hk).
Defined.

(* ===================================================================== *)
(** ** Selection of pending transactions: what is selected, what is left *)
(* ===================================================================== *)

Section FindTransactionsSelection.
Context {rules : TxRules}.

(** The invariant of the loop, from a state where the two accumulators
    hold the same transactions. *)
Lemma forEachTx_invariant (txs : list Tx) :
  forall s final,
    passingTxs s = selected s ->
    forEachTx txs s = Ok final ->
    exists added,
      selected final = selected s ++ added
      /\ passingTxs final = selected final
      /\ subseq added txs
      /\ Forall (fun tx => checkSingleTransaction tx = true) added
      /\ (forall k, (0 < k <= List.length added)%nat ->
            checkBunchOfTransactions (selected s ++ firstn k added) = true)
      /\ incl (pending final) (pending s)
      /\ (forall tx, In tx txs -> In tx (pending final) -> In tx added).
Proof.
  induction txs as [|tx rest IH]; intros s final Hacc; simpl.
  - intros H. injection H as <-. exists []. rewrite app_nil_r.
    repeat split; auto using incl_refl;
      try (simpl; intros k Hk; lia); try (intros tx []); constructor.
  - unfold eachTx.
    destruct (checkBunchOfTransactions (passingTxs s ++ [tx])) eqn:Hbunch;
      [destruct (checkSingleTransaction tx) eqn:Hsingle|]; simpl.
    + intros Hrun.
      destruct (IH (mkTxLoop (selected s ++ [tx]) (passingTxs s ++ [tx]) (pending s))
                   final) as (added & Hsel & Hpass & Hsub & Hall & Hpre & Hincl & Hleft).
      { simpl. now rewrite Hacc. }
      { exact Hrun. }
      simpl in *. exists (tx :: added). repeat split.
      * rewrite Hsel, <- app_assoc. reflexivity.
      * exact Hpass.
      * now apply subseq_keep.
      * constructor; assumption.
      * intros k Hk. simpl in Hk. destruct k as [|k]; [lia|]. simpl.
        destruct k as [|k].
        { simpl. rewrite <- Hacc. exact Hbunch. }
        replace (selected s ++ tx :: firstn (S k) added)
          with ((selected s ++ [tx]) ++ firstn (S k) added)
          by (rewrite <- app_assoc; reflexivity).
        apply Hpre. lia.
      * exact Hincl.
      * intros x [Hx|Hx] Hin; [left; exact Hx|right; now apply Hleft].
    + unfold removeTxByHash. destruct (removeTxResolves (pending s) (tx_hash tx));
        simpl; [|discriminate].
      intros Hrun.
      destruct (IH _ final (Hacc : passingTxs (mkTxLoop _ _ _) = selected (mkTxLoop _ _ _))
                   Hrun)
        as (added & Hsel & Hpass & Hsub & Hall & Hpre & Hincl & Hleft).
      simpl in *. exists added. repeat split; auto.
      * now apply subseq_skip.
      * intros x Hx. apply Hincl in Hx. apply filter_In in Hx. tauto.
      * intros x [Hx|Hx] Hin; [|now apply Hleft].
        subst x. apply Hincl in Hin. apply filter_In in Hin.
        destruct Hin as [_ Hne]. rewrite String.eqb_refl in Hne. discriminate.
    + unfold removeTxByHash. destruct (removeTxResolves (pending s) (tx_hash tx));
        simpl; [|discriminate].
      intros Hrun.
      destruct (IH _ final (Hacc : passingTxs (mkTxLoop _ _ _) = selected (mkTxLoop _ _ _))
                   Hrun)
        as (added & Hsel & Hpass & Hsub & Hall & Hpre & Hincl & Hleft).
      simpl in *. exists added. repeat split; auto.
      * now apply subseq_skip.
      * intros x Hx. apply Hincl in Hx. apply filter_In in Hx. tauto.
      * intros x [Hx|Hx] Hin; [|now apply Hleft].
        subst x. apply Hincl in Hin. apply filter_In in Hin.
        destruct Hin as [_ Hne]. rewrite String.eqb_refl in Hne. discriminate.
Qed.

Lemma forEachTx_error (txs : list Tx) :
  forall s e, forEachTx txs s = Err e -> e = ErrDal.
Proof.
  induction txs as [|tx rest IH]; intros s e; simpl; [discriminate|].
  unfold eachTx, removeTxByHash.
  destruct (checkBunchOfTransactions (passingTxs s ++ [tx])
            && checkSingleTransaction tx); simpl; [apply IH|].
  destruct (removeTxResolves (pending s) (tx_hash tx)); simpl; [apply IH|].
  congruence.
Qed.

(** X9. When [findTransactions] resolves, the transactions it selected
    are pending transactions in the order of the pool; each one passed
    the global validation alone, and each was accepted by the local
    validation together with all the transactions selected before it;
    the pool was only shrunk, and every transaction still pending
    afterwards is a selected one.  When it rejects, the error is the
    DAL's: a failed validation never aborts the selection. *)
Theorem findTransactions_selection (pool : list Tx) :
  match findTransactions pool with
  | Ok (chosen, remaining) =>
      subseq chosen pool
      /\ Forall (fun tx => checkSingleTransaction tx = true) chosen
      /\ (forall k, (0 < k <= List.length chosen)%nat ->
            checkBunchOfTransactions (firstn k chosen) = true)
      /\ incl remaining pool
      /\ incl remaining chosen
  | Err e => e = ErrDal
  end.
Proof.
  unfold findTransactions.
  destruct (forEachTx pool (mkTxLoop [] [] pool)) as [final|e] eqn:Hrun; simpl.
  - destruct (forEachTx_invariant pool (mkTxLoop [] [] pool) eq_refl Hrun)
      as (added & Hsel & _ & Hsub & Hall & Hpre & Hincl & Hleft).
    simpl in *. subst added. repeat split; auto.
    intros tx Hin. apply Hleft; [apply Hincl|]; exact Hin.
  - apply (forEachTx_error _ _ Hrun).
Qed.
End FindTransactionsSelection.

Section FindTransactionsFailure.
Context {rules : TxRules}.

(** C9 (amended). Let the loop of [findTransactions] reach the pending
    transaction [tx] in the state [reached], and let [tx] fail the local
    validation of the bunch or the global validation of the single
    transaction.  Nothing is pushed for [tx], and the DAL is asked to
    remove it from the pool.  When the removal is rejected, the loop
    stops there and [findTransactions] is rejected with the error of the
    DAL.  When the removal resolves, every transaction with the hash of
    [tx] is out of the pending pool and stays out, the loop goes on with
    the transactions that follow, [findTransactions] ends as that rest
    of the loop does, and what it selects is what was selected before
    and transactions that follow: [tx] is not in the block when the pool
    holds it once.  With a DAL that resolves every removal the loop runs
    to its end. *)
Theorem findTransactions_drops_failing_tx
        (before after : list Tx) (tx : Tx) (reached : TxLoop) :
  forEachTx before (mkTxLoop [] [] (before ++ tx :: after)) = Ok reached ->
  checkBunchOfTransactions (passingTxs reached ++ [tx])
  && checkSingleTransaction tx = false ->
  (removeTxResolves (pending reached) (tx_hash tx) = false ->
   eachTx tx reached = Err ErrDal
   /\ findTransactions (before ++ tx :: after) = Err ErrDal)
  /\ (removeTxResolves (pending reached) (tx_hash tx) = true ->
      exists next,
        eachTx tx reached = Ok next
        /\ selected next = selected reached
        /\ passingTxs next = passingTxs reached
        /\ pending next
           = filter (fun t => negb (String.eqb (tx_hash t) (tx_hash tx)))
                    (pending reached)
        /\ ~ In (tx_hash tx) (map tx_hash (pending next))
        /\ findTransactions (before ++ tx :: after)
           = (final <- forEachTx after next ;; Ok (selected final, pending final))
        /\ (forall final,
              forEachTx after next = Ok final ->
              exists chosen,
                selected final = selected reached ++ chosen
                /\ subseq chosen after
                /\ ~ In (tx_hash tx) (map tx_hash (pending final))
                /\ (NoDup (before ++ tx :: after) -> ~ In tx (selected final)))
        /\ ((forall pool h, removeTxResolves pool h = true) ->
            exists final, forEachTx after next = Ok final)).
Proof.
  intros Hreach Hfail.
  assert (Hfind : findTransactions (before ++ tx :: after)
                  = (final <- (s <- eachTx tx reached ;; forEachTx after s) ;;
                     Ok (selected final, pending final))).
  { unfold findTransactions. rewrite forEachTx_app, Hreach. reflexivity. }
  destruct (forEachTx_invariant before (mkTxLoop [] [] (before ++ tx :: after))
              eq_refl Hreach)
    as (kept & Hkept & Hacc & Hsubkept & _).
  simpl in Hkept.
  split.
  - intros Hrejected.
    assert (Heach : eachTx tx reached = Err ErrDal).
    { unfold eachTx, removeTxByHash. now rewrite Hfail, Hrejected. }
    split; [exact Heach|]. now rewrite Hfind, Heach.
  - intros Hresolved.
    set (next := mkTxLoop (selected reached) (passingTxs reached)
                          (filter (fun t => negb (String.eqb (tx_hash t) (tx_hash tx)))
                                  (pending reached))).
    assert (Heach : eachTx tx reached = Ok next).
    { unfold eachTx, removeTxByHash. now rewrite Hfail, Hresolved. }
    exists next.
    split; [exact Heach|]. split; [reflexivity|]. split; [reflexivity|].
    split; [reflexivity|]. split; [apply removed_hash_absent|].
    split; [now rewrite Hfind, Heach|]. split.
    + intros final Hrun.
      destruct (forEachTx_invariant after next Hacc Hrun)
        as (chosen & Hsel & _ & Hsub & _ & _ & Hincl & _).
      exists chosen. split; [exact Hsel|]. split; [exact Hsub|]. split.
      * intros Hin. apply in_map_iff in Hin. destruct Hin as (t & Hh & Ht).
        apply Hincl in Ht.
        apply (removed_hash_absent (pending reached) (tx_hash tx)).
        apply in_map_iff. exists t. auto.
      * intros Hnodup Hin. apply NoDup_remove_2 in Hnodup.
        apply Hnodup. rewrite Hsel in Hin. simpl in Hin.
        apply in_app_or in Hin. apply in_or_app.
        destruct Hin as [Hin|Hin].
        -- left. rewrite Hkept in Hin. now apply (subseq_incl Hsubkept).
        -- right. now apply (subseq_incl Hsub).
    + intros Hdal. destruct (forEachTx_runs after Hdal next) as (final & _ & Hrun & _).
      exists final. exact Hrun.
Qed.
End FindTransactionsFailure.

Lemma findTransactions_drops_failing_tx_witness :
  (removeTxResolves (TxRules := sampleRules)
     (pending (mkTxLoop [mkTx "T1" "raw1"] [mkTx "T1" "raw1"]
                        [mkTx "T1" "raw1"; mkTx "BAD" "raw2"; mkTx "T3" "raw3"]))
     (tx_hash (mkTx "BAD" "raw2")) = false ->
   eachTx (rules := sampleRules) (mkTx "BAD" "raw2")
          (mkTxLoop [mkTx "T1" "raw1"] [mkTx "T1" "raw1"]
                    [mkTx "T1" "raw1"; mkTx "BAD" "raw2"; mkTx "T3" "raw3"])
   = Err ErrDal
   /\ findTransactions (rules := sampleRules)
        ([mkTx "T1" "raw1"] ++ mkTx "BAD" "raw2" :: [mkTx "T3" "raw3"])
      = Err ErrDal)
  /\ (removeTxResolves (TxRules := sampleRules)
        (pending (mkTxLoop [mkTx "T1" "raw1"] [mkTx "T1" "raw1"]
                           [mkTx "T1" "raw1"; mkTx "BAD" "raw2"; mkTx "T3" "raw3"]))
        (tx_hash (mkTx "BAD" "raw2")) = true ->
      exists next,
        eachTx (rules := sampleRules) (mkTx "BAD" "raw2")
               (mkTxLoop [mkTx "T1" "raw1"] [mkTx "T1" "raw1"]
                         [mkTx "T1" "raw1"; mkTx "BAD" "raw2"; mkTx "T3" "raw3"])
        = Ok next
        /\ selected next = [mkTx "T1" "raw1"]
        /\ passingTxs next = [mkTx "T1" "raw1"]
        /\ pending next
           = filter (fun t => negb (String.eqb (tx_hash t) (tx_hash (mkTx "BAD" "raw2"))))
                    [mkTx "T1" "raw1"; mkTx "BAD" "raw2"; mkTx "T3" "raw3"]
        /\ ~ In (tx_hash (mkTx "BAD" "raw2")) (map tx_hash (pending next))
        /\ findTransactions (rules := sampleRules)
             ([mkTx "T1" "raw1"] ++ mkTx "BAD" "raw2" :: [mkTx "T3" "raw3"])
           = (final <- forEachTx (rules := sampleRules) [mkTx "T3" "raw3"] next ;;
              Ok (selected final, pending final))
        /\ (forall final,
              forEachTx (rules := sampleRules) [mkTx "T3" "raw3"] next = Ok final ->
              exists chosen,
                selected final = [mkTx "T1" "raw1"] ++ chosen
                /\ subseq chosen [mkTx "T3" "raw3"]
                /\ ~ In (tx_hash (mkTx "BAD" "raw2")) (map tx_hash (pending final))
                /\ (NoDup ([mkTx "T1" "raw1"] ++ mkTx "BAD" "raw2" :: [mkTx "T3" "raw3"]) ->
                    ~ In (mkTx "BAD" "raw2") (selected final)))
        /\ ((forall pool h, removeTxResolves (TxRules := sampleRules) pool h = true) ->
            exists final,
              forEachTx (rules := sampleRules) [mkTx "T3" "raw3"] next = Ok final)).
Proof.
  apply (@findTransactions_drops_failing_tx sampleRules
           [mkTx "T1" "raw1"] [mkTx "T3" "raw3"] (mkTx "BAD" "raw2")
           (mkTxLoop [mkTx "T1" "raw1"] [mkTx "T1" "raw1"]
                     [mkTx "T1" "raw1"; mkTx "BAD" "raw2"; mkTx "T3" "raw3"])).
  - reflexivity.
  - reflexivity.
Defined.

(** C9 as stated fails: the transaction BAD fails the global validation
    and the DAL rejects its removal; the transaction stays in the pool,
    the loop does not go on to the transaction T3 that follows, and
    [findTransactions] is rejected with the error of the DAL. *)
Lemma findTransactions_aborts_on_rejected_removal :
  checkSingleTransaction (TxRules := removalRejected) (mkTx "BAD" "raw2") = false
  /\ forEachTx (rules := removalRejected) [mkTx "T1" "raw1"]
               (mkTxLoop [] [] [mkTx "T1" "raw1"; mkTx "BAD" "raw2"; mkTx "T3" "raw3"])
     = Ok (mkTxLoop [mkTx "T1" "raw1"] [mkTx "T1" "raw1"]
                    [mkTx "T1" "raw1"; mkTx "BAD" "raw2"; mkTx "T3" "raw3"])
  /\ eachTx (rules := removalRejected) (mkTx "BAD" "raw2")
            (mkTxLoop [mkTx "T1" "raw1"] [mkTx "T1" "raw1"]
                      [mkTx "T1" "raw1"; mkTx "BAD" "raw2"; mkTx "T3" "raw3"])
     = Err ErrDal
  /\ findTransactions (rules := removalRejected)
       [mkTx "T1" "raw1"; mkTx "BAD" "raw2"; mkTx "T3" "raw3"]
     = Err ErrDal.
Proof. repeat split. Qed.

(** A pool that holds a transaction twice: the second copy fails the
    validation of the bunch and is removed, while the first copy, which
    passed at its turn, stays selected. *)
Example findTransactions_selects_first_copy :
  findTransactions (rules := noRepeatedHash)
                   [mkTx "T1" "raw1"; mkTx "T1" "raw1"; mkTx "T3" "raw3"]
  = Ok ([mkTx "T1" "raw1"; mkTx "T3" "raw3"], [mkTx "T3" "raw3"]).
Proof. reflexivity. Qed.

(* ===================================================================== *)
(** ** Block assembly: who is written into the block *)
(* ===================================================================== *)

Lemma dict_delete_In (V : Type) (k0 : string) (d : dict V) (k : string) (v : V) :
  In (k, v) (dict_delete k0 d) <-> In (k, v) d /\ k <> k0.
Proof.
  unfold dict_delete. rewrite filter_In. simpl.
  destruct (String.eqb_spec k k0); simpl; intuition congruence.
Qed.

Lemma dict_delete_all_In (V : Type) (ks : list string) :
  forall (d : dict V) (k : string) (v : V),
    In (k, v) (dict_delete_all ks d) <-> In (k, v) d /\ ~ In k ks.
Proof.
  induction ks as [|k0 ks IH]; intros d k v; simpl.
  - tauto.
  - unfold dict_delete_all in *. simpl. rewrite IH, dict_delete_In.
    intuition congruence.
Qed.

Lemma dict_keys_In (V : Type) (d : dict V) (k : string) :
  In k (dict_keys d) <-> exists v, In (k, v) d.
Proof.
  unfold dict_keys. rewrite in_map_iff. split.
  - intros ([k' v] & Hk & Hin). simpl in Hk. subst k'. eauto.
  - intros (v & Hin). exists (k, v). auto.
Qed.

Lemma dict_values_In (V : Type) (d : dict V) (v : V) :
  In v (dict_values d) <-> exists k, In (k, v) d.
Proof.
  unfold dict_values. rewrite in_map_iff. split.
  - intros ([k v'] & Hv & Hin). simpl in Hv. subst v'. eauto.
  - intros (k & Hin). exists (k, v). auto.
Qed.

Lemma filter_partition_length (V : Type) (p : V -> bool) (l : list V) :
  (List.length (filter (fun x => negb (p x)) l) + List.length (filter p l)
   = List.length l)%nat.
Proof.
  induction l as [|x l IH]; simpl; [reflexivity|].
  destruct (p x); simpl; lia.
Qed.

Section BlockAssemblyContents.
Context {assembly : Assembly}.
Variable conf : Conf.
Variable selfPubkey : string.

(** The dividend step touches the dividend only. *)
Lemma universalDividend_keeps (dal : DalView) (current lastUDBlock : option Block)
      (block : Block) :
  exists d, universalDividend conf dal current lastUDBlock block
            = withDividend block d.
Proof.
  unfold universalDividend.
  destruct (lastUDTimeOf lastUDBlock (dal_blockZero dal)) as [t|];
    destruct current as [cur|]; try (exists (dividend block); now destruct block).
  destruct (t + dt conf <=? medianTime block);
    [eexists; reflexivity|exists (dividend block); now destruct block].
Qed.

(** A kept join is an entry of [joinData] whose key is neither excluded
    nor the key of a leaver. *)
Lemma keptJoins_In (joinData : dict Join) (leaveData : dict Leave)
      (exclusions : list string) (k : string) (data : Join) :
  In (k, data) (keptJoins joinData leaveData exclusions)
  <-> In (k, data) joinData
      /\ ~ In k exclusions
      /\ ~ In k (dict_keys (dict_delete_all exclusions leaveData)).
Proof.
  unfold keptJoins. rewrite !dict_delete_all_In. tauto.
Qed.

(** X10. [createBlock] never writes an excluded or a leaving member into
    the joins, the renewals or the certifications of the block: every
    line of [joiners] and [actives] renders the membership of an entry
    of [joinData] whose key is neither an exclusion nor a leaver; every
    line of [certifications] renders a certification of such an entry of
    [joinData] or of [updates]; every line of [leavers] is the
    membership of a member of [leaveData] who is not excluded.  Each
    kept join gives exactly one line, in [joiners] or in [actives]. *)
Theorem createBlock_spares_excluded_and_leavers
        (dal : DalView) (current : option Block)
        (joinData : dict Join) (leaveData : dict Leave)
        (updates : dict (list Certification)) (exclusions : list string)
        (lastUDBlock : option Block) (txs : list Tx) (block : Block) :
  createBlock conf selfPubkey dal current joinData leaveData updates exclusions
              lastUDBlock txs = Ok block ->
  (forall line, In line (joiners block ++ actives block) ->
     exists k data,
       In (k, data) joinData
       /\ ~ In k exclusions
       /\ ~ In k (dict_keys (dict_delete_all exclusions leaveData))
       /\ line = inlineMembership (join_ms data))
  /\ (forall line, In line (certifications block) ->
        (exists k data cert,
           In (k, data) joinData
           /\ ~ In k exclusions
           /\ ~ In k (dict_keys (dict_delete_all exclusions leaveData))
           /\ In cert (join_certs data)
           /\ line = inlineCertification cert)
        \/ (exists k certs cert,
              In (k, certs) updates
              /\ ~ In k exclusions
              /\ ~ In k (dict_keys (dict_delete_all exclusions leaveData))
              /\ In cert certs
              /\ line = inlineCertification cert))
  /\ (forall line, In line (leavers block) ->
        exists k data,
          In (k, data) leaveData
          /\ ~ In k exclusions
          /\ member (leave_identity data) = true
          /\ line = inlineMembership (leave_ms data))
  /\ (List.length (joiners block) + List.length (actives block)
      = List.length (keptJoins joinData leaveData exclusions))%nat.
Proof.
  intros H. apply createBlock_Ok in H. destruct H as (pm & mt & ->).
  destruct (universalDividend_keeps dal current lastUDBlock
              (withMedianTime
                 (withPoWMin
                    (draftBlock conf selfPubkey current joinData leaveData updates
                                exclusions txs) pm) mt)) as (d & ->).
  simpl. repeat split.
  - intros line Hin. apply in_app_or in Hin.
    assert (Hdata : exists data,
               In data (dict_values (keptJoins joinData leaveData exclusions))
               /\ line = inlineMembership (join_ms data)).
    { destruct Hin as [Hin|Hin]; apply in_map_iff in Hin;
        destruct Hin as (data & <- & Hf); apply filter_In in Hf;
        exists data; tauto. }
    destruct Hdata as (data & Hv & ->).
    apply dict_values_In in Hv. destruct Hv as (k & Hk).
    apply keptJoins_In in Hk. exists k, data. tauto.
  - intros line Hin. apply in_app_or in Hin. destruct Hin as [Hin|Hin];
      apply in_flat_map in Hin; destruct Hin as (entry & Hentry & Hline);
      apply in_map_iff in Hline; destruct Hline as (cert & <- & Hcert);
      apply dict_values_In in Hentry; destruct Hentry as (k & Hk).
    + left. apply keptJoins_In in Hk. exists k, entry, cert. tauto.
    + right. rewrite !dict_delete_all_In in Hk. exists k, entry, cert. tauto.
  - intros line Hin. apply in_map_iff in Hin. destruct Hin as (data & <- & Hf).
    apply filter_In in Hf. destruct Hf as [Hv Hm].
    apply dict_values_In in Hv. destruct Hv as (k & Hk).
    apply dict_delete_all_In in Hk. exists k, data. tauto.
  - rewrite !length_map.
    rewrite (filter_partition_length (fun data => member (join_identity data))).
    unfold dict_values. apply length_map.
Qed.

(** X11. A root block needs no validator: as soon as one join is kept,
    [createBlock] without a current block succeeds whatever the
    schedule of the difficulty and of the median time would answer, and
    the block has number 0, no previous hash, the parameters of the
    currency, [powMin] 0, the clock minus [rootoffset] as median time,
    no dividend, and counts the joiners it lists minus the exclusions. *)
Theorem createBlock_root_block
        (dal : DalView) (joinData : dict Join) (leaveData : dict Leave)
        (updates : dict (list Certification)) (exclusions : list string)
        (lastUDBlock : option Block) (txs : list Tx) :
  keptJoins joinData leaveData exclusions <> [] ->
  exists block,
    createBlock conf selfPubkey dal None joinData leaveData updates exclusions
                lastUDBlock txs = Ok block
    /\ number block = 0
    /\ previousHash block = ""
    /\ parameters block = parametersLine conf
    /\ powMin block = 0
    /\ medianTime block = utcNow - rootoffset conf
    /\ dividend block = None
    /\ membersCount block
       = Z.of_nat (List.length (joiners block)) - Z.of_nat (List.length exclusions).
Proof.
  intros Hkept. unfold createBlock. cbv zeta.
  destruct (keptJoins joinData leaveData exclusions) as [|kv kept] eqn:Hk;
    [congruence|].
  unfold dict_keys. simpl List.length.
  destruct (Z.eqb_spec (Z.of_nat (S (List.length (map fst kept)))) 0) as [Hz|_];
    [lia|].
  simpl andb. cbv iota.
  change (number (draftBlock conf selfPubkey None joinData leaveData updates
                             exclusions txs)) with 0.
  simpl bind.
  eexists. split; [reflexivity|].
  unfold universalDividend.
  destruct (lastUDTimeOf lastUDBlock (dal_blockZero dal)); simpl;
    repeat split; reflexivity.
Qed.
End BlockAssemblyContents.

Lemma createBlock_spares_excluded_and_leavers_witness :
  (forall line, In line (joiners sampleNextBlock ++ actives sampleNextBlock) ->
     exists k data,
       In (k, data) [joinOf "J1" false; joinOf "J2" true; joinOf "J3" false]
       /\ ~ In k ["K1"]
       /\ ~ In k (dict_keys (dict_delete_all ["K1"] (@nil (string * Leave))))
       /\ line = inlineMembership (Assembly := sampleAssembly) (join_ms data))
  /\ (forall line, In line (certifications sampleNextBlock) ->
        (exists k data cert,
           In (k, data) [joinOf "J1" false; joinOf "J2" true; joinOf "J3" false]
           /\ ~ In k ["K1"]
           /\ ~ In k (dict_keys (dict_delete_all ["K1"] (@nil (string * Leave))))
           /\ In cert (join_certs data)
           /\ line = inlineCertification (Assembly := sampleAssembly) cert)
        \/ (exists k certs cert,
              In (k, certs) (@nil (string * list Certification))
              /\ ~ In k ["K1"]
              /\ ~ In k (dict_keys (dict_delete_all ["K1"] (@nil (string * Leave))))
              /\ In cert certs
              /\ line = inlineCertification (Assembly := sampleAssembly) cert))
  /\ (forall line, In line (leavers sampleNextBlock) ->
        exists k data,
          In (k, data) (@nil (string * Leave))
          /\ ~ In k ["K1"]
          /\ member (leave_identity data) = true
          /\ line = inlineMembership (Assembly := sampleAssembly) (leave_ms data))
  /\ (List.length (joiners sampleNextBlock) + List.length (actives sampleNextBlock)
      = List.length (keptJoins [joinOf "J1" false; joinOf "J2" true; joinOf "J3" false]
                               [] ["K1"]))%nat.
Proof.
  apply (@createBlock_spares_excluded_and_leavers sampleAssembly sampleConf "HgTT"
           sampleDal (Some sampleTip)
           [joinOf "J1" false; joinOf "J2" true; joinOf "J3" false]
           [] [] ["K1"] (Some sampleUDBlock) [] sampleNextBlock).
  reflexivity.
Defined.

Lemma createBlock_root_block_witness :
  exists block,
    createBlock (assembly := sampleAssembly) sampleConf "HgTT"
                (mkDalView None (Some sampleUDBlock) [] None) None
                [joinOf "J1" false] [] [] [] (Some sampleUDBlock) [] = Ok block
    /\ number block = 0
    /\ previousHash block = ""
    /\ parameters block = parametersLine (assembly := sampleAssembly) sampleConf
    /\ powMin block = 0
    /\ medianTime block = utcNow (Assembly := sampleAssembly) - rootoffset sampleConf
    /\ dividend block = None
    /\ membersCount block
       = Z.of_nat (List.length (joiners block)) - Z.of_nat (List.length (@nil string)).
Proof.
  apply (@createBlock_root_block sampleAssembly sampleConf "HgTT"
           (mkDalView None (Some sampleUDBlock) [] None)
           [joinOf "J1" false] [] [] [] (Some sampleUDBlock) []).
  discriminate.
Defined.

(* ===================================================================== *)
(** ** Block assembly: one certification per member and block *)
(* ===================================================================== *)

Lemma existsb_eqb_In (x : string) (l : list string) :
  existsb (String.eqb x) l = true <-> In x l.
Proof.
  rewrite existsb_exists. split.
  - intros (y & Hin & Heq). apply String.eqb_eq in Heq. now subst y.
  - intros Hin. exists x. split; [exact Hin|apply String.eqb_refl].
Qed.

(** What one filtered array of certifications looks like. *)
Lemma filterCerts_spec (certs : list Certification) :
  forall certifiers kept certifiers',
    filterCerts certs certifiers = (kept, certifiers') ->
    certifiers' = certifiers ++ map cert_from kept
    /\ subseq kept certs
    /\ (forall cert, In cert certs -> In (cert_from cert) certifiers').
Proof.
  induction certs as [|cert rest IH]; intros certifiers kept certifiers'; simpl.
  - intros H. injection H as <- <-. rewrite app_nil_r.
    repeat split; [constructor|intros cert []].
  - destruct (existsb (String.eqb (cert_from cert)) certifiers) eqn:Hknown.
    + intros H. destruct (IH _ _ _ H) as (Hc & Hs & Hall).
      repeat split; [exact Hc|now apply subseq_skip|].
      intros x [<-|Hx]; [|now apply Hall].
      apply existsb_eqb_In in Hknown. rewrite Hc. apply in_or_app. now left.
    + destruct (filterCerts rest (certifiers ++ [cert_from cert]))
        as [kept0 certifiers0] eqn:Hrec.
      intros H. injection H as <- <-.
      destruct (IH _ _ _ Hrec) as (Hc & Hs & Hall).
      repeat split.
      * rewrite Hc, <- app_assoc. reflexivity.
      * now apply subseq_keep.
      * intros x [<-|Hx]; [|now apply Hall].
        rewrite Hc. apply in_or_app. left. apply in_or_app. right. now left.
Qed.

Lemma filterCerts_distinct (certs : list Certification) :
  forall certifiers kept certifiers',
    filterCerts certs certifiers = (kept, certifiers') ->
    NoDup (map cert_from kept)
    /\ (forall cert, In cert kept -> ~ In (cert_from cert) certifiers).
Proof.
  induction certs as [|cert rest IH]; intros certifiers kept certifiers'; simpl.
  - intros H. injection H as <- <-. split; [constructor|intros cert []].
  - destruct (existsb (String.eqb (cert_from cert)) certifiers) eqn:Hknown.
    + apply IH.
    + destruct (filterCerts rest (certifiers ++ [cert_from cert]))
        as [kept0 certifiers0] eqn:Hrec.
      intros H. injection H as <- <-.
      destruct (IH _ _ _ Hrec) as (Hnd & Hfresh).
      split.
      * simpl. constructor; [|exact Hnd].
        intros Hin. apply in_map_iff in Hin. destruct Hin as (other & Heq & Hother).
        apply (Hfresh other Hother). rewrite Heq.
        apply in_or_app. right. now left.
      * intros x [<-|Hx].
        -- intros Hin. apply existsb_eqb_In in Hin. congruence.
        -- intros Hin. apply (Hfresh x Hx). apply in_or_app. now left.
Qed.

(** X12. The merge of [generateNextBlock] lets a member certify once in
    a block: among the certifications between members it keeps, no
    issuer appears twice and none is an issuer already counted (the
    certifiers of the newcomers); it keeps the certified members and the
    order of their certifications, only dropping some; and it drops a
    certification only when its issuer is already counted or issues a
    certification that is kept. *)
Theorem filterUpdates_one_certification_per_member
        (newCertsFromWoT : dict (list Certification)) (certifiers : list string) :
  dict_keys (filterUpdates newCertsFromWoT certifiers) = dict_keys newCertsFromWoT
  /\ Forall2 (fun kept given => subseq (snd kept) (snd given))
             (filterUpdates newCertsFromWoT certifiers) newCertsFromWoT
  /\ NoDup (map cert_from
              (flat_map snd (filterUpdates newCertsFromWoT certifiers)))
  /\ (forall cert,
        In cert (flat_map snd (filterUpdates newCertsFromWoT certifiers)) ->
        ~ In (cert_from cert) certifiers)
  /\ (forall cert,
        In cert (flat_map snd newCertsFromWoT) ->
        In (cert_from cert) certifiers
        \/ In (cert_from cert)
              (map cert_from
                 (flat_map snd (filterUpdates newCertsFromWoT certifiers)))).
Proof.
  revert certifiers.
  induction newCertsFromWoT as [|[certified certs] rest IH]; intros certifiers.
  - simpl. split; [reflexivity|]. split; [constructor|].
    split; [constructor|]. split; intros cert [].
  - simpl filterUpdates.
    destruct (filterCerts certs certifiers) as [kept certifiers'] eqn:Hf.
    destruct (filterCerts_spec _ _ Hf) as (Hc & Hsub & Hall).
    destruct (filterCerts_distinct _ _ Hf) as (Hnd & Hfresh).
    destruct (IH certifiers') as (Hkeys & Hsubs & Hnd' & Hfresh' & Hall').
    simpl. repeat split.
    + now rewrite Hkeys.
    + constructor; [exact Hsub|exact Hsubs].
    + rewrite map_app. apply NoDup_app; [exact Hnd|exact Hnd'|].
      intros issuer Hin Hin'. apply in_map_iff in Hin'.
      destruct Hin' as (cert & <- & Hcert).
      apply (Hfresh' cert Hcert). rewrite Hc. apply in_or_app. now right.
    + intros cert Hin. apply in_app_or in Hin. destruct Hin as [Hin|Hin].
      * now apply Hfresh.
      * intros Hc'. apply (Hfresh' cert Hin). rewrite Hc. apply in_or_app. now left.
    + intros cert Hin. rewrite map_app. apply in_app_or in Hin.
      destruct Hin as [Hin|Hin].
      * specialize (Hall cert Hin). rewrite Hc in Hall. apply in_app_or in Hall.
        destruct Hall; [now left|right; apply in_or_app; now left].
      * destruct (Hall' cert Hin) as [Hknown|Hkept].
        -- rewrite Hc in Hknown. apply in_app_or in Hknown.
           destruct Hknown; [now left|right; apply in_or_app; now left].
        -- right. apply in_or_app. now right.
Qed.

(* ===================================================================== *)
(** ** The proof-of-work worker: the discipline of the cancel tokens *)
(* ===================================================================== *)

Section PoWWorkerTokens.
Variable RELEASE_MEMORY : Z.

(** One message either leaves [cancels] alone and confirms nothing, or
    runs the cancellation: kill, resolve with [null], confirm the first
    token. *)
Lemma onMessage_token_step (m : Message) (w w' : Worker) (g g' : Coordinator)
      (effects : list Effect) :
  onMessage RELEASE_MEMORY m w g = Ok (w', g', effects) ->
  (cancels g' = cancels g
   /\ confirmedTokens effects = []
   /\ (forall token, ~ In (CancelConfirm token) effects)
   /\ (forall listener b, In (ResolveProve listener (Some b)) effects ->
                          msg_found m = true /\ msg_block m = Some b))
  \/ (exists token pid listener,
        cancels g = token :: cancels g'
        /\ effects = [KillProcess pid; ResolveProve listener None;
                      CancelConfirm token]
        /\ msg_found m = false
        /\ speedMesured w = true
        /\ w' = mkWorker true false None (Some listener)
        /\ powWorker g' = NoWorker).
Proof.
  assert (Hquiet : forall g0 : Coordinator,
             cancels g0 = cancels g0
             /\ confirmedTokens [] = []
             /\ (forall token, ~ In (CancelConfirm token) [])
             /\ (forall listener b, In (ResolveProve listener (Some b)) [] ->
                                    msg_found m = true /\ msg_block m = Some b)).
  { intros g0. split; [reflexivity|]. split; [reflexivity|].
    split; [intros token Hin; destruct Hin|intros listener b Hin; destruct Hin]. }
  unfold onMessage. cbv zeta. simpl.
  destruct (msg_found m) eqn:Hfound.
  { destruct (onPoWFound w) as [listener|]; [|discriminate].
    intros H. injection H as <- <- <-. left.
    split; [reflexivity|]. split; [reflexivity|]. split.
    - intros token [H|[]]. discriminate.
    - intros listener' b [H|[]]. injection H as _ ->. split; reflexivity. }
  destruct (truthy_count (msg_testsPerRound m)).
  { intros H. injection H as <- <- <-. left. apply Hquiet. }
  destruct (msg_block m) as [block|]; [|discriminate].
  destruct (overMemoryThreshold RELEASE_MEMORY m block).
  { destruct (powProcess w) as [pid|]; [|discriminate].
    intros H. injection H as <- <- <-. left.
    split; [reflexivity|]. split; [reflexivity|]. split.
    - intros token [H|[H|[H|[]]]]; discriminate.
    - intros listener b [H|[H|[H|[]]]]; discriminate. }
  destruct (speedMesured w) eqn:Hspeed; simpl.
  - destruct (Z.of_nat (List.length (cancels g)) =? 0) eqn:Hlen; simpl.
    + intros H. injection H as <- <- <-. left. apply Hquiet.
    + destruct (powProcess w) as [pid|]; [|discriminate].
      destruct (onPoWFound w) as [listener|]; [|discriminate].
      destruct (cancels g) as [|token rest] eqn:Hcancels; [discriminate|].
      intros H. injection H as <- <- <-. right.
      exists token, pid, listener. simpl. auto 10.
  - intros H. injection H as <- <- <-. left. apply Hquiet.
Qed.

(** X13. Over any run of messages the handler deals with, the cancel
    tokens are consumed first in, first out and one confirmation at a
    time: the tokens confirmed, in the order of the calls, followed by
    the tokens still pending, are the tokens that were pending at the
    start.  Each confirmation directly follows the kill of the child
    process and the resolution of the pending proof with [null]; and a
    proof is resolved with a block only upon a message that announces
    that very block as found. *)
Theorem onMessages_confirms_in_order
        (ms : list Message) (w w' : Worker) (g g' : Coordinator)
        (effects : list Effect) :
  onMessages RELEASE_MEMORY ms w g = Ok (w', g', effects) ->
  confirmedTokens effects ++ cancels g' = cancels g
  /\ (forall token, In (CancelConfirm token) effects ->
        exists before pid listener after,
          effects = before ++ [KillProcess pid; ResolveProve listener None;
                               CancelConfirm token] ++ after)
  /\ (forall listener b, In (ResolveProve listener (Some b)) effects ->
        exists m, In m ms /\ msg_found m = true /\ msg_block m = Some b).
Proof.
  revert w g w' g' effects.
  induction ms as [|m rest IH]; intros w g w' g' effects; simpl.
  - intros H. injection H as <- <- <-. simpl.
    split; [reflexivity|].
    split; [intros token Hin; destruct Hin|intros listener b Hin; destruct Hin].
  - destruct (onMessage RELEASE_MEMORY m w g) as [[[w1 g1] effects1]|e] eqn:Hstep;
      [|discriminate].
    destruct (onMessages RELEASE_MEMORY rest w1 g1) as [[[w2 g2] effects2]|e]
      eqn:Hrest; [|discriminate].
    intros H. injection H as <- <- <-.
    destruct (IH _ _ _ _ _ Hrest) as (Hfifo & Hconfirm & Hfound).
    unfold confirmedTokens in *. rewrite flat_map_app.
    destruct (onMessage_token_step _ _ _ Hstep)
      as [(Hsame & Hnone & Hno & Hblock)
         |(token & pid & listener & Hpop & -> & _)].
    + unfold confirmedTokens in Hnone. rewrite Hnone. simpl.
      rewrite Hfifo, Hsame. split; [reflexivity|]. split.
      * intros token Hin. apply in_app_or in Hin.
        destruct Hin as [Hin|Hin]; [destruct (Hno token Hin)|].
        destruct (Hconfirm token Hin) as (before & pid & listener & after & ->).
        exists (effects1 ++ before), pid, listener, after.
        now rewrite <- app_assoc.
      * intros listener b Hin. apply in_app_or in Hin.
        destruct Hin as [Hin|Hin].
        -- exists m. destruct (Hblock listener b Hin). auto.
        -- destruct (Hfound listener b Hin) as (m' & Hm' & Hf).
           exists m'. auto.
    + simpl. rewrite Hfifo, Hpop. split; [reflexivity|]. split.
      * intros token' [H|[H|[H|Hin]]]; try discriminate.
        -- injection H as <-. exists [], pid, listener, effects2. reflexivity.
        -- destruct (Hconfirm token' Hin) as (before & pid' & listener' & after & ->).
           exists ([KillProcess pid; ResolveProve listener None;
                    CancelConfirm token] ++ before), pid', listener', after.
           now rewrite <- app_assoc.
      * intros listener' b [H|[H|[H|Hin]]]; try discriminate.
        destruct (Hfound listener' b Hin) as (m' & Hm' & Hf).
        exists m'. auto.
Qed.
End PoWWorkerTokens.

Lemma onMessages_confirms_in_order_witness :
  confirmedTokens [KillProcess 31; ResolveProve 1 None; CancelConfirm 7]
  ++ cancels (mkCoordinator [9%nat] NoWorker) = cancels (mkCoordinator [7%nat; 9%nat] ThisWorker)
  /\ (forall token,
        In (CancelConfirm token) [KillProcess 31; ResolveProve 1 None; CancelConfirm 7] ->
        exists before pid listener after,
          [KillProcess 31; ResolveProve 1 None; CancelConfirm 7]
          = before ++ [KillProcess pid; ResolveProve listener None;
                       CancelConfirm token] ++ after)
  /\ (forall listener b,
        In (ResolveProve listener (Some b))
           [KillProcess 31; ResolveProve 1 None; CancelConfirm 7] ->
        exists m,
          In m [mkMessage false (Some 50) None None None;
                mkMessage false None (Some 512) (Some (sampleBlock 8 "" "A07")) (Some 4)]
          /\ msg_found m = true /\ msg_block m = Some b).
Proof.
  apply (@onMessages_confirms_in_order 10000
           [mkMessage false (Some 50) None None None;
            mkMessage false None (Some 512) (Some (sampleBlock 8 "" "A07")) (Some 4)]
           (mkWorker true false (Some 31%nat) (Some 1%nat))
           (mkWorker true false None (Some 1%nat))
           (mkCoordinator [7%nat; 9%nat] ThisWorker)
           (mkCoordinator [9%nat] NoWorker)
           [KillProcess 31; ResolveProve 1 None; CancelConfirm 7]).
  reflexivity.
Defined.

(* ===================================================================== *)
(** ** Loading the cores: parents first *)
(* ===================================================================== *)

Lemma sort_insert_ascending (core : Core) (cs : list Core) :
  ascendingCores cs ->
  ascendingCores (sort_insert Z.gtb forkPointNumber core cs).
Proof.
  induction cs as [|y rest IH]; simpl.
  - intros _. split; [constructor|exact I].
  - intros [Hy Hrest].
    destruct (Z.gtb_spec (forkPointNumber core) (forkPointNumber y)) as [Hgt|Hle].
    + simpl. split; [|now apply IH].
      apply Forall_forall. intros z Hz.
      apply (sort_insert_In Z.gtb forkPointNumber) in Hz. destruct Hz as [->|Hz].
      * lia.
      * rewrite Forall_forall in Hy. now apply Hy.
    + simpl. repeat split; auto.
      constructor; [exact Hle|].
      eapply Forall_impl; [|exact Hy]. simpl. intros z Hz. lia.
Qed.

Lemma us_sortBy_ascending (cs : list Core) :
  ascendingCores (us_sortBy Z.gtb forkPointNumber cs).
Proof.
  induction cs as [|core rest IH]; simpl; [exact I|].
  now apply sort_insert_ascending.
Qed.

Lemma ascendingCores_after (before : list Core) (core : Core) (after : list Core) :
  ascendingCores (before ++ core :: after) ->
  Forall (fun later => forkPointNumber core <= forkPointNumber later) after.
Proof.
  induction before as [|b before IH]; simpl.
  - tauto.
  - intros [_ H]. now apply IH.
Qed.

Lemma existsb_Nateqb_In (x : nat) (l : list nat) :
  existsb (Nat.eqb x) l = true <-> In x l.
Proof.
  rewrite existsb_exists. split.
  - intros (y & Hin & Heq). apply Nat.eqb_eq in Heq. now subst y.
  - intros Hin. exists x. split; [exact Hin|apply Nat.eqb_refl].
Qed.

Section GetCoresFacts.
Variable loadCoreResolves : LoadedOn -> Core -> bool.

(** The invariant of the reduce: with the cores sorted and those before
    [todo] loaded, the base of a core is always one of the loaded. *)
Lemma loadCores_parents_first (cs : list Core) :
  ascendingCores cs ->
  forall todo done loaded,
    cs = done ++ todo ->
    (forall core, In core done -> In (coreRef core) loaded) ->
    match loadCores loadCoreResolves cs todo loaded with
    | Err e => e = ErrDal
    | Ok loads =>
        map fst loads = map coreRef todo
        /\ (forall before ref base after,
              loads = before ++ (ref, OnCoreDAL base) :: after ->
              In base loaded \/ In base (map fst before))
        /\ Forall2 (fun load core =>
                      snd load
                      = match getCore cs (forkPointNumber core - 1)
                                      (forkPointPreviousHash core) with
                        | Some based => OnCoreDAL (coreRef based)
                        | None => OnMainDAL
                        end) loads todo
    end.
Proof.
  intros Hsorted. induction todo as [|core rest IH]; intros done loaded Hcs Hloaded.
  - simpl. split; [reflexivity|]. split; [|constructor].
    intros before ref base after H. destruct before; discriminate.
  - simpl loadCores.
    assert (Hnext : match loadCores loadCoreResolves cs rest (loaded ++ [coreRef core]) with
                    | Err e => e = ErrDal
                    | Ok loads =>
                        map fst loads = map coreRef rest
                        /\ (forall before ref base after,
                              loads = before ++ (ref, OnCoreDAL base) :: after ->
                              In base (loaded ++ [coreRef core])
                              \/ In base (map fst before))
                        /\ Forall2 (fun load core =>
                                      snd load
                                      = match getCore cs (forkPointNumber core - 1)
                                                      (forkPointPreviousHash core) with
                                        | Some based => OnCoreDAL (coreRef based)
                                        | None => OnMainDAL
                                        end) loads rest
                    end).
    { apply (IH (done ++ [core])).
      - rewrite <- app_assoc. exact Hcs.
      - intros c Hc. apply in_app_or in Hc. apply in_or_app.
        destruct Hc as [Hc|[<-|[]]]; [left; now apply Hloaded|right; now left]. }
    assert (Hbase : forall based,
               getCore cs (forkPointNumber core - 1) (forkPointPreviousHash core)
               = Some based ->
               existsb (Nat.eqb (coreRef based)) loaded = true).
    { intros based Hfound. apply getCore_Some in Hfound.
      destruct Hfound as (Hin & Hnum & _).
      apply existsb_Nateqb_In. apply Hloaded.
      rewrite Hcs in Hin. apply in_app_or in Hin. destruct Hin as [Hin|Hin];
        [exact Hin|].
      rewrite Hcs in Hsorted. apply ascendingCores_after in Hsorted.
      destruct Hin as [<-|Hin]; [lia|].
      rewrite Forall_forall in Hsorted. specialize (Hsorted based Hin). lia. }
    destruct (getCore cs (forkPointNumber core - 1) (forkPointPreviousHash core))
      as [based|] eqn:Hfound.
    + rewrite (Hbase based eq_refl). simpl bind.
      destruct (loadCoreResolves (OnCoreDAL (coreRef based)) core); [|reflexivity].
      destruct (loadCores loadCoreResolves cs rest (loaded ++ [coreRef core]))
        as [loads|e]; simpl bind; [|exact Hnext].
      destruct Hnext as (Hrefs & Horder & Hbases).
      split; [simpl; now rewrite Hrefs|]. split.
      * intros before ref base after Heq.
        destruct before as [|first before]; simpl in Heq.
        -- injection Heq as _ <- _. left. apply existsb_Nateqb_In.
           apply (Hbase based eq_refl).
        -- injection Heq as <- Heq. apply Horder in Heq.
           destruct Heq as [Heq|Heq].
           ++ apply in_app_or in Heq. destruct Heq as [Heq|[<-|[]]];
                [now left|right; now left].
           ++ right. now right.
      * constructor; [simpl; now rewrite Hfound|exact Hbases].
    + simpl bind.
      destruct (loadCoreResolves OnMainDAL core); [|reflexivity].
      destruct (loadCores loadCoreResolves cs rest (loaded ++ [coreRef core]))
        as [loads|e]; simpl bind; [|exact Hnext].
      destruct Hnext as (Hrefs & Horder & Hbases).
      split; [simpl; now rewrite Hrefs|]. split.
      * intros before ref base after Heq.
        destruct before as [|first before]; simpl in Heq.
        -- discriminate.
        -- injection Heq as <- Heq. apply Horder in Heq.
           destruct Heq as [Heq|Heq].
           ++ apply in_app_or in Heq. destruct Heq as [Heq|[<-|[]]];
                [now left|right; now left].
           ++ right. now right.
      * constructor; [simpl; now rewrite Hfound|exact Hbases].
Qed.

(** X6. [getCores] loads a core after the core it is based upon: the
    cores are handled by ascending fork point number, each is loaded on
    the DAL of the core [getCore] finds as its parent (on the main DAL
    when there is none), and that parent has always been loaded before,
    so that its DAL exists.  [getCores] therefore only fails when the DAL
    fails, and it resolves with the stored cores, sorted. *)
Theorem getCores_loads_parents_first (stored : list Core) :
  match getCores loadCoreResolves stored with
  | Err e => e = ErrDal
  | Ok (cs, loads) =>
      cs = us_sortBy Z.gtb forkPointNumber stored
      /\ ascendingCores cs
      /\ (forall core, In core cs <-> In core stored)
      /\ map fst loads = map coreRef cs
      /\ (forall before ref base after,
            loads = before ++ (ref, OnCoreDAL base) :: after ->
            In base (map fst before))
      /\ Forall2 (fun load core =>
                    snd load
                    = match getCore cs (forkPointNumber core - 1)
                                    (forkPointPreviousHash core) with
                      | Some based => OnCoreDAL (coreRef based)
                      | None => OnMainDAL
                      end) loads cs
  end.
Proof.
  unfold getCores. cbv zeta.
  pose proof (@loadCores_parents_first (us_sortBy Z.gtb forkPointNumber stored)
                (us_sortBy_ascending stored)
                (us_sortBy Z.gtb forkPointNumber stored) [] [] eq_refl) as H.
  destruct (loadCores loadCoreResolves _ _ []) as [loads|e]; simpl bind.
  - destruct H as (Hrefs & Horder & Hbases); [intros core []|].
    split; [reflexivity|]. split; [apply us_sortBy_ascending|].
    split; [intros core; apply us_sortBy_In|]. split; [exact Hrefs|].
    split; [|exact Hbases].
    intros before ref base after Heq.
    destruct (Horder _ _ _ _ Heq) as [[]|Hin]. exact Hin.
  - apply H. intros core [].
Qed.
End GetCoresFacts.

(** Three stored cores, the child first: the parent A11 is loaded on the
    main DAL before A12 is loaded on it. *)
Example getCores_sample :
  getCores (fun _ _ => true) [coreOf 2 A12; coreOf 1 B11; coreOf 0 A11]
  = Ok ([coreOf 1 B11; coreOf 0 A11; coreOf 2 A12],
        [(1%nat, OnMainDAL); (0%nat, OnMainDAL); (2%nat, OnCoreDAL 0)]).
Proof. reflexivity. Qed.

(* ===================================================================== *)
(** ** The constraints of the web of trust on newcomers *)
(* ===================================================================== *)

Lemma forEachSeries_Done (E A : Type) (iterator : A -> outcome E unit) (l : list A) :
  forEachSeries iterator l = Done tt
  <-> forall a, In a l -> iterator a = Done tt.
Proof.
  induction l as [|a rest IH]; simpl.
  - split; [intros _ a []|reflexivity].
  - destruct (iterator a) as [[]|e] eqn:Ha.
    + rewrite IH. split.
      * intros H x [<-|Hx]; [exact Ha|now apply H].
      * intros H x Hx. apply H. now right.
    + split; [discriminate|].
      intros Hall. specialize (Hall a (or_introl eq_refl)). congruence.
Qed.

Lemma forEachSeries_Failed (E A : Type) (iterator : A -> outcome E unit)
      (l : list A) (e : E) :
  forEachSeries iterator l = Failed e ->
  exists passed a rest,
    l = passed ++ a :: rest
    /\ (forall p, In p passed -> iterator p = Done tt)
    /\ iterator a = Failed e.
Proof.
  induction l as [|a rest IH]; simpl; [discriminate|].
  destruct (iterator a) as [[]|e'] eqn:Ha.
  - intros H. destruct (IH H) as (passed & b & rest' & -> & Hpassed & Hb).
    exists (a :: passed), b, rest'. repeat split; auto.
    intros p [<-|Hp]; [exact Ha|now apply Hpassed].
  - intros Hfail. injection Hfail as ->. exists [], a, rest.
    split; [reflexivity|]. split; [intros p []|exact Ha].
Qed.

Section WoTConstraintsFacts.
Context {wot : WoTRules}.

Lemma testNewcomer_Done (block : NextBlock) (ofMembers : list string)
      (newLinks : Links) (newcomer : string) :
  0 < nb_number block ->
  (testNewcomer block ofMembers newLinks newcomer = Done tt
   <-> checkHaveEnoughLinks newcomer newLinks = true
       /\ isOver3Hops block newcomer ofMembers newLinks = Some []).
Proof.
  intros Hpos. unfold testNewcomer.
  destruct (Z.gtb_spec (nb_number block) 0) as [_|Hle]; [|lia].
  destruct (checkHaveEnoughLinks newcomer newLinks).
  - destruct (isOver3Hops block newcomer ofMembers newLinks) as [[|m out]|].
    + simpl. tauto.
    + change (Z.of_nat (List.length (m :: out)) >? 0)
        with (Z.of_nat (S (List.length out)) >? 0).
      destruct (Z.gtb_spec (Z.of_nat (S (List.length out))) 0) as [_|Hle]; [|lia].
      split; [discriminate|]. intros [_ Hout]. discriminate.
    + split; [discriminate|]. intros [_ Hout]. discriminate.
  - split; [discriminate|]. intros [Henough _]. discriminate.
Qed.

Lemma testNewcomer_Failed (block : NextBlock) (ofMembers : list string)
      (newLinks : Links) (newcomer : string) (e : WoTError) :
  testNewcomer block ofMembers newLinks newcomer = Failed e ->
  e = ErrEnoughLinks newcomer \/ e = ErrOver3Hops newcomer
  \/ e = ErrNotRecognized newcomer.
Proof.
  unfold testNewcomer.
  destruct (if nb_number block >? 0 then checkHaveEnoughLinks newcomer newLinks
            else true).
  - destruct (if nb_number block >? 0
              then isOver3Hops block newcomer ofMembers newLinks else Some [])
      as [out|].
    + destruct (Z.of_nat (List.length out) >? 0); [|discriminate].
      intros H. injection H as <-. auto.
    + intros H. injection H as <-. auto.
  - intros H. injection H as <-. auto.
Qed.

Lemma checkWoTConstraints_root (sentries joiners : list string) (newLinks : Links) :
  checkWoTConstraints sentries (mkNextBlock 0 joiners) newLinks = Done tt.
Proof.
  unfold checkWoTConstraints. simpl. apply forEachSeries_Done.
  intros a _. reflexivity.
Qed.

(** X14. [checkWoTConstraints] refuses a negative block number, accepts
    whatever joiners a block number 0 carries without asking the context
    or the validator, and for a positive number succeeds exactly when
    every newcomer (the joiners up to their first colon) has enough links
    and is outdistanced by nobody among the sentries and all the
    newcomers; when it fails, the error is the one of the first newcomer,
    in the order of the joiners, that fails a test. *)
Theorem checkWoTConstraints_outcome
        (sentries : list string) (block : NextBlock) (newLinks : Links) :
  (nb_number block < 0 ->
   checkWoTConstraints sentries block newLinks = Failed ErrNegativeBlockNumber)
  /\ (nb_number block = 0 ->
      checkWoTConstraints sentries block newLinks = Done tt)
  /\ (0 < nb_number block ->
      (checkWoTConstraints sentries block newLinks = Done tt
       <-> forall newcomer,
             In newcomer (map beforeColon (nb_joiners block)) ->
             checkHaveEnoughLinks newcomer newLinks = true
             /\ isOver3Hops block newcomer
                            (sentries ++ map beforeColon (nb_joiners block))
                            newLinks = Some []))
  /\ (forall e,
        0 <= nb_number block ->
        checkWoTConstraints sentries block newLinks = Failed e ->
        exists passed newcomer rest,
          map beforeColon (nb_joiners block) = passed ++ newcomer :: rest
          /\ (forall p, In p passed ->
                testNewcomer block (sentries ++ map beforeColon (nb_joiners block))
                             newLinks p = Done tt)
          /\ (e = ErrEnoughLinks newcomer \/ e = ErrOver3Hops newcomer
              \/ e = ErrNotRecognized newcomer)).
Proof.
  split; [|split; [|split]].
  - intros Hneg. unfold checkWoTConstraints.
    destruct (Z.geb_spec (nb_number block) 0) as [Hge|_]; [lia|reflexivity].
  - intros Hzero. destruct block as [n joiners]. simpl in Hzero. subst n.
    apply checkWoTConstraints_root.
  - intros Hpos. unfold checkWoTConstraints.
    destruct (Z.geb_spec (nb_number block) 0) as [_|Hlt]; [|lia].
    cbv zeta. rewrite forEachSeries_Done.
    split; intros Hall newcomer Hin; apply (testNewcomer_Done _ _ _ _ Hpos);
      now apply Hall.
  - intros e Hnat. unfold checkWoTConstraints.
    destruct (Z.geb_spec (nb_number block) 0) as [_|Hlt]; [|lia].
    cbv zeta. intros Hrun. apply forEachSeries_Failed in Hrun.
    destruct Hrun as (passed & newcomer & rest & Hsplit & Hpassed & Hfail).
    exists passed, newcomer, rest. split; [exact Hsplit|]. split; [exact Hpassed|].
    apply (testNewcomer_Failed _ _ _ _ Hfail).
Qed.

(** X15. For a root block the checking of [findNewcomers] turns nobody
    down: whatever the sentries and the rules of the web of trust, as
    long as [computeNewLinks] answers, [iteratedChecking] hands back all
    the newcomers it was given, in their order. *)
Theorem findNewcomers_root_keeps_all
        (computeNewLinks : Z -> list string -> option Links)
        (sentries newcomers : list string) :
  (forall group, computeNewLinks 0 group <> None) ->
  iteratedChecking (checkWoTForNewcomers computeNewLinks sentries 0) newcomers
  = newcomers.
Proof.
  intros Hlinks.
  assert (Hcheck : forall group,
             checkWoTForNewcomers computeNewLinks sentries 0 group = true).
  { intros group. unfold checkWoTForNewcomers.
    destruct (computeNewLinks 0 group) as [links|] eqn:Hl;
      [|destruct (Hlinks group Hl)].
    now rewrite checkWoTConstraints_root. }
  rewrite iteratedChecking_step.
  pose proof (forEachNewcomer_all_pass
                (checkWoTForNewcomers computeNewLinks sentries 0) newcomers [])
    as Hall.
  simpl in Hall. destruct Hall as [_ Hall]. rewrite Hall; [reflexivity|].
  intros k _. apply Hcheck.
Qed.
End WoTConstraintsFacts.

Lemma findNewcomers_root_keeps_all_witness :
  iteratedChecking
    (checkWoTForNewcomers (wot := strictWoT) (fun _ _ => Some []) ["S1"] 0)
    ["J1"; "J2"; "J3"]
  = ["J1"; "J2"; "J3"].
Proof.
  apply (@findNewcomers_root_keeps_all strictWoT (fun _ _ => Some []) ["S1"]
           ["J1"; "J2"; "J3"]).
  intros group. discriminate.
Defined.

(* ===================================================================== *)
(** ** Statistics over the blocks *)
(* ===================================================================== *)

Lemma last_cons_default (A : Type) (l : list A) :
  forall (x d d' : A), last (x :: l) d = last (x :: l) d'.
Proof.
  induction l as [|y l IH]; intros x d d'; [reflexivity|].
  change (last (y :: l) d = last (y :: l) d'). apply IH.
Qed.

Lemma us_range_nil (start stop : Z) : stop <= start -> us_range start stop = [].
Proof.
  intros Hle. unfold us_range.
  replace (Z.to_nat (stop - start)) with 0%nat by lia. reflexivity.
Qed.

Lemma us_range_cons (start stop : Z) :
  start < stop -> us_range start stop = start :: us_range (start + 1) stop.
Proof.
  intros Hlt. unfold us_range.
  replace (Z.to_nat (stop - start)) with (S (Z.to_nat (stop - (start + 1)))) by lia.
  simpl seq. rewrite <- seq_shift, map_cons, map_map. f_equal; [lia|].
  apply map_ext. intros i. lia.
Qed.

Lemma us_range_app (start middle stop : Z) :
  start <= middle -> middle <= stop ->
  us_range start stop = us_range start middle ++ us_range middle stop.
Proof.
  intros Hsm Hms.
  remember (Z.to_nat (middle - start)) as k eqn:Hk.
  revert start Hsm Hk. induction k as [|k IH]; intros start Hsm Hk.
  - assert (start = middle) by lia. subst start.
    rewrite (@us_range_nil middle middle) by lia. reflexivity.
  - rewrite (@us_range_cons start stop) by lia.
    rewrite (@us_range_cons start middle) by lia.
    simpl. f_equal. apply IH; lia.
Qed.

Lemma us_range_In (start stop i : Z) :
  In i (us_range start stop) <-> start <= i < stop.
Proof.
  unfold us_range. rewrite in_map_iff. split.
  - intros (k & <- & Hk). apply in_seq in Hk. lia.
  - intros Hi. exists (Z.to_nat (i - start)). split; [lia|].
    apply in_seq. lia.
Qed.

Section StatisticsFacts.
Variable getBlockOrNull : Z -> result (option Block).

Lemma parseBlocks_app (statName : StatName) (before after : list Z) :
  forall stat,
    parseBlocks getBlockOrNull statName (before ++ after) stat
    = (parsed <- parseBlocks getBlockOrNull statName before stat ;;
       parseBlocks getBlockOrNull statName after parsed).
Proof.
  induction before as [|n rest IH]; intros stat; simpl; [reflexivity|].
  destruct (getBlockOrNull n) as [[block|]|e]; simpl; auto.
Qed.

Lemma parseBlocks_last (statName : StatName) (numbers : list Z) :
  forall stat parsed,
    parseBlocks getBlockOrNull statName numbers stat = Ok parsed ->
    lastParsedBlock parsed = last numbers (lastParsedBlock stat).
Proof.
  induction numbers as [|n rest IH]; intros stat parsed; simpl.
  - intros H. now injection H as <-.
  - destruct (getBlockOrNull n) as [[block|]|e]; simpl; try discriminate.
    intros H. apply IH in H. simpl in H. rewrite H.
    destruct rest; [reflexivity|apply last_cons_default].
Qed.

Lemma us_range_last (start stop d : Z) :
  start < stop -> last (us_range start stop) d = stop - 1.
Proof.
  intros Hlt.
  rewrite (@us_range_app start (stop - 1) stop) by lia.
  rewrite (@us_range_cons (stop - 1) stop) by lia.
  rewrite (@us_range_nil (stop - 1 + 1) stop) by lia.
  apply last_last.
Qed.

(** What the parsing of existing blocks gives. *)
Lemma parseBlocks_existing (statName : StatName) (chainBlock : Z -> Block)
      (numbers : list Z) :
  forall stat,
    (forall i, In i numbers -> getBlockOrNull i = Ok (Some (chainBlock i))) ->
    parseBlocks getBlockOrNull statName numbers stat
    = Ok (mkStat (blocks stat
                  ++ filter (fun i => countsFor statName (chainBlock i)) numbers)
                 (last numbers (lastParsedBlock stat))).
Proof.
  induction numbers as [|n rest IH]; intros stat Hall; simpl.
  - rewrite app_nil_r. now destruct stat.
  - rewrite (Hall n (or_introl eq_refl)). simpl bind.
    rewrite IH by (intros i Hi; apply Hall; now right). simpl.
    destruct (countsFor statName (chainBlock n)); simpl.
    + rewrite <- app_assoc.
      destruct rest; [reflexivity|].
      f_equal. f_equal. apply last_cons_default.
    + destruct rest; [reflexivity|].
      f_equal. f_equal. apply last_cons_default.
Qed.

(** X17. With every block after the last parsed one up to the current
    one at hand, the statistic [addStatComputing] saves is the old one
    followed by the numbers of those blocks, in ascending order, whose
    tested property is a non-empty array (a non-zero number for the
    dividend); its [lastParsedBlock] is the number of the current block,
    or stays as it was when nothing is left to parse. *)
Theorem computeStat_existing_blocks
        (statName : StatName) (stat : Stat) (current : option Block)
        (chainBlock : Z -> Block) :
  (forall i, lastParsedBlock stat < i <= currentNumber current ->
             getBlockOrNull i = Ok (Some (chainBlock i))) ->
  computeStat getBlockOrNull statName stat current
  = Ok (mkStat
          (blocks stat
           ++ filter (fun i => countsFor statName (chainBlock i))
                     (us_range (lastParsedBlock stat + 1) (currentNumber current + 1)))
          (Z.max (lastParsedBlock stat) (currentNumber current))).
Proof.
  intros Hall. unfold computeStat.
  rewrite (parseBlocks_existing statName chainBlock).
  - f_equal. f_equal.
    destruct (Z.lt_ge_cases (lastParsedBlock stat) (currentNumber current)) as [Hlt|Hge].
    + rewrite us_range_last by lia. lia.
    + rewrite us_range_nil by lia. simpl. lia.
  - intros i Hi. apply us_range_In in Hi. apply Hall. lia.
Qed.

(** X18. Statistics are computed incrementally: computing a statistic
    up to a block and then, on the statistic saved, up to a later (or
    the same) current block gives what computing it directly up to the
    later block gives, failures included.  In particular a second run
    on the same current block changes nothing. *)
Theorem computeStat_incremental
        (statName : StatName) (stat : Stat) (earlier later : option Block) :
  currentNumber earlier <= currentNumber later ->
  (saved <- computeStat getBlockOrNull statName stat earlier ;;
   computeStat getBlockOrNull statName saved later)
  = computeStat getBlockOrNull statName stat later.
Proof.
  intros Hle. unfold computeStat.
  destruct (Z.lt_ge_cases (lastParsedBlock stat) (currentNumber earlier)) as [Hlt|Hge].
  - rewrite (@us_range_app (lastParsedBlock stat + 1) (currentNumber earlier + 1)
                          (currentNumber later + 1)) by lia.
    rewrite parseBlocks_app.
    destruct (parseBlocks getBlockOrNull statName
                (us_range (lastParsedBlock stat + 1) (currentNumber earlier + 1)) stat)
      as [saved|e] eqn:Hfirst; simpl bind; [|reflexivity].
    apply parseBlocks_last in Hfirst.
    rewrite us_range_last in Hfirst by lia.
    rewrite Hfirst. f_equal. f_equal. lia.
  - rewrite (@us_range_nil (lastParsedBlock stat + 1) (currentNumber earlier + 1))
      by lia.
    reflexivity.
Qed.

End StatisticsFacts.

Lemma sampleStore_serves (i : Z) :
  0 <= i <= 3 -> sampleStore i = Ok (Some (sampleChainBlock i)).
Proof.
  intros Hi. unfold sampleStore.
  destruct (Z.leb_spec 0 i); [|lia]. destruct (Z.leb_spec i 3); [|lia].
  reflexivity.
Qed.

Lemma computeStat_existing_blocks_witness :
  computeStat sampleStore StatTx (mkStat [] (-1)) (Some (sampleChainBlock 3))
  = Ok (mkStat
          (blocks (mkStat [] (-1))
           ++ filter (fun i => countsFor StatTx (sampleChainBlock i))
                     (us_range (lastParsedBlock (mkStat [] (-1)) + 1)
                               (currentNumber (Some (sampleChainBlock 3)) + 1)))
          (Z.max (lastParsedBlock (mkStat [] (-1)))
                 (currentNumber (Some (sampleChainBlock 3))))).
Proof.
  apply (@computeStat_existing_blocks sampleStore StatTx (mkStat [] (-1))
           (Some (sampleChainBlock 3)) sampleChainBlock).
  simpl. intros i Hi. apply sampleStore_serves. lia.
Defined.

Lemma computeStat_incremental_witness :
  (saved <- computeStat sampleStore StatTx (mkStat [] (-1))
                        (Some (sampleChainBlock 1)) ;;
   computeStat sampleStore StatTx saved (Some (sampleChainBlock 3)))
  = computeStat sampleStore StatTx (mkStat [] (-1)) (Some (sampleChainBlock 3)).
Proof.
  apply (@computeStat_incremental sampleStore StatTx (mkStat [] (-1))
           (Some (sampleChainBlock 1)) (Some (sampleChainBlock 3))).
  simpl. lia.
Defined.


(** The sample chain: the statistic of the transactions lists block #2,
    and its transaction is what is saved again. *)
Example recomputeTxRecords_sample :
  computeStat sampleStore StatTx (mkStat [] (-1)) (Some (sampleChainBlock 3))
  = Ok (mkStat [2] 3)
  /\ recomputeTxRecords sampleStore (mkStat [2] 3)
     = Ok [(["TX:1:1:1:1:0"], 2, 200)]
  /\ computeStat sampleStore StatTx (mkStat [2] 3) (Some (sampleChainBlock 3))
     = Ok (mkStat [2] 3)
  /\ computeStat sampleStore StatTx (mkStat [] (-1)) (Some (sampleChainBlock 4))
     = Err ErrTypeError.
Proof. repeat split. Qed.

(* ===================================================================== *)
(** ** The certifications gathered for the next block *)
(* ===================================================================== *)

Lemma dict_get_set_same (V : Type) (k : string) (v : V) (d : dict V) :
  dict_get (dict_set k v d) k = Some v.
Proof.
  unfold dict_get. induction d as [|[k' v'] rest IH]; simpl.
  - now rewrite String.eqb_refl.
  - destruct (String.eqb_spec k' k) as [->|Hne]; simpl.
    + now rewrite String.eqb_refl.
    + destruct (String.eqb_spec k' k); [congruence|exact IH].
Qed.

Lemma dict_get_set_other (V : Type) (k k' : string) (v : V) (d : dict V) :
  k' <> k -> dict_get (dict_set k v d) k' = dict_get d k'.
Proof.
  intros Hne. unfold dict_get. induction d as [|[k0 v0] rest IH]; simpl.
  - destruct (String.eqb_spec k k'); [congruence|reflexivity].
  - destruct (String.eqb_spec k0 k) as [->|Hk]; simpl.
    + destruct (String.eqb_spec k k'); [congruence|reflexivity].
    + destruct (String.eqb_spec k0 k'); [reflexivity|exact IH].
Qed.

Lemma dict_set_keys (V : Type) (k : string) (v : V) (d : dict V) :
  dict_keys (dict_set k v d)
  = if existsb (String.eqb k) (dict_keys d) then dict_keys d
    else dict_keys d ++ [k].
Proof.
  unfold dict_keys. induction d as [|[k' v'] rest IH]; simpl; [reflexivity|].
  rewrite (String.eqb_sym k k').
  destruct (String.eqb_spec k' k) as [->|Hne]; simpl; [reflexivity|].
  rewrite IH. destruct (existsb (String.eqb k) (map fst rest)); reflexivity.
Qed.

Lemma dict_set_keys_NoDup (V : Type) (k : string) (v : V) (d : dict V) :
  NoDup (dict_keys d) -> NoDup (dict_keys (dict_set k v d)).
Proof.
  intros Hnd. rewrite dict_set_keys.
  destruct (existsb (String.eqb k) (dict_keys d)) eqn:Hk; [exact Hnd|].
  apply NoDup_app; [exact Hnd|constructor; [intros []|constructor]|].
  intros x Hx [<-|[]]. apply existsb_eqb_In in Hx. congruence.
Qed.

Section NewCertsFacts.
Context {certDal : CertDal}.
Variable conf : Conf.

Lemma eachNewCert_ok (current : option Block) (seen : list Certification)
      (cert : Certification) (s : CertUpdates) :
  certUpdates_ok conf current seen s ->
  certUpdates_ok conf current (seen ++ [cert]) (eachNewCert conf current cert s).
Proof.
  intros (Hkeys & Hsync & Hsound & Hcomplete). unfold eachNewCert.
  destruct (passesWoTChecks conf current cert) eqn:Hpass.
  2:{ split; [exact Hkeys|]. split; [exact Hsync|]. split.
      - intros to kept Hget. destruct (Hsound to kept Hget) as (Hne & Hnd & Hall).
        split; [exact Hne|]. split; [exact Hnd|].
        intros c Hc. destruct (Hall c Hc) as (Htarget & Hin & Hp).
        split; [exact Htarget|]. split; [apply in_or_app; now left|exact Hp].
      - intros c Hc Hp. apply in_app_or in Hc. destruct Hc as [Hc|[<-|[]]].
        + now apply Hcomplete.
        + congruence. }
  cbv zeta.
  remember (cert_to cert) as to eqn:Hto.
  set (old := get_or_empty (cu_updates s) to).
  assert (Hold : get_or_empty (cu_updatesToFrom s) to = map cert_from old).
  { unfold old, get_or_empty. rewrite (Hsync to).
    destruct (dict_get (cu_updates s) to); reflexivity. }
  assert (Holdsound : NoDup (map cert_from old)
                      /\ forall c, In c old ->
                                   cert_to c = to /\ In c seen
                                   /\ passesWoTChecks conf current c = true).
  { unfold old, get_or_empty.
    destruct (dict_get (cu_updates s) to) as [kept|] eqn:Hget.
    - destruct (Hsound to kept Hget) as (_ & Hnd & Hall). auto.
    - split; [constructor|intros c []]. }
  destruct Holdsound as (Holdnd & Holdall).
  unfold get_or_empty at 1. rewrite dict_get_set_same. rewrite Hold.
  destruct (existsb (String.eqb (cert_from cert)) (map cert_from old)) eqn:Hdouble.
  - (* the issuer already certifies [to] *)
    apply existsb_eqb_In in Hdouble.
    assert (Hpresent : dict_get (cu_updates s) to = Some old).
    { unfold old, get_or_empty in *.
      destruct (dict_get (cu_updates s) to); [reflexivity|destruct Hdouble]. }
    unfold certUpdates_ok. cbn [cu_updates cu_updatesToFrom].
    split; [now apply dict_set_keys_NoDup|]. split; [|split].
    + intros k. destruct (String.eqb_spec k to) as [->|Hne].
      * now rewrite !dict_get_set_same.
      * rewrite !dict_get_set_other by exact Hne. apply Hsync.
    + intros k kept. destruct (String.eqb_spec k to) as [->|Hne].
      * rewrite dict_get_set_same. intros Hk. injection Hk as <-.
        destruct (Hsound to old Hpresent) as (Hnonempty & _).
        split; [exact Hnonempty|]. split; [exact Holdnd|].
        intros c Hc. destruct (Holdall c Hc) as (Htarget & Hin & Hp).
        split; [exact Htarget|]. split; [apply in_or_app; now left|exact Hp].
      * rewrite dict_get_set_other by exact Hne. intros Hget.
        destruct (Hsound k kept Hget) as (Hnonempty & Hnd & Hall).
        split; [exact Hnonempty|]. split; [exact Hnd|].
        intros c Hc. destruct (Hall c Hc) as (Htarget & Hin & Hp).
        split; [exact Htarget|]. split; [apply in_or_app; now left|exact Hp].
    + intros c Hc Hp. apply in_app_or in Hc. destruct Hc as [Hc|[<-|[]]].
      * destruct (Hcomplete c Hc Hp) as (kept & Hget & Hin).
        destruct (String.eqb_spec (cert_to c) to) as [Heq|Hne].
        -- rewrite Heq in *. rewrite dict_get_set_same. exists old.
           split; [reflexivity|]. congruence.
        -- rewrite dict_get_set_other by exact Hne. eauto.
      * rewrite <- Hto, dict_get_set_same. eauto.
  - (* a new issuer for [to] *)
    assert (Hfresh : ~ In (cert_from cert) (map cert_from old)).
    { intros Hin. apply existsb_eqb_In in Hin. congruence. }
    unfold get_or_empty. rewrite !dict_get_set_same.
    unfold certUpdates_ok. cbn [cu_updates cu_updatesToFrom].
    split; [now apply dict_set_keys_NoDup, dict_set_keys_NoDup|]. split; [|split].
    + intros k. destruct (String.eqb_spec k to) as [->|Hne].
      * rewrite !dict_get_set_same. simpl. rewrite map_app. reflexivity.
      * rewrite !dict_get_set_other by exact Hne. apply Hsync.
    + intros k kept. destruct (String.eqb_spec k to) as [->|Hne].
      * rewrite dict_get_set_same. intros Hk. injection Hk as <-.
        split; [destruct old; discriminate|]. split.
        -- rewrite map_app. apply NoDup_app; [exact Holdnd| |].
           ++ constructor; [intros []|constructor].
           ++ intros x Hx [<-|[]]. exact (Hfresh Hx).
        -- intros c Hc. apply in_app_or in Hc. destruct Hc as [Hc|[<-|[]]].
           ++ destruct (Holdall c Hc) as (Htarget & Hin & Hp).
              split; [exact Htarget|]. split; [apply in_or_app; now left|exact Hp].
           ++ split; [now rewrite Hto|]. split; [|exact Hpass].
              apply in_or_app. right. now left.
      * rewrite !dict_get_set_other by exact Hne. intros Hget.
        destruct (Hsound k kept Hget) as (Hnonempty & Hnd & Hall).
        split; [exact Hnonempty|]. split; [exact Hnd|].
        intros c Hc. destruct (Hall c Hc) as (Htarget & Hin & Hp).
        split; [exact Htarget|]. split; [apply in_or_app; now left|exact Hp].
    + intros c Hc Hp. apply in_app_or in Hc. destruct Hc as [Hc|[<-|[]]].
      * destruct (Hcomplete c Hc Hp) as (kept & Hget & Hin).
        destruct (String.eqb_spec (cert_to c) to) as [Heq|Hne].
        -- rewrite Heq in *. rewrite dict_get_set_same. eexists.
           split; [reflexivity|]. rewrite map_app. apply in_or_app. left.
           unfold old, get_or_empty. now rewrite Hget.
        -- rewrite !dict_get_set_other by exact Hne. eauto.
      * rewrite <- Hto, dict_get_set_same. eexists. split; [reflexivity|].
        rewrite map_app. apply in_or_app. right. now left.
Qed.

Lemma forEachNewCert_ok (current : option Block) (certs : list Certification) :
  forall seen s,
    certUpdates_ok conf current seen s ->
    certUpdates_ok conf current (seen ++ certs) (forEachNewCert conf current certs s).
Proof.
  induction certs as [|cert rest IH]; intros seen s Hok; simpl.
  - now rewrite app_nil_r.
  - replace (seen ++ cert :: rest) with ((seen ++ [cert]) ++ rest)
      by (rewrite <- app_assoc; reflexivity).
    apply IH. now apply eachNewCert_ok.
Qed.

(** X20. [findNewCertsFromWoT] resolves with updates in which every
    certified key is listed once with at least one certification; the
    certifications listed under a key are new certifications to that
    key that passed the checks, no two of them from the same issuer; and
    every new certification that passes the checks has its issuer among
    those kept for its target.  With a current block the checks are: no
    link from the issuer to the target since [current.medianTime -
    sigDelay], the issuer is a member, the target is a member who is not
    leaving. *)
Theorem findNewCertsFromWoT_vets (current : option Block)
        (certs : list Certification) :
  NoDup (dict_keys (findNewCertsFromWoT conf current certs))
  /\ (forall to kept,
        dict_get (findNewCertsFromWoT conf current certs) to = Some kept ->
        kept <> []
        /\ NoDup (map cert_from kept)
        /\ forall cert, In cert kept ->
                        cert_to cert = to /\ In cert certs
                        /\ passesWoTChecks conf current cert = true)
  /\ (forall cert,
        In cert certs -> passesWoTChecks conf current cert = true ->
        exists kept,
          dict_get (findNewCertsFromWoT conf current certs) (cert_to cert)
          = Some kept
          /\ In (cert_from cert) (map cert_from kept))
  /\ (forall cur cert,
        current = Some cur ->
        (passesWoTChecks conf current cert = true
         <-> existsLinkFromOrAfterDate (cert_from cert) (cert_to cert)
                                       (medianTime cur - sigDelay conf) = Ok false
             /\ isMemberOrError (cert_from cert) = true
             /\ isMembeAndNonLeaverOrError (cert_to cert) = true)).
Proof.
  assert (Hstart : certUpdates_ok conf current [] (mkCertUpdates [] [])).
  { split; [constructor|]. split; [reflexivity|]. split.
    - intros to kept Hget. discriminate.
    - intros cert []. }
  pose proof (@forEachNewCert_ok current certs _ _ Hstart)
    as (Hkeys & _ & Hsound & Hcomplete).
  simpl in Hsound, Hcomplete.
  split; [exact Hkeys|]. split; [exact Hsound|]. split; [exact Hcomplete|].
  intros cur cert ->. unfold passesWoTChecks.
  destruct (existsLinkFromOrAfterDate _ _ _) as [[|]|e];
    destruct (isMemberOrError (cert_from cert));
    destruct (isMembeAndNonLeaverOrError (cert_to cert));
    intuition congruence.
Qed.

(** The certifications kept for a join: what one run of the loop gives,
    from the issuers already kept. *)
Lemma certsFromWoT_spec (current : Block) (certs : list Certification) :
  forall certifiers,
    subseq (certsFromWoT conf current certs certifiers) certs
    /\ NoDup (map cert_from (certsFromWoT conf current certs certifiers))
    /\ (forall cert,
          In cert (certsFromWoT conf current certs certifiers) ->
          vetCert conf current cert = true /\ ~ In (cert_from cert) certifiers)
    /\ (forall cert,
          In cert certs -> vetCert conf current cert = true ->
          In (cert_from cert) certifiers
          \/ In (cert_from cert)
                (map cert_from (certsFromWoT conf current certs certifiers))).
Proof.
  induction certs as [|cert rest IH]; intros certifiers; simpl.
  - split; [constructor|]. split; [constructor|]. split; intros cert [].
  - destruct (vetCert conf current cert) eqn:Hvet; simpl.
    + destruct (existsb (String.eqb (cert_from cert)) certifiers) eqn:Hdouble; simpl.
      * destruct (IH certifiers) as (Hsub & Hnd & Hsound & Hcomplete).
        split; [now apply subseq_skip|]. split; [exact Hnd|].
        split; [exact Hsound|].
        intros c [<-|Hc] Hv; [|now apply Hcomplete].
        left. now apply existsb_eqb_In.
      * destruct (IH (certifiers ++ [cert_from cert]))
          as (Hsub & Hnd & Hsound & Hcomplete).
        split; [now apply subseq_keep|]. split; [|split].
        -- constructor; [|exact Hnd].
           intros Hin. apply in_map_iff in Hin.
           destruct Hin as (other & Heq & Hother).
           destruct (Hsound other Hother) as [_ Hfresh]. apply Hfresh.
           rewrite Heq. apply in_or_app. right. now left.
        -- intros c [<-|Hc].
           ++ split; [exact Hvet|]. intros Hin.
              apply existsb_eqb_In in Hin. congruence.
           ++ destruct (Hsound c Hc) as [Hv Hfresh]. split; [exact Hv|].
              intros Hin. apply Hfresh. apply in_or_app. now left.
        -- intros c [<-|Hc] Hv; [right; now left|].
           destruct (Hcomplete c Hc Hv) as [Hin|Hin]; [|right; now right].
           apply in_app_or in Hin. destruct Hin as [Hin|[<-|[]]];
             [now left|right; now left].
    + destruct (IH certifiers) as (Hsub & Hnd & Hsound & Hcomplete).
      split; [now apply subseq_skip|]. split; [exact Hnd|].
      split; [exact Hsound|].
      intros c [<-|Hc] Hv; [congruence|now apply Hcomplete].
Qed.

Lemma vetCert_true (current : Block) (cert : Certification) :
  vetCert conf current cert = true
  <-> exists basedBlock resCurrent,
        getBlock (cert_block_number cert) = Some basedBlock
        /\ getCurrent = Ok resCurrent
        /\ (forall cur, resCurrent = Some cur ->
                        medianTime cur <= medianTime basedBlock + sigValidity conf)
        /\ existsLinkFromOrAfterDate (cert_from cert) (cert_to cert)
                                     (medianTime current - sigDelay conf) = Ok false
        /\ isMember (cert_from cert) = Ok true.
Proof.
  unfold vetCert. split.
  - destruct (getBlock (cert_block_number cert)) as [basedBlock|]; [|discriminate].
    destruct getCurrent as [resCurrent|e]; [|discriminate].
    destruct resCurrent as [cur|].
    + destruct (Z.gtb_spec (medianTime cur) (medianTime basedBlock + sigValidity conf))
        as [Hold|Hfresh]; [discriminate|].
      destruct (existsLinkFromOrAfterDate _ _ _) as [[|]|e]; try discriminate.
      destruct (isMember (cert_from cert)) as [[|]|e]; try discriminate.
      intros _. exists basedBlock, (Some cur). repeat split; auto.
      intros cur' Hcur. injection Hcur as <-. exact Hfresh.
    + destruct (existsLinkFromOrAfterDate _ _ _) as [[|]|e]; try discriminate.
      destruct (isMember (cert_from cert)) as [[|]|e]; try discriminate.
      intros _. exists basedBlock, None. repeat split; auto. discriminate.
  - intros (basedBlock & resCurrent & -> & -> & Hage & -> & ->).
    destruct resCurrent as [cur|]; [|reflexivity].
    specialize (Hage cur eq_refl).
    destruct (Z.gtb_spec (medianTime cur) (medianTime basedBlock + sigValidity conf));
      [lia|reflexivity].
Qed.

(** X21. On top of a current block, the join [getSinglePreJoinData]
    returns for a known identity carries certifications picked, in their
    order, among those not linked to the target: each is based on a
    block the DAL has, is not older than [sigValidity] for the current
    block of the DAL, repeats no link written since [current.medianTime
    - sigDelay] and comes from a member; no issuer is kept twice; and
    every certification that meets these conditions has its issuer
    among the kept ones. *)
Theorem getSinglePreJoinData_vets (current : Block) (identity : Identity)
        (certs : list Certification) (joiners : option (list string)) :
  exists kept,
    getSinglePreJoinData conf (Some current) (Some identity) certs joiners
    = Ok (Some (identity, kept))
    /\ subseq kept certs
    /\ NoDup (map cert_from kept)
    /\ (forall cert, In cert kept ->
          exists basedBlock resCurrent,
            getBlock (cert_block_number cert) = Some basedBlock
            /\ getCurrent = Ok resCurrent
            /\ (forall cur, resCurrent = Some cur ->
                  medianTime cur <= medianTime basedBlock + sigValidity conf)
            /\ existsLinkFromOrAfterDate (cert_from cert) (cert_to cert)
                 (medianTime current - sigDelay conf) = Ok false
            /\ isMember (cert_from cert) = Ok true)
    /\ (forall cert, In cert certs -> vetCert conf current cert = true ->
          In (cert_from cert) (map cert_from kept)).
Proof.
  exists (certsFromWoT conf current certs []).
  destruct (certsFromWoT_spec current certs []) as (Hsub & Hnd & Hsound & Hcomplete).
  split; [reflexivity|]. split; [exact Hsub|]. split; [exact Hnd|]. split.
  - intros cert Hin. apply vetCert_true. now apply Hsound.
  - intros cert Hin Hvet. destruct (Hcomplete cert Hin Hvet) as [[]|H]. exact H.
Qed.
End NewCertsFacts.

(* ===================================================================== *)
(** ** Fork manager: a line of blocks slides through the window *)
(* ===================================================================== *)










Section WindowFacts.
Context {contexts : Contexts}.
Hypothesis check_accepts : forall s ctx b, checkBlock s ctx b = true.
Hypothesis core_accepts : forall s ctx b, coreAddBlock s ctx b = true.
Hypothesis main_accepts : forall s b d, mainAddBlock s b d = true.
Hypothesis current_resolves : forall s core, coreCurrentResolves s core = true.
Hypothesis transfers_resolve : forall s core, transfersResolve s core = true.
Hypothesis unfork_resolves : forall s core, unforkResolves s core = true.

End WindowFacts.



Section WindowRun.
Context {contexts : Contexts}.
Hypothesis check_accepts : forall s ctx b, checkBlock s ctx b = true.
Hypothesis core_accepts : forall s ctx b, coreAddBlock s ctx b = true.
Hypothesis main_accepts : forall s b d, mainAddBlock s b d = true.
Hypothesis current_resolves : forall s core, coreCurrentResolves s core = true.
Hypothesis transfers_resolve : forall s core, transfersResolve s core = true.
Hypothesis unfork_resolves : forall s core, unforkResolves s core = true.

End WindowRun.


(** The same run, computed: A11 and A12 are confirmed on top of A10, the
    window holds A13, A14 and A15. *)
Example submitAll_slides_window_sample :
  chain (snd (submitAll (contexts := permissive) 3 true
                        [A11; A12; A13; A14; A15] (mkForkState [] [A10] 0)))
  = [A12; A11; A10]
  /\ map coreBlock
         (cores (snd (submitAll (contexts := permissive) 3 true
                                [A11; A12; A13; A14; A15]
                                (mkForkState [] [A10] 0))))
     = [A13; A14; A15].
Proof. split; reflexivity. Qed.

(* ===================================================================== *)
(** ** Fork manager: two cores at the top *)
(* ===================================================================== *)

Section TieFacts.
Context {contexts : Contexts}.

End TieFacts.


(* ===================================================================== *)
(** ** The newcomers kept satisfy the constraints together *)
(* ===================================================================== *)

Section StableGroup.
Context {wot : WoTRules}.

(** X16. The newcomers [findNewcomers] retains satisfy the constraints
    of the web of trust as a group: when some are retained,
    [computeNewLinks] answers for them and [checkWoTConstraints] accepts
    the block that carries them all as joiners; for a block number
    above 0 each of them has enough links and is outdistanced by none
    of the sentries and retained newcomers. *)
Theorem findNewcomers_keeps_stable_group
        (computeNewLinks : Z -> list string -> option Links)
        (sentries : list string) (nextBlockNumber : Z) (newcomers : list string) :
  iteratedChecking (checkWoTForNewcomers computeNewLinks sentries nextBlockNumber)
                   newcomers <> [] ->
  exists newLinks,
    computeNewLinks nextBlockNumber
      (iteratedChecking
         (checkWoTForNewcomers computeNewLinks sentries nextBlockNumber) newcomers)
    = Some newLinks
    /\ checkWoTConstraints sentries
         (mkNextBlock nextBlockNumber
            (iteratedChecking
               (checkWoTForNewcomers computeNewLinks sentries nextBlockNumber)
               newcomers))
         newLinks = Done tt
    /\ (0 < nextBlockNumber ->
        forall newcomer,
          In newcomer
             (map beforeColon
                (iteratedChecking
                   (checkWoTForNewcomers computeNewLinks sentries nextBlockNumber)
                   newcomers)) ->
          checkHaveEnoughLinks newcomer newLinks = true
          /\ isOver3Hops
               (mkNextBlock nextBlockNumber
                  (iteratedChecking
                     (checkWoTForNewcomers computeNewLinks sentries nextBlockNumber)
                     newcomers))
               newcomer
               (sentries
                ++ map beforeColon
                     (iteratedChecking
                        (checkWoTForNewcomers computeNewLinks sentries
                                              nextBlockNumber) newcomers))
               newLinks = Some []).
Proof.
  set (check := checkWoTForNewcomers computeNewLinks sentries nextBlockNumber).
  set (kept := iteratedChecking check newcomers).
  intros Hkept.
  pose proof (iteratedChecking_settled check newcomers) as Hsettled.
  fold kept in Hsettled.
  pose proof (forEachNewcomer_all_pass check kept []) as Hall.
  simpl in Hall. destruct Hall as [Hall _]. specialize (Hall Hsettled).
  specialize (Hall (List.length kept)). rewrite firstn_all in Hall.
  assert (Hpass : check kept = true).
  { apply Hall. destruct kept; [congruence|simpl; lia]. }
  unfold check, checkWoTForNewcomers in Hpass.
  destruct (computeNewLinks nextBlockNumber kept) as [newLinks|]; [|discriminate].
  exists newLinks. split; [reflexivity|].
  destruct (checkWoTConstraints sentries (mkNextBlock nextBlockNumber kept) newLinks)
    as [[]|e] eqn:Hc; [|discriminate].
  split; [reflexivity|].
  intros Hpos newcomer Hin.
  unfold checkWoTConstraints in Hc. cbn [nb_number nb_joiners] in Hc.
  destruct (Z.geb_spec nextBlockNumber 0) as [_|Hneg]; [|lia].
  cbv zeta in Hc. rewrite forEachSeries_Done in Hc.
  apply (@testNewcomer_Done wot (mkNextBlock nextBlockNumber kept)); [exact Hpos|].
  now apply Hc.
Qed.
End StableGroup.

Lemma findNewcomers_keeps_stable_group_witness :
  exists newLinks,
    (fun _ _ => Some []) 8
      (iteratedChecking
         (checkWoTForNewcomers (wot := sampleWoT) (fun _ _ => Some []) ["S1"] 8)
         ["J1"; "J2"; "J3"; "J4"])
    = Some newLinks
    /\ checkWoTConstraints (wot := sampleWoT) ["S1"]
         (mkNextBlock 8
            (iteratedChecking
               (checkWoTForNewcomers (wot := sampleWoT) (fun _ _ => Some []) ["S1"] 8)
               ["J1"; "J2"; "J3"; "J4"]))
         newLinks = Done tt
    /\ (0 < 8 ->
        forall newcomer,
          In newcomer
             (map beforeColon
                (iteratedChecking
                   (checkWoTForNewcomers (wot := sampleWoT) (fun _ _ => Some [])
                                         ["S1"] 8)
                   ["J1"; "J2"; "J3"; "J4"])) ->
          checkHaveEnoughLinks (WoTRules := sampleWoT) newcomer newLinks = true
          /\ isOver3Hops (WoTRules := sampleWoT)
               (mkNextBlock 8
                  (iteratedChecking
                     (checkWoTForNewcomers (wot := sampleWoT) (fun _ _ => Some [])
                                           ["S1"] 8)
                     ["J1"; "J2"; "J3"; "J4"]))
               newcomer
               (["S1"]
                ++ map beforeColon
                     (iteratedChecking
                        (checkWoTForNewcomers (wot := sampleWoT)
                                              (fun _ _ => Some []) ["S1"] 8)
                        ["J1"; "J2"; "J3"; "J4"]))
               newLinks = Some []).
Proof.
  apply (@findNewcomers_keeps_stable_group sampleWoT (fun _ _ => Some []) ["S1"] 8
           ["J1"; "J2"; "J3"; "J4"]).
  vm_compute. discriminate.
Defined.

(** Under the sample rules J4 is turned down and the three others are
    kept. *)
Example findNewcomers_sample_group :
  iteratedChecking
    (checkWoTForNewcomers (wot := sampleWoT) (fun _ _ => Some []) ["S1"] 8)
    ["J1"; "J2"; "J3"; "J4"]
  = ["J1"; "J2"; "J3"].
Proof. reflexivity. Qed.
